(** * MarkedList: the optimistic (lazy) linked list with marking

    A shallow embedding of [concurrent-linked-list.cpp] /
    [concurrent-linked-list.hpp] and of the sequential behaviour of its
    operations.  Nodes live in a store indexed by addresses, the static
    [accessedPointers] table is part of the machine state, and every
    operation is a computation in a small state/trace/failure monad whose
    trace records hazard-slot stores and node accesses in program order. *)

From Stdlib Require Import ZArith Lia.
From stdpp Require Import gmap list sorting.

Module MarkedList.

(** ** Machine integers *)

Definition MAX_THREADS : Z := 8.
Definition ACCESSED_PTRS_PER_THREAD : Z := 2.

Definition INT_MAX : Z := 2 ^ 31 - 1.
Definition INT_MIN : Z := - 2 ^ 31.

(** Two's-complement wrap-around of a 32-bit [int]. *)
Definition wrap_int (z : Z) : Z := ((z + 2 ^ 31) mod 2 ^ 32 - 2 ^ 31)%Z.

(** ** Data *)

Abbreviation addr := positive.

(** [struct Node]: [value], [next] (null is [None]) and [removed].  The
    per-node mutex carries no data: in the sequential executions modelled
    here a mutex is always free when it is acquired, and acquisitions and
    releases are recorded as trace events. *)
Record Node := mkNode {
  value : Z;
  next : option addr;
  removed : bool
}.

Definition set_next (nxt : option addr) (n : Node) : Node :=
  mkNode (value n) nxt (removed n).
Definition set_removed (b : bool) (n : Node) : Node :=
  mkNode (value n) (next n) b.

(** [accessedPointers[MAX_THREADS][ACCESSED_PTRS_PER_THREAD]]. *)
Abbreviation table := (list (list (option addr))).

(** The members of a [MarkedList] object together with the node store, the
    allocation frontier and the static hazard table. *)
Record state := mkState {
  heap : gmap addr Node;
  brk : addr;
  head : addr;
  retireList : list addr;
  length : Z;
  operationCounter : Z;
  accessedPointers : table
}.

Definition set_heap (h : gmap addr Node) (s : state) : state :=
  mkState h (brk s) (head s) (retireList s) (length s) (operationCounter s)
          (accessedPointers s).
Definition set_brk (b : addr) (s : state) : state :=
  mkState (heap s) b (head s) (retireList s) (length s) (operationCounter s)
          (accessedPointers s).
Definition set_retireList (l : list addr) (s : state) : state :=
  mkState (heap s) (brk s) (head s) l (length s) (operationCounter s)
          (accessedPointers s).
Definition set_length (z : Z) (s : state) : state :=
  mkState (heap s) (brk s) (head s) (retireList s) z (operationCounter s)
          (accessedPointers s).
Definition set_operationCounter (z : Z) (s : state) : state :=
  mkState (heap s) (brk s) (head s) (retireList s) (length s) z
          (accessedPointers s).
Definition set_accessedPointers (t : table) (s : state) : state :=
  mkState (heap s) (brk s) (head s) (retireList s) (length s)
          (operationCounter s) t.

(** ** Traces and outcomes *)

Inductive event :=
| EvStore (threadID index : Z) (node : option addr)
    (* accessedPointers[threadID][index].store(node) *)
| EvAccess (node : addr) (hazards : table)
    (* a field of [node] is read or written; [hazards] is the table then *)
| EvLock (node : addr)
| EvUnlock (node : addr)
| EvNew (node : addr)
| EvDelete (node : addr)
| EvReclaim.
    (* a pass of scanAndReclaim starts *)

(** How a call can end without returning.  No statement of the modelled code
    throws or aborts (allocation is taken to succeed), so [Terminated] is
    never produced by the operations below. *)
Inductive undefined :=
| OutOfBounds (threadID index : Z)   (* subscript outside accessedPointers *)
| InvalidPointer (node : addr).      (* access to or delete of a freed node *)

Inductive failure :=
| Terminated                         (* exception, std::abort, std::terminate *)
| Undefined (u : undefined)
| NoTermination.

Inductive outcome (A : Type) :=
| Returns (a : A) (s : state) (tr : list event)
| Fails (f : failure).
Arguments Returns {A} a s tr.
Arguments Fails {A} f.

Definition M (A : Type) : Type := state → outcome A.

Definition ret {A} (a : A) : M A := λ s, Returns a s [].

Definition bind {A B} (m : M A) (f : A → M B) : M B := λ s,
  match m s with
  | Returns a s1 t1 =>
      match f a s1 with
      | Returns b s2 t2 => Returns b s2 (t1 ++ t2)
      | Fails e => Fails e
      end
  | Fails e => Fails e
  end.

Notation "'let*' x ':=' m 'in' k" := (bind m (λ x, k))
  (at level 10, x name, m at level 100, k at level 200).
Notation "'let*' ( x , y ) ':=' m 'in' k" := (bind m (λ '(x, y), k))
  (at level 10, x name, y name, m at level 100, k at level 200).

Definition gets {A} (f : state → A) : M A := λ s, Returns (f s) s [].
Definition modify (f : state → state) : M unit := λ s, Returns tt (f s) [].
Definition fail {A} (f : failure) : M A := λ _, Fails f.

(** The writer's [listen]: a computation together with the events it emits. *)
Definition listen {A} (m : M A) : M (A * list event) := λ s,
  match m s with
  | Returns a s' tr => Returns (a, tr) s' tr
  | Fails e => Fails e
  end.

(** ** Node store primitives *)

(** Reading a field of [*p]. *)
Definition load (p : addr) : M Node := λ s,
  match heap s !! p with
  | Some n => Returns n s [EvAccess p (accessedPointers s)]
  | None => Fails (Undefined (InvalidPointer p))
  end.

(** Writing a field of [*p]. *)
Definition store (p : addr) (f : Node → Node) : M unit := λ s,
  match heap s !! p with
  | Some n =>
      Returns tt (set_heap (<[p := f n]> (heap s)) s)
              [EvAccess p (accessedPointers s)]
  | None => Fails (Undefined (InvalidPointer p))
  end.

Definition lock (p : addr) : M unit := λ s,
  match heap s !! p with
  | Some _ => Returns tt s [EvLock p]
  | None => Fails (Undefined (InvalidPointer p))
  end.

Definition unlock (p : addr) : M unit := λ s,
  match heap s !! p with
  | Some _ => Returns tt s [EvUnlock p]
  | None => Fails (Undefined (InvalidPointer p))
  end.

Definition lock_if (p : option addr) : M unit :=
  match p with Some c => lock c | None => ret tt end.
Definition unlock_if (p : option addr) : M unit :=
  match p with Some c => unlock c | None => ret tt end.

(** [new Node(val, nxt)]: the node is placed at the allocation frontier. *)
Definition new_Node (val : Z) (nxt : option addr) : M addr := λ s,
  let p := brk s in
  Returns p
    (set_brk (Pos.succ p) (set_heap (<[p := mkNode val nxt false]> (heap s)) s))
    [EvNew p].

(** [delete node]. *)
Definition delete_Node (p : addr) : M unit := λ s,
  match heap s !! p with
  | Some _ => Returns tt (set_heap (delete p (heap s)) s) [EvDelete p]
  | None => Fails (Undefined (InvalidPointer p))
  end.

(** [MarkedList::MarkedList()]: the sentinel (value -1) is the only node and
    every hazard slot is null. *)
Definition new : state :=
  mkState {[ 1%positive := mkNode (-1) None false ]} 2%positive 1%positive
          [] 0 0
          (replicate (Z.to_nat MAX_THREADS)
                     (replicate (Z.to_nat ACCESSED_PTRS_PER_THREAD) None)).

(** ** Hazard registry *)

Definition in_table (threadID index : Z) : bool :=
  (0 <=? threadID)%Z && (threadID <? MAX_THREADS)%Z &&
  (0 <=? index)%Z && (index <? ACCESSED_PTRS_PER_THREAD)%Z.

(** The cell assignment [t[threadID][index] = node]. *)
Definition publish (t : table) (threadID index : Z) (node : option addr)
  : table :=
  alter (<[Z.to_nat index := node]>) (Z.to_nat threadID) t.

(** [storeAccessedPointer]: a raw subscript, no range check. *)
Definition storeAccessedPointer (threadID : Z) (node : option addr) (index : Z)
  : M unit := λ s,
  if in_table threadID index then
    Returns tt
      (set_accessedPointers
         (publish (accessedPointers s) threadID index node) s)
      [EvStore threadID index node]
  else Fails (Undefined (OutOfBounds threadID index)).

Fixpoint for_each {A} (l : list A) (body : A → M unit) : M unit :=
  match l with
  | [] => ret tt
  | i :: l' => let* _ := body i in for_each l' body
  end.

Definition resetAccessedPointer (threadID : Z) : M unit :=
  for_each (seqZ 0 ACCESSED_PTRS_PER_THREAD)
           (λ i, storeAccessedPointer threadID None i).

(** [isNodeAccessed]: does any cell of the table hold [node]? *)
Definition hazarded (node : addr) (t : table) : bool :=
  existsb (existsb (λ p, bool_decide (p = Some node))) t.

Definition isNodeAccessed (node : addr) : M bool :=
  gets (λ s, hazarded node (accessedPointers s)).

(** ** Reclaimer *)

Fixpoint reclaim_loop (l newRetireList : list addr) : M (list addr) :=
  match l with
  | [] => ret newRetireList
  | node :: l' =>
      let* accessed := isNodeAccessed node in
      if negb accessed then
        let* _ := delete_Node node in
        reclaim_loop l' newRetireList
      else reclaim_loop l' (newRetireList ++ [node])
  end.

Definition scanAndReclaim : M unit :=
  let* _ := (λ s, Returns tt s [EvReclaim]) in
  let* l := gets retireList in
  let* newRetireList := reclaim_loop l [] in
  modify (set_retireList newRetireList).

(** ** Optimistic operator *)

Definition validate (pred : addr) (curr : option addr) : M bool :=
  let* p := load pred in
  if removed p then ret false
  else
    let* curr_removed :=
      match curr with
      | None => ret false
      | Some c => let* n := load c in ret (removed n)
      end in
    if curr_removed then ret false
    else
      let* p' := load pred in
      ret (bool_decide (next p' = curr)).

(** The unlocked walk shared (as identical text) by insert and remove:
    [while (curr && curr->value < val) { ... }].  The loop runs on [fuel]:
    each round moves one link forward, so on an acyclic chain [fuel] larger
    than the number of nodes is never used up. *)
Fixpoint traverse (fuel : nat) (val threadID : Z) (pred : addr)
    (curr : option addr) : M (addr * option addr) :=
  match fuel with
  | O => fail NoTermination
  | S fuel' =>
      match curr with
      | None => ret (pred, None)
      | Some c =>
          let* n := load c in
          if (value n <? val)%Z then
            let* _ := storeAccessedPointer threadID (Some c) 0 in
            let* n1 := load c in
            let* _ := storeAccessedPointer threadID (next n1) 1 in
            let* n2 := load c in
            traverse fuel' val threadID c (next n2)
          else ret (pred, Some c)
      end
  end.

Definition fuel_of (s : state) : nat := S (size (heap s)).

(** [length.fetch_add(d)], [operationCounter.fetch_add(d)]: the old value is
    returned and the new one wraps. *)
Definition length_fetch_add (d : Z) : M Z := λ s,
  Returns (length s) (set_length (wrap_int (length s + d)) s) [].
Definition operationCounter_fetch_add (d : Z) : M Z := λ s,
  Returns (operationCounter s)
          (set_operationCounter (wrap_int (operationCounter s + d)) s) [].

(** The reclamation trigger at the end of insert and remove. *)
Definition bump_and_reclaim : M unit :=
  let* old := operationCounter_fetch_add 1 in
  let* len := gets length in
  if (wrap_int (old + 1) >=? len)%Z then
    let* _ := scanAndReclaim in
    let* len' := gets length in
    let* _ := operationCounter_fetch_add (- len') in
    ret tt
  else ret tt.

(** One pass through the body of insert's [while (true)], in two parts: up
    to the first hazard store, and from the read of [curr] onwards.  The
    second part answers [false] where the source says [continue]. *)
Definition insert_first_hazard (threadID : Z) : M addr :=
  let* pred := gets head in
  let* h := load pred in
  let* _ := storeAccessedPointer threadID (next h) 0 in
  ret pred.

Definition insert_after_first_hazard (fuel : nat) (val threadID : Z)
    (pred : addr) : M bool :=
  let* h' := load pred in
  let* (pred, curr) := traverse fuel val threadID pred (next h') in
  let* _ := lock pred in
  let* _ := lock_if curr in
  let* ok := validate pred curr in
  if negb ok then
    let* _ := resetAccessedPointer threadID in
    let* _ := unlock_if curr in
    let* _ := unlock pred in
    ret false
  else
    let* newNode := new_Node val curr in
    let* _ := store pred (set_next (Some newNode)) in
    let* _ := unlock_if curr in
    let* _ := unlock pred in
    let* _ := resetAccessedPointer threadID in
    let* _ := length_fetch_add 1 in
    let* _ := bump_and_reclaim in
    ret true.

Definition insert_attempt (fuel : nat) (val threadID : Z) : M bool :=
  let* pred := insert_first_hazard threadID in
  insert_after_first_hazard fuel val threadID pred.

Fixpoint insert_loop (attempts fuel : nat) (val threadID : Z) : M unit :=
  match attempts with
  | O => fail NoTermination
  | S attempts' =>
      let* done := insert_attempt fuel val threadID in
      if done then ret tt else insert_loop attempts' fuel val threadID
  end.

Definition insert (val threadID : Z) : M unit :=
  let* fuel := gets fuel_of in
  insert_loop fuel fuel val threadID.

Fixpoint remove_loop (attempts fuel : nat) (val threadID : Z) : M bool :=
  match attempts with
  | O => fail NoTermination
  | S attempts' =>
      let* pred := gets head in
      let* h := load pred in
      let curr := next h in
      let* h' := load pred in
      let* _ := storeAccessedPointer threadID (next h') 0 in
      let* (pred, curr) := traverse fuel val threadID pred curr in
      let* _ := lock pred in
      let* _ := lock_if curr in
      let* ok := validate pred curr in
      if negb ok then
        let* _ := resetAccessedPointer threadID in
        let* _ := unlock_if curr in
        let* _ := unlock pred in
        remove_loop attempts' fuel val threadID
      else
        let* found :=
          match curr with
          | None => ret None
          | Some c =>
              let* n := load c in
              ret (if (value n =? val)%Z then Some c else None)
          end in
        match found with
        | None =>
            let* _ := resetAccessedPointer threadID in
            let* _ := unlock_if curr in
            let* _ := unlock pred in
            ret false
        | Some c =>
            let* _ := store c (set_removed true) in
            let* n := load c in
            let* _ := store pred (set_next (next n)) in
            let* _ := modify (λ s, set_retireList (retireList s ++ [c]) s) in
            let* _ := resetAccessedPointer threadID in
            let* _ := unlock c in
            let* _ := unlock pred in
            let* _ := length_fetch_add (-1) in
            let* _ := bump_and_reclaim in
            ret true
        end
  end.

Definition remove (val threadID : Z) : M bool :=
  let* fuel := gets fuel_of in
  remove_loop fuel fuel val threadID.

Fixpoint contains_loop (fuel : nat) (val threadID : Z) (curr : option addr)
  : M (option addr) :=
  match fuel with
  | O => fail NoTermination
  | S fuel' =>
      match curr with
      | None => ret None
      | Some c =>
          let* n := load c in
          if (value n <? val)%Z then
            let* n1 := load c in
            let* _ := storeAccessedPointer threadID (next n1) 0 in
            contains_loop fuel' val threadID (next n1)
          else ret (Some c)
      end
  end.

Definition contains (val threadID : Z) : M bool :=
  let* fuel := gets fuel_of in
  let* hd := gets head in
  let* h := load hd in
  let* _ := storeAccessedPointer threadID (next h) 0 in
  let* curr := contains_loop fuel val threadID (next h) in
  let* found :=
    match curr with
    | None => ret false
    | Some c =>
        let* n := load c in
        if removed n then ret false
        else let* n' := load c in ret (value n' =? val)%Z
    end in
  let* _ := resetAccessedPointer threadID in
  ret found.

(** ** Accessors and diagnostics *)

Definition get_length : M Z := gets length.

(** [printList]: the values written to standard output, in order. *)
Fixpoint printList_loop (fuel : nat) (curr : option addr) : M (list Z) :=
  match fuel with
  | O => fail NoTermination
  | S fuel' =>
      match curr with
      | None => ret []
      | Some c =>
          let* n := load c in
          let* n' := load c in
          let* rest := printList_loop fuel' (next n') in
          ret (if removed n then rest else value n :: rest)
      end
  end.

Definition printList : M (list Z) :=
  let* fuel := gets fuel_of in
  let* hd := gets head in
  let* h := load hd in
  printList_loop fuel (next h).

Fixpoint checkList_loop (fuel : nat) (prev : addr) (curr : option addr)
  : M bool :=
  match fuel with
  | O => fail NoTermination
  | S fuel' =>
      match curr with
      | None => ret true
      | Some c =>
          let* n := load c in
          let* p := load prev in
          if (value n <? value p)%Z then ret false
          else
            let* n' := load c in
            checkList_loop fuel' c (next n')
      end
  end.

Definition checkList : M bool :=
  let* fuel := gets fuel_of in
  let* prev := gets head in
  let* h := load prev in
  checkList_loop fuel prev (next h).

(** ** Sequences of calls *)

Inductive call :=
| Insert (val threadID : Z)
| Remove (val threadID : Z)
| Contains (val threadID : Z)
| ScanAndReclaim.

Inductive retval := RUnit | RBool (b : bool).

Definition exec (c : call) : M retval :=
  match c with
  | Insert val threadID => let* _ := insert val threadID in ret RUnit
  | Remove val threadID => let* b := remove val threadID in ret (RBool b)
  | Contains val threadID => let* b := contains val threadID in ret (RBool b)
  | ScanAndReclaim => let* _ := scanAndReclaim in ret RUnit
  end.

(** Each call is logged with what it returned and the events it emitted. *)
Fixpoint run (cs : list call) : M (list (call * retval * list event)) :=
  match cs with
  | [] => ret []
  | c :: cs' =>
      let* (r, tr) := listen (exec c) in
      let* log := run cs' in
      ret ((c, r, tr) :: log)
  end.

(** ** The parts of a pass of insert and of remove *)

(** Lines 69-79 of insert: the two reads of [head->next], the hazard store
    and the walk. *)
Definition insert_find (fuel : nat) (val threadID : Z)
  : M (addr * option addr) :=
  let* pred := insert_first_hazard threadID in
  let* h' := load pred in
  traverse fuel val threadID pred (next h').

(** Lines 81-111 of insert: from the locks to the end of the pass, for the
    window ([pred], [curr]) the walk stopped at.  [false] stands for
    [continue]. *)
Definition insert_locked (val threadID : Z) (pred : addr)
    (curr : option addr) : M bool :=
  let* _ := lock pred in
  let* _ := lock_if curr in
  let* ok := validate pred curr in
  if negb ok then
    let* _ := resetAccessedPointer threadID in
    let* _ := unlock_if curr in
    let* _ := unlock pred in
    ret false
  else
    let* newNode := new_Node val curr in
    let* _ := store pred (set_next (Some newNode)) in
    let* _ := unlock_if curr in
    let* _ := unlock pred in
    let* _ := resetAccessedPointer threadID in
    let* _ := length_fetch_add 1 in
    let* _ := bump_and_reclaim in
    ret true.

(** Lines 74-111 of insert: the walk from ([pred], [curr]) and what follows. *)
Definition insert_from_curr (fuel : nat) (val threadID : Z) (pred : addr)
    (curr : option addr) : M bool :=
  let* (pred, curr) := traverse fuel val threadID pred curr in
  insert_locked val threadID pred curr.

(** The rest of a pass of insert for the window ([pred], [curr]), and the
    passes after it. *)
Definition insert_resume (attempts fuel : nat) (val threadID : Z)
    (pred : addr) (curr : option addr) : M unit :=
  let* done := insert_locked val threadID pred curr in
  if done then ret tt else insert_loop attempts fuel val threadID.

(** Lines 117-127 of remove: the two reads of [head->next], the hazard store
    and the walk. *)
Definition remove_find (fuel : nat) (val threadID : Z)
  : M (addr * option addr) :=
  let* pred := gets head in
  let* h := load pred in
  let curr := next h in
  let* h' := load pred in
  let* _ := storeAccessedPointer threadID (next h') 0 in
  traverse fuel val threadID pred curr.

(** Lines 129-173 of remove, for the window ([pred], [curr]): [None] stands
    for [continue], [Some b] for [return b]. *)
Definition remove_locked (val threadID : Z) (pred : addr)
    (curr : option addr) : M (option bool) :=
  let* _ := lock pred in
  let* _ := lock_if curr in
  let* ok := validate pred curr in
  if negb ok then
    let* _ := resetAccessedPointer threadID in
    let* _ := unlock_if curr in
    let* _ := unlock pred in
    ret None
  else
    let* found :=
      match curr with
      | None => ret None
      | Some c =>
          let* n := load c in
          ret (if (value n =? val)%Z then Some c else None)
      end in
    match found with
    | None =>
        let* _ := resetAccessedPointer threadID in
        let* _ := unlock_if curr in
        let* _ := unlock pred in
        ret (Some false)
    | Some c =>
        let* _ := store c (set_removed true) in
        let* n := load c in
        let* _ := store pred (set_next (next n)) in
        let* _ := modify (λ s, set_retireList (retireList s ++ [c]) s) in
        let* _ := resetAccessedPointer threadID in
        let* _ := unlock c in
        let* _ := unlock pred in
        let* _ := length_fetch_add (-1) in
        let* _ := bump_and_reclaim in
        ret (Some true)
    end.

(** The rest of a pass of remove for the window ([pred], [curr]), and the
    passes after it. *)
Definition remove_resume (attempts fuel : nat) (val threadID : Z)
    (pred : addr) (curr : option addr) : M bool :=
  let* r := remove_locked val threadID pred curr in
  match r with
  | None => remove_loop attempts fuel val threadID
  | Some b => ret b
  end.

(** ** The destructor and printRetireList *)

(** [MarkedList::~MarkedList()]: the nodes reachable from the head are
    deleted one after the other; the retire list is not visited. *)
Fixpoint delete_MarkedList_loop (fuel : nat) (curr : option addr) : M unit :=
  match fuel with
  | O => fail NoTermination
  | S fuel' =>
      match curr with
      | None => ret tt
      | Some temp =>
          let* n := load temp in
          let* _ := delete_Node temp in
          delete_MarkedList_loop fuel' (next n)
      end
  end.

Definition delete_MarkedList : M unit :=
  let* fuel := gets fuel_of in
  let* curr := gets head in
  delete_MarkedList_loop fuel (Some curr).

(** [printRetireList]: the values written to standard output, in order. *)
Fixpoint printRetireList_loop (l : list addr) : M (list Z) :=
  match l with
  | [] => ret []
  | node :: l' =>
      let* n := load node in
      let* rest := printRetireList_loop l' in
      ret (value n :: rest)
  end.

Definition printRetireList : M (list Z) :=
  let* l := gets retireList in
  printRetireList_loop l.

(** ** The end of main *)

(** Lines 68-82 of main.cpp, after the worker threads are joined: the list
    is printed, then its length, then whether it contains 50 and whether
    checkList holds (SORTED is printed when it does); scanAndReclaim is
    called and the list is destroyed when main returns.  The result is what
    was printed. *)
Definition main_epilogue : M (list Z * Z * bool * bool) :=
  let* out := printList in
  let* len := get_length in
  let* found := contains 50 0 in
  let* sorted := checkList in
  let* _ := scanAndReclaim in
  let* _ := delete_MarkedList in
  ret (out, len, found, sorted).

(** * Predicates on states, chains and computations *)

(** [wp m s Q]: from [s] the computation [m] returns, and its result, final
    state and trace satisfy [Q]. *)
Definition wp {A} (m : M A) (s : state)
    (Q : A → state → list event → Prop) : Prop :=
  match m s with
  | Returns a s' tr => Q a s' tr
  | Fails _ => False
  end.

(** ** Chains of nodes *)

(** [seg h p l q]: following [next] from [p] visits exactly the nodes [l]
    and arrives at [q]. *)
Inductive seg (h : gmap addr Node) :
    option addr → list addr → option addr → Prop :=
| seg_nil p : seg h p [] p
| seg_cons p n l q :
    h !! p = Some n → seg h (next n) l q → seg h (Some p) (p :: l) q.

Definition chain (h : gmap addr Node) (p : option addr) (l : list addr) : Prop :=
  seg h p l None.

Definition first (l : list addr) : option addr :=
  match l with [] => None | c :: _ => Some c end.

Definition key (h : gmap addr Node) (a : addr) : Z :=
  from_option value 0%Z (h !! a).

(** ** The hazard table *)

Definition in_range (threadID : Z) : Prop := (0 ≤ threadID < MAX_THREADS)%Z.

Definition shape (T : table) : Prop :=
  List.length T = Z.to_nat MAX_THREADS ∧
  Forall (λ r, List.length r = Z.to_nat ACCESSED_PTRS_PER_THREAD) T.

Definition row (T : table) (threadID : Z) : list (option addr) :=
  default [] (T !! Z.to_nat threadID).

Definition others_eq (threadID : Z) (T T' : table) : Prop :=
  ∀ k, k ≠ Z.to_nat threadID → T' !! k = T !! k.

(** An access is protected when the node is the sentinel or is held by one of
    the worker's hazard slots at that moment. *)
Definition protected (hd : addr) (threadID : Z) (e : event) : Prop :=
  match e with
  | EvAccess p hz => p = hd ∨ Some p ∈ row hz threadID
  | _ => True
  end.

(** The same with slot 0 in place of any slot. *)
Definition protected0 (hd : addr) (threadID : Z) (e : event) : Prop :=
  match e with
  | EvAccess p hz => p = hd ∨ row hz threadID !! 0%nat = Some (Some p)
  | _ => True
  end.

(** ** Hazard slots after a reset *)

Definition cleared (T : table) (threadID : Z) : table :=
  <[Z.to_nat threadID := replicate (Z.to_nat ACCESSED_PTRS_PER_THREAD) None]> T.

(** ** The reclaim pass *)

Definition free_all (l : list addr) (h : gmap addr Node) : gmap addr Node :=
  foldl (λ h a, delete a h) h l.

(** The nodes a pass keeps and the nodes it frees. *)
Definition kept (T : table) (l : list addr) : list addr :=
  filter (λ a, hazarded a T = true) l.
Definition freed (T : table) (l : list addr) : list addr :=
  filter (λ a, hazarded a T ≠ true) l.

Definition reclaimed (s : state) : state :=
  set_retireList (kept (accessedPointers s) (retireList s))
    (set_heap (free_all (freed (accessedPointers s) (retireList s)) (heap s)) s).

(** ** The representation invariant *)

Definition keys (h : gmap addr Node) (l : list addr) : list Z := key h <$> l.

(** [wf s l]: the non-sentinel nodes reachable from the head are exactly [l],
    in this order; no reachable node is marked; the retire list holds marked,
    allocated nodes, once each; every allocated node is reachable or retired;
    the allocation frontier is above every node; the hazard table has its
    static shape. *)
Record wf (s : state) (l : list addr) : Prop := mkWf {
  wf_chain : chain (heap s) (Some (head s)) (head s :: l);
  wf_live : ∀ a n, a ∈ head s :: l → heap s !! a = Some n → removed n = false;
  wf_retired : ∀ a, a ∈ retireList s →
      ∃ n, heap s !! a = Some n ∧ removed n = true;
  wf_retire_nodup : NoDup (retireList s);
  wf_owned : ∀ a, is_Some (heap s !! a) → a ∈ head s :: l ∨ a ∈ retireList s;
  wf_brk : ∀ a, is_Some (heap s !! a) → (a < brk s)%positive;
  wf_shape : shape (accessedPointers s)
}.

(** [Inv s l]: [wf] and the keys along the chain are non-decreasing. *)
Definition Inv (s : state) (l : list addr) : Prop :=
  wf s l ∧ StronglySorted Z.le (keys (heap s) l).

(** ** The reclamation trigger *)

Definition fires (s : state) : bool :=
  (wrap_int (operationCounter s + 1) >=? length s)%Z.

(** The state after the trigger code at the end of insert and remove. *)
Definition bumped (s : state) : state :=
  if fires s then
    set_operationCounter
      (wrap_int (wrap_int (operationCounter s + 1) + - length s)) (reclaimed s)
  else set_operationCounter (wrap_int (operationCounter s + 1)) s.

(** ** The states insert and remove produce *)

(** The state right after the new node is linked behind [pred], the hazard
    slots are reset and [length] is incremented. *)
Definition linked (s : state) (pred : addr) (np : Node) (curr : option addr)
    (val threadID : Z) : state :=
  mkState
    (<[pred := set_next (Some (brk s)) np]>
       (<[brk s := mkNode val curr false]> (heap s)))
    (Pos.succ (brk s)) (head s) (retireList s)
    (wrap_int (length s + 1)) (operationCounter s)
    (cleared (accessedPointers s) threadID).

(** The node remove acts on: the first node of the rest of the chain, when
    its key is [val]. *)
Definition target (h : gmap addr Node) (val : Z) (l2 : list addr)
  : option addr :=
  match l2 with
  | c :: _ => if (key h c =? val)%Z then Some c else None
  | [] => None
  end.

(** The state right after [c] is marked, unlinked from [pred] and retired,
    the hazard slots are reset and [length] is decremented. *)
Definition unlinked (s : state) (pred : addr) (np : Node) (c : addr)
    (nc : Node) (threadID : Z) : state :=
  mkState
    (<[pred := set_next (next nc) np]>
       (<[c := set_removed true nc]> (heap s)))
    (brk s) (head s) (retireList s ++ [c])
    (wrap_int (length s + -1)) (operationCounter s)
    (cleared (accessedPointers s) threadID).

(** ** The answer of contains *)

(** What [contains] answers, read off the chain: the first node whose key is
    at least [val] must exist, be unmarked and carry [val]. *)
Definition stop_node (h : gmap addr Node) (val : Z) (l : list addr)
  : option addr :=
  List.find (λ a, (val <=? key h a)%Z) l.

Definition holds (h : gmap addr Node) (val : Z) (p : option addr) : bool :=
  match p with
  | Some c =>
      match h !! c with
      | Some n => negb (removed n) && (value n =? val)%Z
      | None => false
      end
  | None => false
  end.

(** ** The diagnostics *)

(** The comparison [checkList] makes along the chain, on the keys. *)
Fixpoint ascending (k : Z) (ks : list Z) : bool :=
  match ks with
  | [] => true
  | x :: r => if (x <? k)%Z then false else ascending x r
  end.

(** What [printList] writes: the keys of the unmarked nodes of the chain. *)
Definition visible (h : gmap addr Node) (l : list addr) : list Z :=
  omap (λ a, n ← h !! a; if removed n then None else Some (value n)) l.

(** ** One call *)

Definition valid_call (c : call) : Prop :=
  match c with
  | Insert _ t | Remove _ t | Contains _ t => in_range t
  | ScanAndReclaim => True
  end.

(** What a call does to a well-formed state with chain [l]: the value it
    returns, the state and the chain afterwards. *)
Definition effect (c : call) (s : state) (l : list addr)
    (r : retval) (s' : state) (l' : list addr) (tr : list event) : Prop :=
  match c with
  | Insert v t =>
      r = RUnit ∧
      ∃ l1 l2 np,
        l = l1 ++ l2 ∧
        Forall (λ a, (key (heap s) a < v)%Z) l1 ∧
        (∀ c, first l2 = Some c → (v ≤ key (heap s) c)%Z) ∧
        heap s !! List.last l1 (head s) = Some np ∧
        next np = first l2 ∧
        l' = l1 ++ brk s :: l2 ∧
        s' = bumped (linked s (List.last l1 (head s)) np (first l2) v t) ∧
        (EvReclaim ∈ tr ↔
         fires (linked s (List.last l1 (head s)) np (first l2) v t) = true)
  | Remove v t =>
      ∃ l1 l2 np,
        l = l1 ++ l2 ∧
        Forall (λ a, (key (heap s) a < v)%Z) l1 ∧
        (∀ c, first l2 = Some c → (v ≤ key (heap s) c)%Z) ∧
        heap s !! List.last l1 (head s) = Some np ∧
        match target (heap s) v l2 with
        | Some c =>
            ∃ nc l3, l2 = c :: l3 ∧ heap s !! c = Some nc ∧
              r = RBool true ∧ l' = l1 ++ l3 ∧
              s' = bumped (unlinked s (List.last l1 (head s)) np c nc t) ∧
              (EvReclaim ∈ tr ↔
               fires (unlinked s (List.last l1 (head s)) np c nc t) = true)
        | None =>
            r = RBool false ∧ l' = l ∧
            s' = set_accessedPointers (cleared (accessedPointers s) t) s ∧
            EvReclaim ∉ tr
        end
  | Contains v t =>
      r = RBool (holds (heap s) v (stop_node (heap s) v l)) ∧ l' = l ∧
      s' = set_accessedPointers (cleared (accessedPointers s) t) s ∧
      EvReclaim ∉ tr
  | ScanAndReclaim =>
      r = RUnit ∧ l' = l ∧ s' = reclaimed s ∧ EvReclaim ∈ tr
  end.

(** ** The keys along the chain

    [place] and [take_out] say, on the list of keys, what the specification
    says of insert and remove: a key goes in front of the first key that is
    not smaller, and only the first node with the key is taken out.  They
    are used to state what the operations do to the chain. *)

Fixpoint place (v : Z) (ks : list Z) : list Z :=
  match ks with
  | [] => [v]
  | k :: r => if (k <? v)%Z then k :: place v r else v :: k :: r
  end.

Fixpoint take_out (v : Z) (ks : list Z) : option (list Z) :=
  match ks with
  | [] => None
  | k :: r =>
      if (k <? v)%Z then (k ::.) <$> take_out v r
      else if (k =? v)%Z then Some r else None
  end.

Definition model_step (c : call) (ks : list Z) : list Z :=
  match c with
  | Insert v _ => place v ks
  | Remove v _ => default ks (take_out v ks)
  | _ => ks
  end.

(** ** Scenarios and runs *)

Definition inserts (ks : list Z) (threadID : Z) : list call :=
  (λ v, Insert v threadID) <$> ks.

Definition S1 : list call := inserts [5; 2; 8; 2; 5; 1]%Z 0.

(** Scenario S3: key 7 was inserted and a remove has marked its node but
    has not unlinked it yet. *)
Definition S3 : state :=
  mkState
    (<[2%positive := mkNode 7 None true]>
       {[ 1%positive := mkNode (-1) (Some 2%positive) false ]})
    3%positive 1%positive [] 1 1
    (replicate (Z.to_nat MAX_THREADS)
               (replicate (Z.to_nat ACCESSED_PTRS_PER_THREAD) None)).

(** The sentinel carries -1; a legal key is above it. *)
Definition legal_call (c : call) : Prop :=
  valid_call c ∧
  match c with
  | Insert v _ => (-1 < v)%Z
  | _ => True
  end.

(** The inserts that completed and the removes that returned true, read off
    the log of a run. *)
Definition is_insert (e : call * retval * list event) : bool :=
  match e with (Insert _ _, _, _) => true | _ => false end.
Definition is_removal (e : call * retval * list event) : bool :=
  match e with (Remove _ _, RBool true, _) => true | _ => false end.

Definition tally (f : call * retval * list event → bool)
    (log : list (call * retval * list event)) : Z :=
  Z.of_nat (List.length (List.filter f log)).

(** What a call does to the number of reachable nodes and to [length]. *)
Definition delta (c : call) (r : retval) : Z :=
  match c, r with
  | Insert _ _, _ => 1
  | Remove _ _, RBool true => -1
  | _, _ => 0
  end.

(** ** The retire list and the hazard slots *)

(** The retire-list invariant, for a state whose chain is [l]: retired nodes
    are allocated and marked; no reachable node is retired; an allocated
    node that is not reachable is retired (so a node leaves the retire list
    only by being freed). *)
Definition retire_invariant (s : state) (l : list addr) : Prop :=
  (∀ a, a ∈ retireList s → ∃ n, heap s !! a = Some n ∧ removed n = true) ∧
  (∀ a, a ∈ head s :: l → a ∉ retireList s) ∧
  (∀ a, is_Some (heap s !! a) → a ∉ head s :: l → a ∈ retireList s).

(** Some hazard slot holds [a]. *)
Definition referenced (a : addr) (T : table) : Prop :=
  ∃ r, r ∈ T ∧ Some a ∈ r.

(** Every hazard slot is null. *)
Definition all_null (T : table) : Prop :=
  Forall (Forall (λ p : option addr, p = None)) T.

(** A state with two retired nodes, of which worker 1 still holds one. *)
Definition S5 : state :=
  mkState
    (<[3%positive := mkNode 8 None true]>
       (<[2%positive := mkNode 7 (Some 3%positive) true]>
          {[ 1%positive := mkNode (-1) None false ]}))
    4%positive 1%positive [2%positive; 3%positive] 0 0
    (<[1%nat := [Some 2%positive; None]]> (accessedPointers new)).

(** ** The counters along a run *)

Definition is_reclaim (e : event) : bool :=
  match e with EvReclaim => true | _ => false end.

(** Did this call run a reclaim pass? *)
Definition reclaims (e : call * retval * list event) : bool :=
  existsb is_reclaim e.2.

(** The completed inserts and successful removes since the last call that
    ran a reclaim pass. *)
Definition since_reclaim (log : list (call * retval * list event)) : Z :=
  fold_left
    (λ n e, if reclaims e then 0
            else if is_insert e || is_removal e then n + 1 else n)%Z
    log 0%Z.

(** What holds of the counters after the calls logged in [log], while the
    number of calls fits an [int]. *)
Definition counters_ok (log : list (call * retval * list event))
    (s : state) (l : list addr) : Prop :=
  all_null (accessedPointers s) ∧
  length s = Z.of_nat (List.length l) ∧
  (Z.of_nat (List.length l) ≤ Z.of_nat (List.length log))%Z ∧
  (0 ≤ operationCounter s ≤ Z.of_nat (List.length log))%Z ∧
  (since_reclaim log ≤ operationCounter s)%Z ∧
  ((0 < since_reclaim log)%Z → (operationCounter s < length s)%Z) ∧
  (Z.of_nat (List.length (retireList s)) ≤ since_reclaim log)%Z.

(** An empty list whose operationCounter holds [k]. *)
Definition drained (k : Z) (s : state) : Prop :=
  wf s [] ∧ all_null (accessedPointers s) ∧ length s = 0%Z ∧
  operationCounter s = k ∧ retireList s = [].

(** [k] times insert(0, 0) then remove(0, 0). *)
Definition ping_pong (k : nat) : list call :=
  concat (replicate k [Insert 0 0; Remove 0 0]).

(** The number of rounds after which operationCounter holds INT_MAX. *)
Definition INT_MAX_rounds : nat := Z.to_nat INT_MAX.

(** ** The sorted multiset the list implements *)

(** What a call answers when the list holds the keys [ks]. *)
Definition model_ret (c : call) (ks : list Z) : retval :=
  match c with
  | Insert _ _ | ScanAndReclaim => RUnit
  | Remove v _ | Contains v _ => RBool (bool_decide (v ∈ ks))
  end.

(** The answers of a sequence of calls and the keys left at the end. *)
Fixpoint model_run (cs : list call) (ks : list Z) : list retval * list Z :=
  match cs with
  | [] => ([], ks)
  | c :: cs' =>
      let '(rs, ks') := model_run cs' (model_step c ks) in
      (model_ret c ks :: rs, ks')
  end.

(** The keys a run inserted, and the keys its successful removes took out. *)
Definition inserted_keys (log : list (call * retval * list event)) : list Z :=
  omap (λ e, match e.1.1 with Insert v _ => Some v | _ => None end) log.
Definition removed_keys (log : list (call * retval * list event)) : list Z :=
  omap (λ e, match e.1 with
             | (Remove v _, RBool true) => Some v
             | _ => None
             end) log.

(** The keys taken out since the last reclaim pass, in the order of their
    removal. *)
Definition pending (log : list (call * retval * list event)) : list Z :=
  fold_left
    (λ acc e, if reclaims e then []
              else match e.1 with
                   | (Remove v _, RBool true) => acc ++ [v]
                   | _ => acc
                   end)
    log [].

(** ** Windows, locks and deletions *)

(** What [validate] answers, read off the store: [pred] is unmarked, [curr]
    is null or unmarked, and [pred->next == curr]. *)
Definition validated (h : gmap addr Node) (pred : addr) (curr : option addr)
  : bool :=
  match h !! pred with
  | Some np =>
      negb (removed np) &&
      negb (match curr with
            | Some c => from_option removed false (h !! c)
            | None => false
            end) &&
      bool_decide (next np = curr)
  | None => false
  end.

Definition is_lock_event (e : event) : bool :=
  match e with EvLock _ | EvUnlock _ => true | _ => false end.

(** The acquisitions and releases of node mutexes in a trace. *)
Definition lock_events (tr : list event) : list event :=
  List.filter is_lock_event tr.

(** The node mutexes of a window: that of [pred] is locked first, then that
    of [curr] if it is not null; they are released in the opposite order. *)
Definition window_locks (w : addr * option addr) : list event :=
  match w.2 with
  | Some c => [EvLock w.1; EvLock c; EvUnlock c; EvUnlock w.1]
  | None => [EvLock w.1; EvUnlock w.1]
  end.

(** The nodes a trace deletes, in order. *)
Definition deleted (tr : list event) : list addr :=
  omap (λ e, match e with EvDelete a => Some a | _ => None end) tr.

(** ** What a computation emits *)

(** Whenever [m] returns, every event of its trace satisfies [E]. *)
Definition emits {A} (E : event → Prop) (m : M A) : Prop :=
  ∀ s a s' tr, m s = Returns a s' tr → Forall E tr.

(** The events of an unlocked walk by worker [threadID]: stores to its own
    hazard slots and accesses to nodes. *)
Definition walk_event (threadID : Z) (e : event) : Prop :=
  match e with
  | EvStore t _ _ => t = threadID
  | EvAccess _ _ => True
  | _ => False
  end.

(** No hazard slot of another worker is written. *)
Definition own_store (threadID : Z) (e : event) : Prop :=
  match e with
  | EvStore t _ _ => t = threadID
  | _ => True
  end.

(** The worker a call is made by; [scanAndReclaim] takes no worker id. *)
Definition worker_of (c : call) : option Z :=
  match c with
  | Insert _ t | Remove _ t | Contains _ t => Some t
  | ScanAndReclaim => None
  end.

(** ** More scenarios *)

(** The calls the worker threads of main make: inserters have the ids 0..3,
    removers the ids 4..7, and the keys are drawn from 0..200. *)
Definition main_call (c : call) : Prop :=
  match c with
  | Insert v id => (0 ≤ id < 4)%Z ∧ (0 ≤ v ≤ 200)%Z
  | Remove v id => (4 ≤ id < 8)%Z ∧ (0 ≤ v ≤ 200)%Z
  | _ => False
  end.

(** A run with every kind of call, by several workers. *)
Definition S6 : list call :=
  [Insert 5 0; Insert 2 1; Insert 5 2; Remove 5 3; Contains 2 4;
   Remove 7 5; ScanAndReclaim; Insert 1 6].

(** A schedule of four calls of main's workers. *)
Definition S7 : list call :=
  [Insert 5 0; Insert 2 1; Remove 5 4; Remove 9 5].

(** A list holding the keys 2 and 7, as two inserts leave it. *)
Definition S8 : state :=
  mkState
    (<[3%positive := mkNode 7 None false]>
       (<[2%positive := mkNode 2 (Some 3%positive) false]>
          {[ 1%positive := mkNode (-1) (Some 2%positive) false ]}))
    4%positive 1%positive [] 2 1 (accessedPointers new).

(** The same list while the node of a removed key 9 waits in the retire
    list and worker 1 holds the node of key 7 in its first hazard slot. *)
Definition S9 : state :=
  mkState
    (<[4%positive := mkNode 9 None true]>
       (<[3%positive := mkNode 7 None false]>
          (<[2%positive := mkNode 2 (Some 3%positive) false]>
             {[ 1%positive := mkNode (-1) (Some 2%positive) false ]})))
    5%positive 1%positive [4%positive] 2 1
    (<[1%nat := [Some 3%positive; None]]> (accessedPointers new)).

(** * Reasoning about computations *)

Lemma wp_elim {A} (m : M A) s Q :
  wp m s Q → ∃ a s' tr, m s = Returns a s' tr ∧ Q a s' tr.
Proof.
  unfold wp. destruct (m s) as [a s' tr|f]; [|done]. intros HQ. by exists a, s', tr.
Qed.

Lemma wp_mono {A} (m : M A) s (Q Q' : A → state → list event → Prop) :
  wp m s Q → (∀ a s' tr, Q a s' tr → Q' a s' tr) → wp m s Q'.
Proof. unfold wp. destruct (m s); [|done]. intros HQ HQQ. by apply HQQ. Qed.

Lemma wp_bind {A B} (m : M A) (f : A → M B) s Q :
  wp m s (λ a s1 t1, wp (f a) s1 (λ b s2 t2, Q b s2 (t1 ++ t2))) →
  wp (bind m f) s Q.
Proof.
  unfold wp, bind. destruct (m s) as [a s1 t1|]; [|done].
  by destruct (f a s1).
Qed.

Lemma wp_ret {A} (a : A) s (Q : A → state → list event → Prop) :
  Q a s [] → wp (ret a) s Q.
Proof. done. Qed.

Lemma wp_gets {A} (f : state → A) s (Q : A → state → list event → Prop) :
  Q (f s) s [] → wp (gets f) s Q.
Proof. done. Qed.

Lemma wp_modify f s (Q : unit → state → list event → Prop) :
  Q tt (f s) [] → wp (modify f) s Q.
Proof. done. Qed.

Lemma wp_load p n s (Q : Node → state → list event → Prop) :
  heap s !! p = Some n →
  Q n s [EvAccess p (accessedPointers s)] →
  wp (load p) s Q.
Proof. unfold wp, load. by intros ->. Qed.

Lemma wp_store p f n s (Q : unit → state → list event → Prop) :
  heap s !! p = Some n →
  Q tt (set_heap (<[p := f n]> (heap s)) s) [EvAccess p (accessedPointers s)] →
  wp (store p f) s Q.
Proof. unfold wp, store. by intros ->. Qed.

Lemma wp_lock p s (Q : unit → state → list event → Prop) :
  is_Some (heap s !! p) → Q tt s [EvLock p] → wp (lock p) s Q.
Proof. unfold wp, lock. by intros [n ->]. Qed.

Lemma wp_unlock p s (Q : unit → state → list event → Prop) :
  is_Some (heap s !! p) → Q tt s [EvUnlock p] → wp (unlock p) s Q.
Proof. unfold wp, unlock. by intros [n ->]. Qed.

Lemma wp_delete_Node p s (Q : unit → state → list event → Prop) :
  is_Some (heap s !! p) →
  Q tt (set_heap (delete p (heap s)) s) [EvDelete p] →
  wp (delete_Node p) s Q.
Proof. unfold wp, delete_Node. by intros [n ->]. Qed.

Lemma wp_storeAccessedPointer threadID node index s
    (Q : unit → state → list event → Prop) :
  in_table threadID index = true →
  Q tt (set_accessedPointers
          (publish (accessedPointers s) threadID index node) s)
       [EvStore threadID index node] →
  wp (storeAccessedPointer threadID node index) s Q.
Proof. unfold wp, storeAccessedPointer. by intros ->. Qed.

(** ** Chains of nodes *)

Lemma seg_app h p l1 q l2 r :
  seg h p l1 q → seg h q l2 r → seg h p (l1 ++ l2) r.
Proof.
  induction 1 as [|p n l q Hp _ IH]; simpl; [done|].
  intros Hq. econstructor; eauto.
Qed.

Lemma seg_app_inv h p l1 l2 r :
  seg h p (l1 ++ l2) r → ∃ q, seg h p l1 q ∧ seg h q l2 r.
Proof.
  revert p. induction l1 as [|a l1 IH]; simpl; intros p H.
  - exists p. split; [constructor|done].
  - inversion H as [|p' n l' q' Hp Hrest]; subst.
    destruct (IH _ Hrest) as (q & H1 & H2).
    exists q. split; [econstructor; eauto|done].
Qed.

Lemma seg_snoc_inv h p l a r :
  seg h p (l ++ [a]) r →
  ∃ n, seg h p l (Some a) ∧ h !! a = Some n ∧ next n = r.
Proof.
  intros H. apply seg_app_inv in H as (q & H1 & H2).
  inversion H2 as [|p' n l' q' Hp Hrest]; subst.
  inversion Hrest; subst. by exists n.
Qed.

Lemma seg_first h p l q : seg h p l q → l ≠ [] → p = first l.
Proof. by destruct 1. Qed.

Lemma chain_first h p l : chain h p l → p = first l.
Proof. unfold chain. by inversion 1. Qed.

Lemma seg_allocated h p l q a : seg h p l q → a ∈ l → is_Some (h !! a).
Proof.
  induction 1 as [|p n l q Hp _ IH]; [by intros ?%elem_of_nil|].
  intros [->|?]%elem_of_cons; eauto.
Qed.

Lemma seg_ext h h' p l q :
  (∀ a, a ∈ l → next <$> (h' !! a) = next <$> (h !! a)) →
  seg h p l q → seg h' p l q.
Proof.
  intros Hext Hseg. induction Hseg as [|p n l q Hp _ IH]; [constructor|].
  assert (Hp' : next <$> (h' !! p) = Some (next n)).
  { rewrite Hext; [by rewrite Hp|by left]. }
  destruct (h' !! p) as [n'|] eqn:E; [|done].
  simpl in Hp'. injection Hp' as Hn.
  econstructor; [exact E|]. rewrite Hn. apply IH.
  intros a Ha. apply Hext. by right.
Qed.

Lemma chain_det h p l1 l2 : chain h p l1 → chain h p l2 → l1 = l2.
Proof.
  unfold chain. intros H1. revert l2.
  remember None as r eqn:Hr.
  induction H1 as [|p n l q Hp _ IH]; intros l2 H2; subst.
  - by inversion H2.
  - inversion H2; simplify_eq. f_equal. by apply IH.
Qed.

Lemma chain_NoDup h p l : chain h p l → NoDup l.
Proof.
  unfold chain. remember None as r eqn:Hr.
  induction 1 as [|p n l q Hp Hrest IH]; subst; [constructor|].
  constructor; [|by apply IH].
  intros (la & lb & ->)%list_elem_of_split.
  assert (Hall : chain h (Some p) (p :: la ++ p :: lb)) by (by econstructor).
  apply seg_app_inv in Hrest as (q & _ & Hq).
  assert (q = Some p) as -> by (by inversion Hq).
  pose proof (chain_det _ _ _ _ Hall Hq) as Heq.
  apply (f_equal List.length) in Heq. simpl in Heq.
  rewrite length_app in Heq. simpl in Heq. lia.
Qed.

(** ** The hazard table *)

Lemma in_table_0 t : in_range t → in_table t 0 = true.
Proof.
  unfold in_range, in_table, MAX_THREADS, ACCESSED_PTRS_PER_THREAD. intros ?.
  rewrite !andb_true_iff, !Z.leb_le, !Z.ltb_lt. lia.
Qed.

Lemma in_table_1 t : in_range t → in_table t 1 = true.
Proof.
  unfold in_range, in_table, MAX_THREADS, ACCESSED_PTRS_PER_THREAD. intros ?.
  rewrite !andb_true_iff, !Z.leb_le, !Z.ltb_lt. lia.
Qed.

Lemma in_table_out t i : ¬ in_range t → in_table t i = false.
Proof.
  unfold in_range, in_table, MAX_THREADS. intros ?.
  destruct (Z.leb_spec 0 t); [|done].
  destruct (Z.ltb_spec t 8); [|done]. lia.
Qed.

Lemma shape_publish T t i p : shape T → shape (publish T t i p).
Proof.
  intros [Hlen Hrows]. split; unfold publish.
  - by rewrite length_alter.
  - apply Forall_lookup. intros k r.
    destruct (decide (k = Z.to_nat t)) as [->|Hne].
    + rewrite list_lookup_alter_eq. intros Hr.
      destruct (T !! Z.to_nat t) as [r0|] eqn:E; simplify_eq/=.
      rewrite length_insert. eapply Forall_lookup in Hrows; eauto.
    + rewrite list_lookup_alter_ne by done. intros Hr.
      eapply Forall_lookup in Hrows; eauto.
Qed.

Lemma row_publish T t i p :
  row (publish T t i p) t = <[Z.to_nat i := p]> (row T t).
Proof.
  unfold row, publish. rewrite list_lookup_alter_eq.
  by destruct (T !! Z.to_nat t).
Qed.

Lemma row_length T t : shape T → in_range t → List.length (row T t) = 2%nat.
Proof.
  intros [Hlen Hrows] Ht. unfold row.
  destruct (T !! Z.to_nat t) as [r|] eqn:E.
  - eapply Forall_lookup in Hrows; eauto.
  - apply lookup_ge_None in E. unfold in_range, MAX_THREADS in *. lia.
Qed.

Lemma others_eq_refl t T : others_eq t T T.
Proof. by intros k _. Qed.

Lemma others_eq_publish t T T' i p :
  others_eq t T T' → others_eq t T (publish T' t i p).
Proof.
  intros H k Hk. unfold publish. rewrite list_lookup_alter_ne by done. by apply H.
Qed.

Lemma row_slot0 T t p :
  shape T → in_range t → Some p ∈ row (publish T t 0 (Some p)) t.
Proof.
  intros HT Ht. rewrite row_publish. apply list_elem_of_lookup. exists 0%nat.
  apply list_lookup_insert_eq. rewrite row_length by done. simpl. lia.
Qed.

(** ** The unlocked walk *)

Lemma set_accessedPointers_id s : set_accessedPointers (accessedPointers s) s = s.
Proof. by destruct s. Qed.

Lemma last_cons_default (c : addr) l d : List.last (c :: l) d = List.last l c.
Proof.
  revert c d. induction l as [|a l IH]; intros c d; [done|].
  change (List.last (a :: l) d = List.last (a :: l) c). by rewrite !IH.
Qed.

Lemma wp_traverse h val t hd : in_range t →
  ∀ l fuel pred curr s (Q : addr * option addr → state → list event → Prop),
  heap s = h → chain h curr l → (List.length l < fuel)%nat →
  shape (accessedPointers s) →
  (∀ c, curr = Some c → Some c ∈ row (accessedPointers s) t) →
  (∀ l1 l2 T' tr,
      l = l1 ++ l2 →
      Forall (λ a, (key h a < val)%Z) l1 →
      (∀ c, first l2 = Some c → (val ≤ key h c)%Z) →
      shape T' → others_eq t (accessedPointers s) T' →
      (∀ c, first l2 = Some c → Some c ∈ row T' t) →
      (l1 ≠ [] ∨ Some pred ∈ row (accessedPointers s) t →
       Some (List.last l1 pred) ∈ row T' t) →
      Forall (λ e, protected hd t e ∧ e ≠ EvReclaim) tr →
      Q (List.last l1 pred, first l2) (set_accessedPointers T' s) tr) →
  wp (traverse fuel val t pred curr) s Q.
Proof.
  intros Ht. induction l as [|c l IH]; intros fuel pred curr s Q Hh Hch Hfuel HT Hpub HQ;
    (destruct fuel as [|fuel]; [simpl in Hfuel; lia|]);
    pose proof (chain_first _ _ _ Hch) as ->; simpl.
  - apply wp_ret. specialize (HQ [] [] (accessedPointers s) []).
    rewrite set_accessedPointers_id in HQ. apply HQ; try done.
    by intros [?|?].
  - inversion Hch as [|c' n l' q' Hc Hrest]; subst.
    apply wp_bind. eapply wp_load; [done|].
    assert (Hkey : key (heap s) c = value n) by (unfold key; by rewrite Hc).
    destruct (Z.ltb_spec (value n) val) as [Hlt|Hge].
    + apply wp_bind, wp_storeAccessedPointer; [by apply in_table_0|].
      apply wp_bind. eapply wp_load; [done|].
      apply wp_bind, wp_storeAccessedPointer; [by apply in_table_1|].
      apply wp_bind. eapply wp_load; [done|].
      simpl accessedPointers.
      set (T1 := publish (accessedPointers s) t 0 (Some c)).
      set (T2 := publish T1 t 1 (next n)).
      assert (HT1 : shape T1) by by apply shape_publish.
      assert (HT2 : shape T2) by by apply shape_publish.
      assert (Hc1 : Some c ∈ row T1 t) by by apply row_slot0.
      assert (Hc2 : Some c ∈ row T2 t).
      { unfold T2. rewrite row_publish. apply list_elem_of_lookup. exists 0%nat.
        rewrite list_lookup_insert_ne by done. unfold T1. rewrite row_publish.
        apply list_lookup_insert_eq. rewrite row_length by done. lia. }
      eapply (IH fuel c (next n)
                (set_accessedPointers T2
                   (set_accessedPointers T1 s))); try done.
      * simpl in Hfuel. lia.
      * intros c' Hc'. simpl. unfold T2. rewrite row_publish, Hc'.
        apply list_elem_of_lookup. exists 1%nat.
        apply list_lookup_insert_eq. rewrite row_length by done. lia.
      * intros l1 l2 T' tr -> Hl1 Hl2 HT' Hoth Hfirst Hlast Htr.
        simpl in Hoth.
        assert (Hgoal := HQ (c :: l1) l2 T' 
          ([EvAccess c (accessedPointers s)] ++ [EvStore t 0 (Some c)] ++
           [EvAccess c T1] ++ [EvStore t 1 (next n)] ++ [EvAccess c T2] ++ tr)).
        rewrite last_cons_default in Hgoal. apply Hgoal; try done.
        -- constructor; [lia|done].
        -- intros k Hk. rewrite Hoth by done. unfold T2, T1, publish.
           by rewrite !list_lookup_alter_ne.
        -- intros _. apply Hlast. by right.
        -- simpl. constructor; [split; [right; by apply Hpub|done]|].
           constructor; [done|]. constructor; [split; [by right|done]|].
           constructor; [done|]. constructor; [split; [by right|done]|]. done.
    + apply wp_ret. specialize (HQ [] (c :: l) (accessedPointers s) [EvAccess c (accessedPointers s)]).
      rewrite set_accessedPointers_id in HQ. apply HQ; try done.
      * intros ? [= <-]. lia.
      * by intros [?|?].
      * constructor; [|done]. split; [|done]. right. by apply Hpub.
Qed.

(** ** Hazard slots after a reset *)

Lemma cleared_publish T0 T t :
  in_range t → shape T0 → shape T → others_eq t T0 T →
  publish (publish T t 0 None) t 1 None = cleared T0 t.
Proof.
  intros Ht HT0 HT Hoth. apply list_eq. intros k. unfold cleared.
  destruct (decide (k = Z.to_nat t)) as [->|Hne].
  - rewrite list_lookup_insert_eq
      by (destruct HT0 as [-> _]; unfold in_range in Ht; lia).
    pose proof (row_length T t HT Ht) as Hlen. unfold row in Hlen.
    unfold publish. rewrite !list_lookup_alter_eq.
    destruct (T !! Z.to_nat t) as [r|]; [|done].
    simpl in *. by destruct r as [|? [|? [|]]].
  - rewrite list_lookup_insert_ne by done. unfold publish.
    rewrite !list_lookup_alter_ne by done. by apply Hoth.
Qed.

Lemma shape_cleared T t : shape T → shape (cleared T t).
Proof.
  intros [Hlen Hrows]. split; unfold cleared.
  - by rewrite length_insert.
  - apply Forall_insert; [done|]. by rewrite length_replicate.
Qed.

Lemma wp_resetAccessedPointer t s (Q : unit → state → list event → Prop) :
  in_range t →
  Q tt (set_accessedPointers
          (publish (publish (accessedPointers s) t 0 None) t 1 None) s)
       [EvStore t 0 None; EvStore t 1 None] →
  wp (resetAccessedPointer t) s Q.
Proof.
  intros Ht HQ. unfold resetAccessedPointer.
  change (seqZ 0 ACCESSED_PTRS_PER_THREAD) with [0; 1]%Z. simpl.
  apply wp_bind, wp_storeAccessedPointer; [by apply in_table_0|].
  apply wp_bind, wp_storeAccessedPointer; [by apply in_table_1|].
  by apply wp_ret.
Qed.

(** ** The reclaim pass *)

Lemma lookup_free_all l h a :
  free_all l h !! a = if decide (a ∈ l) then None else h !! a.
Proof.
  revert h. induction l as [|b l IH]; intros h; simpl.
  - destruct (decide (a ∈ [])) as [Hin|_]; [by apply elem_of_nil in Hin|done].
  - rewrite IH. destruct (decide (a ∈ l)) as [Hin|Hnin].
    + destruct (decide (a ∈ b :: l)) as [_|Hn]; [done|]. destruct Hn. by right.
    + destruct (decide (a = b)) as [->|Hne].
      * rewrite lookup_delete_eq.
        destruct (decide (b ∈ b :: l)) as [_|Hn]; [done|]. destruct Hn. by left.
      * rewrite lookup_delete_ne by done.
        destruct (decide (a ∈ b :: l)) as [[?|?]%elem_of_cons|_]; done.
Qed.

Lemma wp_reclaim_loop l : ∀ acc s (Q : list addr → state → list event → Prop),
  NoDup l → (∀ a, a ∈ l → is_Some (heap s !! a)) →
  Q (acc ++ kept (accessedPointers s) l)
    (set_heap (free_all (freed (accessedPointers s) l) (heap s)) s)
    (EvDelete <$> freed (accessedPointers s) l) →
  wp (reclaim_loop l acc) s Q.
Proof.
  induction l as [|a l IH]; intros acc s Q Hnd Halloc HQ; simpl.
  - apply wp_ret. unfold kept, freed in HQ. simpl in HQ.
    rewrite app_nil_r in HQ. by destruct s.
  - apply NoDup_cons in Hnd as [Ha Hnd].
    apply wp_bind, wp_gets.
    unfold kept, freed in HQ. rewrite !filter_cons in HQ.
    destruct (hazarded a (accessedPointers s)) eqn:E; simpl.
    + rewrite decide_True in HQ by done. rewrite decide_False in HQ by (by intros []).
      apply IH; [done|intros; apply Halloc; by right|].
      by rewrite <-app_assoc.
    + rewrite decide_False in HQ by done. rewrite decide_True in HQ by done.
      apply wp_bind, wp_delete_Node; [apply Halloc; by left|].
      apply IH; [done| |done].
      intros b Hb. simpl. rewrite lookup_delete_ne by (by intros ->).
      apply Halloc. by right.
Qed.

Lemma wp_scanAndReclaim s (Q : unit → state → list event → Prop) :
  NoDup (retireList s) → (∀ a, a ∈ retireList s → is_Some (heap s !! a)) →
  Q tt (reclaimed s)
    (EvReclaim :: (EvDelete <$> freed (accessedPointers s) (retireList s))) →
  wp scanAndReclaim s Q.
Proof.
  intros Hnd Halloc HQ. unfold scanAndReclaim.
  apply wp_bind. unfold wp at 1. apply wp_bind, wp_gets.
  apply wp_bind, wp_reclaim_loop; [done..|].
  apply wp_modify. simpl. by rewrite app_nil_r.
Qed.

(** ** The representation invariant *)

Lemma chain_length h p l : chain h p l → (List.length l ≤ size h)%nat.
Proof.
  intros Hch. pose proof (chain_NoDup _ _ _ Hch) as Hnd.
  rewrite <-(size_list_to_set (C := gset addr) l) by done.
  rewrite <-(size_dom (D := gset addr) h). apply subseteq_size.
  intros a Ha%elem_of_list_to_set. apply elem_of_dom.
  eapply seg_allocated; eauto.
Qed.

Lemma wf_fuel s l : wf s l → (List.length l < size (heap s))%nat.
Proof. intros [Hch _ _ _ _ _ _]. apply chain_length in Hch. simpl in Hch. lia. Qed.

Lemma wf_head s l : wf s l → ∃ nh, heap s !! head s = Some nh ∧ chain (heap s) (next nh) l.
Proof. intros [Hch _ _ _ _ _ _]. inversion Hch; subst. eauto. Qed.

Lemma wf_fresh s l : wf s l → heap s !! brk s = None.
Proof.
  intros Hwf. destruct (heap s !! brk s) eqn:E; [|done].
  assert (brk s < brk s)%positive by (eapply wf_brk; eauto). lia.
Qed.

Lemma last_snoc_split (hd : addr) l1 :
  ∃ L0, hd :: l1 = L0 ++ [List.last l1 hd].
Proof.
  revert hd. induction l1 as [|a l1 IH]; intros hd.
  - by exists [].
  - destruct (IH a) as [L0 HL0]. exists (hd :: L0).
    rewrite last_cons_default. simpl. by rewrite HL0.
Qed.

(** Where the walk stops: the chain splits at [pred], whose successor is the
    first node of the rest. *)
Lemma chain_split h hd l1 l2 :
  chain h (Some hd) (hd :: l1 ++ l2) →
  ∃ L0 np, hd :: l1 = L0 ++ [List.last l1 hd] ∧
    seg h (Some hd) L0 (Some (List.last l1 hd)) ∧
    h !! List.last l1 hd = Some np ∧ next np = first l2 ∧
    chain h (first l2) l2.
Proof.
  intros Hch. destruct (last_snoc_split hd l1) as [L0 HL0].
  change (hd :: l1 ++ l2) with ((hd :: l1) ++ l2) in Hch. rewrite HL0 in Hch.
  apply seg_app_inv in Hch as (q & H1 & H2).
  apply seg_snoc_inv in H1 as (np & H1 & Hnp & Hnext). subst q.
  exists L0, np. repeat split; try done.
  - by rewrite <-(chain_first _ _ _ H2).
  - by rewrite <-(chain_first _ _ _ H2).
Qed.

(** ** The reclamation trigger *)

Lemma wp_bump_and_reclaim s (Q : unit → state → list event → Prop) :
  NoDup (retireList s) → (∀ a, a ∈ retireList s → is_Some (heap s !! a)) →
  Q tt (bumped s)
    (if fires s
     then EvReclaim :: (EvDelete <$> freed (accessedPointers s) (retireList s))
     else []) →
  wp bump_and_reclaim s Q.
Proof.
  intros Hnd Halloc HQ. unfold bump_and_reclaim.
  apply wp_bind. unfold wp at 1. simpl.
  apply wp_bind, wp_gets. simpl.
  unfold bumped, fires in HQ.
  destruct (wrap_int (operationCounter s + 1) >=? length s)%Z.
  - apply wp_bind, wp_scanAndReclaim; [done..|].
    apply wp_bind, wp_gets. apply wp_bind. unfold wp at 1. simpl.
    apply wp_ret. simpl. rewrite app_nil_r. exact HQ.
  - by apply wp_ret.
Qed.

Lemma wp_validate pred curr np s (Q : bool → state → list event → Prop) :
  heap s !! pred = Some np → removed np = false → next np = curr →
  (∀ c, curr = Some c → ∃ nc, heap s !! c = Some nc ∧ removed nc = false) →
  (∀ tr,
     Forall (λ e, e = EvAccess pred (accessedPointers s) ∨
                  ∃ c, curr = Some c ∧ e = EvAccess c (accessedPointers s)) tr →
     Q true s tr) →
  wp (validate pred curr) s Q.
Proof.
  intros Hp Hlive Hnext Hcurr HQ. unfold validate.
  apply wp_bind. eapply wp_load; [done|]. rewrite Hlive.
  apply wp_bind. destruct curr as [c|].
  - destruct (Hcurr c eq_refl) as (nc & Hc & Hclive).
    apply wp_bind. eapply wp_load; [done|]. apply wp_ret. rewrite Hclive.
    apply wp_bind. eapply wp_load; [done|]. apply wp_ret.
    rewrite bool_decide_eq_true_2 by done. apply HQ. simpl.
    constructor; [by left|]. constructor; [right; eauto|].
    constructor; [by left|]. constructor.
  - apply wp_ret. apply wp_bind. eapply wp_load; [done|]. apply wp_ret.
    rewrite bool_decide_eq_true_2 by done. apply HQ. simpl.
    constructor; [by left|]. constructor; [by left|]. constructor.
Qed.

(** ** Facts about traces *)

Lemma Forall_not_reclaim (P : event → Prop) tr :
  Forall P tr → (∀ e, P e → e ≠ EvReclaim) → EvReclaim ∉ tr.
Proof.
  intros HP Hne Hin. eapply Forall_forall in HP; [|exact Hin]. by apply Hne in HP.
Qed.

Lemma protected_deletes hd t (l : list addr) :
  Forall (protected hd t) (EvDelete <$> l).
Proof. apply Forall_fmap, Forall_true. by intros a. Qed.

Lemma protected_bump hd t (b : bool) (l : list addr) :
  Forall (protected hd t) (if b then EvReclaim :: (EvDelete <$> l) else []).
Proof. destruct b; [|constructor]. constructor; [done|apply protected_deletes]. Qed.

Lemma reclaim_in_bump (b : bool) (l : list addr) :
  EvReclaim ∈ (if b then EvReclaim :: (EvDelete <$> l) else []) ↔ b = true.
Proof.
  destruct b; split; try done.
  - intros _. by left.
  - by intros ?%elem_of_nil.
Qed.

Lemma elem_of_cons_ne (e x : event) tr : e ≠ x → e ∈ x :: tr ↔ e ∈ tr.
Proof. rewrite elem_of_cons. naive_solver. Qed.

Lemma elem_of_app_notin (e : event) tr1 tr2 : e ∉ tr1 → e ∈ tr1 ++ tr2 ↔ e ∈ tr2.
Proof. rewrite elem_of_app. naive_solver. Qed.

Ltac skip_silent :=
  rewrite ?app_nil_r, <-?app_assoc; simpl;
  repeat first [ rewrite elem_of_cons_ne by done
               | rewrite elem_of_app_notin by done ].

(** ** insert *)

Lemma others_eq_trans t T1 T2 T3 :
  others_eq t T1 T2 → others_eq t T2 T3 → others_eq t T1 T3.
Proof. intros H12 H23 k Hk. rewrite H23, H12; done. Qed.

Lemma wf_pred_in s l l1 l2 :
  l = l1 ++ l2 → List.last l1 (head s) ∈ head s :: l.
Proof.
  intros ->. destruct (last_snoc_split (head s) l1) as [L0 HL0].
  change (head s :: l1 ++ l2) with ((head s :: l1) ++ l2). rewrite HL0.
  rewrite !elem_of_app. left. right. by left.
Qed.

Lemma first_in (l : list addr) c : first l = Some c → c ∈ l.
Proof. destruct l; intros [= ->]. by left. Qed.

Lemma wp_insert s l val t :
  wf s l → in_range t →
  wp (insert val t) s (λ _ s' tr,
    ∃ l1 l2 np,
      l = l1 ++ l2 ∧
      Forall (λ a, (key (heap s) a < val)%Z) l1 ∧
      (∀ c, first l2 = Some c → (val ≤ key (heap s) c)%Z) ∧
      heap s !! List.last l1 (head s) = Some np ∧
      next np = first l2 ∧
      s' = bumped (linked s (List.last l1 (head s)) np (first l2) val t) ∧
      Forall (protected (head s) t) tr ∧
      (EvReclaim ∈ tr ↔
       fires (linked s (List.last l1 (head s)) np (first l2) val t) = true)).
Proof.
  intros Hwf Ht. pose proof (wf_fuel _ _ Hwf) as Hfuel.
  destruct (wf_head _ _ Hwf) as (nh & Hhd & Hrest).
  unfold insert. apply wp_bind, wp_gets.
  change (fuel_of s) with (S (size (heap s))) at 1.
  assert (Hfuel' : (List.length l < fuel_of s)%nat) by (unfold fuel_of; lia).
  generalize dependent (fuel_of s). intros fuel Hfuel'.
  cbn [insert_loop]. unfold insert_attempt, insert_first_hazard.
  apply wp_bind, wp_bind, wp_bind, wp_gets.
  apply wp_bind. eapply wp_load; [done|].
  apply wp_bind, wp_storeAccessedPointer; [by apply in_table_0|].
  apply wp_ret. unfold insert_after_first_hazard.
  apply wp_bind. eapply wp_load; [done|].
  set (T1 := publish (accessedPointers s) t 0 (next nh)).
  assert (HT1 : shape T1) by (apply shape_publish, Hwf).
  apply wp_bind.
  eapply (wp_traverse (heap s) val t (head s) Ht l fuel (head s) (next nh));
    try done.
  { intros c Hc. simpl. unfold T1. rewrite Hc. apply row_slot0; [apply Hwf|done]. }
  intros l1 l2 T' tr1 Hl Hl1 Hl2 HT' Hoth Hfirst Hlast Htr1. simpl in Hoth.
  pose proof (wf_chain _ _ Hwf) as Hch. rewrite Hl in Hch.
  apply chain_split in Hch as (L0 & np & HL0 & Hseg & Hnp & Hnext & Hch2).
  set (pred := List.last l1 (head s)) in *.
  assert (Hpredin : pred ∈ head s :: l) by (by apply (wf_pred_in s l l1 l2)).
  assert (Hplive : removed np = false) by (eapply wf_live; eauto).
  assert (Hcurr : ∀ c, first l2 = Some c →
            ∃ nc, heap s !! c = Some nc ∧ removed nc = false).
  { intros c Hc. apply first_in in Hc.
    assert (Hcin : c ∈ head s :: l) by (rewrite Hl; right; apply elem_of_app; by right).
    destruct (seg_allocated _ _ _ _ c (wf_chain _ _ Hwf) Hcin) as [nc Hnc].
    exists nc. split; [done|]. eapply wf_live; eauto. }
  assert (Hpprot : pred = head s ∨ Some pred ∈ row T' t).
  { destruct l1 as [|a l1]; [by left|]. right. apply Hlast. by left. }
  assert (Hfresh : heap s !! brk s = None) by (by eapply wf_fresh).
  assert (Hpb : pred ≠ brk s) by (intros E; rewrite E in Hnp; congruence).
  apply wp_bind, wp_lock; [by eexists|].
  apply wp_bind with (m := lock_if (first l2)).
  apply wp_mono with (Q := λ _ s' tr, s' = set_accessedPointers T' (set_accessedPointers T1 s)
                             ∧ (EvReclaim ∉ tr) ∧ Forall (protected (head s) t) tr).
  { destruct (first l2) as [c|] eqn:Ec; simpl.
    - destruct (Hcurr c eq_refl) as (nc & Hnc & _).
      apply wp_lock; [by eexists|]. split; [done|]. split; [|by repeat constructor].
      by intros [?|?%elem_of_nil]%elem_of_cons.
    - apply wp_ret. split; [done|]. split; [apply not_elem_of_nil|constructor]. }
  intros _ ? trl (-> & Hsil_l & Hprot_l).
  apply wp_bind. eapply wp_validate; [done..|].
  intros trv Htrv. simpl in Htrv. cbn [negb].
  apply wp_bind. unfold wp at 1. simpl.
  apply wp_bind. eapply wp_store; [simpl; by rewrite lookup_insert_ne|]. simpl.
  apply wp_bind with (m := unlock_if (first l2)).
  match goal with |- wp _ ?σ _ =>
    apply wp_mono with (Q := λ _ s' tr, s' = σ
                             ∧ (EvReclaim ∉ tr) ∧ Forall (protected (head s) t) tr) end.
  { destruct (first l2) as [c|] eqn:Ec; simpl.
    - destruct (Hcurr c eq_refl) as (nc & Hnc & _).
      apply wp_unlock.
      + simpl. destruct (decide (c = pred)) as [->|?];
          [rewrite lookup_insert_eq|rewrite lookup_insert_ne by done]; [by eexists|].
        rewrite lookup_insert_ne by (intros E; rewrite <-E in Hnc; congruence).
        by eexists.
      + split; [done|]. split; [|by repeat constructor].
        by intros [?|?%elem_of_nil]%elem_of_cons.
    - apply wp_ret. split; [done|]. split; [apply not_elem_of_nil|constructor]. }
  intros _ ? tru (-> & Hsil_u & Hprot_u).
  apply wp_bind, wp_unlock; [simpl; rewrite lookup_insert_eq; by eexists|].
  apply wp_bind, wp_resetAccessedPointer; [done|]. simpl.
  rewrite (cleared_publish (accessedPointers s) T' t Ht (wf_shape _ _ Hwf) HT')
    by (eapply others_eq_trans; [|exact Hoth]; apply others_eq_publish, others_eq_refl).
  apply wp_bind. unfold wp at 1. simpl.
  apply wp_bind.
  match goal with |- wp bump_and_reclaim ?σ _ =>
    change σ with (linked s pred np (first l2) val t) end.
  apply wp_bump_and_reclaim.
  { simpl. apply Hwf. }
  { simpl. intros a Ha. destruct (wf_retired _ _ Hwf a Ha) as (n & Hn & _).
    destruct (decide (a = pred)) as [->|?];
      [rewrite lookup_insert_eq|rewrite lookup_insert_ne by done]; [by eexists|].
    rewrite lookup_insert_ne by (intros E; rewrite <-E in Hn; congruence).
    by eexists. }
  assert (Hprot_v : Forall (protected (head s) t) trv).
  { eapply Forall_impl; [exact Htrv|]. intros e [->|(c & Hc & ->)]; simpl; auto. }
  assert (Hsil_1 : EvReclaim ∉ tr1).
  { eapply Forall_not_reclaim; [exact Htr1|]. by intros e [_ ?]. }
  assert (Hsil_v : EvReclaim ∉ trv).
  { eapply Forall_not_reclaim; [exact Htrv|]. by intros e [->|(c & _ & ->)]. }
  apply wp_ret. apply wp_ret.
  exists l1, l2, np. repeat (split; [done|]). split.
  - simpl. repeat first [apply Forall_cons_2 | apply Forall_app_2];
      try done; try (left; done); try apply protected_bump.
    eapply Forall_impl; [exact Htr1|]. by intros e [? _].
  - simpl. skip_silent. apply reclaim_in_bump.
Qed.

(** ** The invariant is kept: reclaim pass and trigger *)

Lemma wf_not_retired s l a : wf s l → a ∈ head s :: l → a ∉ retireList s.
Proof.
  intros Hwf Hin Hret.
  destruct (wf_retired _ _ Hwf a Hret) as (n & Hn & Hrem).
  rewrite (wf_live _ _ Hwf a n Hin Hn) in Hrem. done.
Qed.

Lemma lookup_reclaimed_chain s l a :
  wf s l → a ∈ head s :: l → heap (reclaimed s) !! a = heap s !! a.
Proof.
  intros Hwf Hin. simpl. rewrite lookup_free_all.
  destruct (decide _) as [[_ Hret]%list_elem_of_filter|]; [|done].
  by eapply wf_not_retired in Hret.
Qed.

Lemma wf_reclaimed s l : wf s l → wf (reclaimed s) l.
Proof.
  intros Hwf. split; simpl.
  - eapply seg_ext; [|apply Hwf]. intros a Ha.
    by rewrite <-(lookup_reclaimed_chain s l a Hwf Ha).
  - intros a n Ha Hn.
    pose proof (lookup_reclaimed_chain s l a Hwf Ha) as E. simpl in E.
    rewrite E in Hn. by eapply wf_live.
  - intros a [Hhz Ha]%list_elem_of_filter.
    destruct (wf_retired _ _ Hwf a Ha) as (n & Hn & Hrem).
    exists n. split; [|done]. rewrite lookup_free_all.
    destruct (decide _) as [[Hnhz _]%list_elem_of_filter|]; done.
  - apply NoDup_filter, Hwf.
  - intros a [n Hn]. rewrite lookup_free_all in Hn.
    destruct (decide _) as [|Hnf]; [done|].
    destruct (wf_owned _ _ Hwf a) as [?|Hret]; [by eexists|by left|].
    right. apply list_elem_of_filter. split; [|done].
    destruct (hazarded a (accessedPointers s)) eqn:E; [done|].
    destruct Hnf. apply list_elem_of_filter. split; [|done]. by rewrite E.
  - intros a [n Hn]. rewrite lookup_free_all in Hn.
    destruct (decide _); [done|]. apply Hwf. by eexists.
  - apply Hwf.
Qed.

Lemma wf_set_operationCounter s l z : wf s l → wf (set_operationCounter z s) l.
Proof. intros []. by split. Qed.

Lemma wf_bumped s l : wf s l → wf (bumped s) l.
Proof.
  intros Hwf. unfold bumped. destruct (fires s);
    apply wf_set_operationCounter; [by apply wf_reclaimed|done].
Qed.

Lemma lookup_bumped_chain s l a :
  wf s l → a ∈ head s :: l → heap (bumped s) !! a = heap s !! a.
Proof.
  intros Hwf Hin. unfold bumped. destruct (fires s); [|done].
  by apply (lookup_reclaimed_chain s l).
Qed.

Lemma keys_ext h h' (l : list addr) :
  (∀ a, a ∈ l → h' !! a = h !! a) → keys h' l = keys h l.
Proof.
  intros Hext. unfold keys. apply list_fmap_ext. intros i a Ha.
  unfold key. rewrite Hext; [done|]. by eapply list_elem_of_lookup_2.
Qed.

Lemma keys_bumped s l : wf s l → keys (heap (bumped s)) l = keys (heap s) l.
Proof.
  intros Hwf. apply keys_ext. intros a Ha.
  apply (lookup_bumped_chain s l); [done|by right].
Qed.

(** ** The invariant is kept: linking a node *)

Section linking.
Context (s : state) (l l1 l2 : list addr) (np : Node) (val t : Z).
Context (Hwf : wf s l) (Hl : l = l1 ++ l2).
Let pred := List.last l1 (head s).
Context (Hnp : heap s !! pred = Some np) (Hnext : next np = first l2).
Let s' := linked s pred np (first l2) val t.

Lemma linked_fresh_notin a : a ∈ head s :: l → a ≠ brk s.
Proof.
  intros Ha ->. apply (seg_allocated _ _ _ _ _ (wf_chain _ _ Hwf)) in Ha.
  rewrite (wf_fresh _ _ Hwf) in Ha. by destruct Ha.
Qed.

Lemma lookup_linked_pred :
  heap s' !! pred = Some (set_next (Some (brk s)) np).
Proof. simpl. by rewrite lookup_insert_eq. Qed.

Lemma lookup_linked_new :
  heap s' !! brk s = Some (mkNode val (first l2) false).
Proof.
  simpl. rewrite lookup_insert_ne, lookup_insert_eq; [done|].
  apply linked_fresh_notin. subst pred. by apply (wf_pred_in s l l1 l2).
Qed.

Lemma lookup_linked_other a :
  a ≠ pred → a ≠ brk s → heap s' !! a = heap s !! a.
Proof. intros ??. simpl. by rewrite !lookup_insert_ne. Qed.

Lemma key_linked a : a ≠ brk s → key (heap s') a = key (heap s) a.
Proof.
  intros Hne. unfold key. destruct (decide (a = pred)) as [->|Hp].
  - by rewrite lookup_linked_pred, Hnp.
  - by rewrite lookup_linked_other.
Qed.

Lemma key_linked_new : key (heap s') (brk s) = val.
Proof. unfold key. by rewrite lookup_linked_new. Qed.

Lemma keys_linked :
  keys (heap s') (l1 ++ brk s :: l2) =
  keys (heap s) l1 ++ val :: keys (heap s) l2.
Proof.
  unfold keys. rewrite fmap_app, fmap_cons, key_linked_new. f_equal; [|f_equal].
  - apply list_fmap_ext. intros i a Ha. apply key_linked, linked_fresh_notin.
    right. rewrite Hl. apply elem_of_app. left. by eapply list_elem_of_lookup_2.
  - apply list_fmap_ext. intros i a Ha. apply key_linked, linked_fresh_notin.
    right. rewrite Hl. apply elem_of_app. right. by eapply list_elem_of_lookup_2.
Qed.

Lemma wf_linked : wf s' (l1 ++ brk s :: l2).
Proof.
  pose proof (wf_chain _ _ Hwf) as Hch.
  pose proof (chain_NoDup _ _ _ Hch) as Hnd.
  rewrite Hl in Hch, Hnd.
  destruct (chain_split _ _ _ _ Hch) as (L0 & np' & HL0 & Hseg & Hnp' & _ & Hch2).
  fold pred in HL0, Hseg, Hnp'.
  change (head s :: l1 ++ l2) with ((head s :: l1) ++ l2) in Hnd.
  rewrite HL0 in Hnd. apply NoDup_app in Hnd as (Hnd0 & Hdisj & Hnd2).
  apply NoDup_app in Hnd0 as (_ & Hdisj0 & _).
  assert (Hpredin : pred ∈ head s :: l) by (by apply (wf_pred_in s l l1 l2)).
  assert (HinL0 : ∀ a, a ∈ L0 → a ∈ head s :: l).
  { intros a Ha. rewrite Hl. change (head s :: l1 ++ l2) with ((head s :: l1) ++ l2).
    rewrite HL0, !elem_of_app. auto. }
  assert (Hinl2 : ∀ a, a ∈ l2 → a ∈ head s :: l).
  { intros a Ha. rewrite Hl. right. apply elem_of_app. by right. }
  split.
  - change (head s' :: l1 ++ brk s :: l2) with ((head s :: l1) ++ brk s :: l2).
    rewrite HL0, <-app_assoc. eapply seg_app.
    + eapply seg_ext; [|exact Hseg]. intros a Ha.
      rewrite lookup_linked_other; [done| |by apply linked_fresh_notin, HinL0].
      intros ->. apply (Hdisj0 _ Ha). by left.
    + simpl. econstructor; [apply lookup_linked_pred|]. simpl.
      econstructor; [apply lookup_linked_new|]. simpl.
      eapply seg_ext; [|exact Hch2]. intros a Ha.
      rewrite lookup_linked_other; [done| |by apply linked_fresh_notin, Hinl2].
      intros ->. eapply Hdisj; [|exact Ha]. apply elem_of_app. right. by left.
  - intros a n Ha Hn.
    destruct (decide (a = pred)) as [->|Hp].
    { rewrite lookup_linked_pred in Hn. injection Hn as <-. simpl.
      by eapply wf_live. }
    destruct (decide (a = brk s)) as [->|Hb].
    { rewrite lookup_linked_new in Hn. by injection Hn as <-. }
    rewrite lookup_linked_other in Hn by done.
    eapply wf_live; [exact Hwf| |exact Hn].
    rewrite Hl. change (head s' :: l1 ++ brk s :: l2) with (head s :: l1 ++ brk s :: l2) in Ha.
    rewrite elem_of_cons, elem_of_app, elem_of_cons in Ha.
    rewrite elem_of_cons, elem_of_app. naive_solver.
  - intros a Ha. change (retireList s') with (retireList s) in Ha.
    destruct (wf_retired _ _ Hwf a Ha) as (n & Hn & Hrem).
    exists n. split; [|done]. rewrite lookup_linked_other; [done| |].
    + intros ->. by eapply wf_not_retired in Ha.
    + intros E. rewrite E, (wf_fresh _ _ Hwf) in Hn. done.
  - apply Hwf.
  - intros a Ha. change (head s') with (head s). change (retireList s') with (retireList s).
    destruct (decide (a = pred)) as [->|Hp].
    { left. rewrite Hl in Hpredin.
      rewrite elem_of_cons, elem_of_app in Hpredin.
      rewrite elem_of_cons, elem_of_app, elem_of_cons. naive_solver. }
    destruct (decide (a = brk s)) as [->|Hb].
    { left. rewrite elem_of_cons, elem_of_app, elem_of_cons. naive_solver. }
    rewrite lookup_linked_other in Ha by done.
    destruct (wf_owned _ _ Hwf a Ha) as [Hin|?]; [|by right].
    left. rewrite Hl in Hin. rewrite elem_of_cons, elem_of_app in Hin.
    rewrite elem_of_cons, elem_of_app, elem_of_cons. naive_solver.
  - intros a Ha. change (brk s') with (Pos.succ (brk s)).
    destruct (decide (a = pred)) as [->|Hp].
    { assert (pred < brk s)%positive by (apply Hwf; by eexists). lia. }
    destruct (decide (a = brk s)) as [->|Hb]; [lia|].
    rewrite lookup_linked_other in Ha by done.
    assert (a < brk s)%positive by (by apply Hwf). lia.
  - apply shape_cleared, Hwf.
Qed.
End linking.

(** ** remove *)

Lemma wp_remove s l val t :
  wf s l → in_range t →
  wp (remove val t) s (λ b s' tr,
    ∃ l1 l2 np,
      l = l1 ++ l2 ∧
      Forall (λ a, (key (heap s) a < val)%Z) l1 ∧
      (∀ c, first l2 = Some c → (val ≤ key (heap s) c)%Z) ∧
      heap s !! List.last l1 (head s) = Some np ∧
      next np = first l2 ∧
      Forall (protected (head s) t) tr ∧
      match target (heap s) val l2 with
      | Some c =>
          ∃ nc, heap s !! c = Some nc ∧ b = true ∧
            s' = bumped (unlinked s (List.last l1 (head s)) np c nc t) ∧
            (EvReclaim ∈ tr ↔
             fires (unlinked s (List.last l1 (head s)) np c nc t) = true)
      | None =>
          b = false ∧
          s' = set_accessedPointers (cleared (accessedPointers s) t) s ∧
          EvReclaim ∉ tr
      end).
Proof.
  intros Hwf Ht. pose proof (wf_fuel _ _ Hwf) as Hfuel.
  destruct (wf_head _ _ Hwf) as (nh & Hhd & Hrest).
  unfold remove. apply wp_bind, wp_gets.
  change (fuel_of s) with (S (size (heap s))) at 1.
  assert (Hfuel' : (List.length l < fuel_of s)%nat) by (unfold fuel_of; lia).
  generalize dependent (fuel_of s). intros fuel Hfuel'.
  cbn [remove_loop].
  apply wp_bind, wp_gets.
  apply wp_bind. eapply wp_load; [done|].
  apply wp_bind. eapply wp_load; [done|].
  apply wp_bind, wp_storeAccessedPointer; [by apply in_table_0|].
  set (T1 := publish (accessedPointers s) t 0 (next nh)).
  assert (HT1 : shape T1) by (apply shape_publish, Hwf).
  apply wp_bind.
  eapply (wp_traverse (heap s) val t (head s) Ht l fuel (head s) (next nh));
    try done.
  { intros c Hc. simpl. unfold T1. rewrite Hc. apply row_slot0; [apply Hwf|done]. }
  intros l1 l2 T' tr1 Hl Hl1 Hl2 HT' Hoth Hfirst Hlast Htr1. simpl in Hoth.
  pose proof (wf_chain _ _ Hwf) as Hch.
  pose proof (chain_NoDup _ _ _ Hch) as Hnd.
  rewrite Hl in Hch.
  apply chain_split in Hch as (L0 & np & HL0 & Hseg & Hnp & Hnext & Hch2).
  set (pred := List.last l1 (head s)) in *.
  assert (Hpredin : pred ∈ head s :: l) by (by apply (wf_pred_in s l l1 l2)).
  assert (Hplive : removed np = false) by (eapply wf_live; eauto).
  assert (Hcurr : ∀ c, first l2 = Some c →
            ∃ nc, heap s !! c = Some nc ∧ removed nc = false).
  { intros c Hc. apply first_in in Hc.
    assert (Hcin : c ∈ head s :: l) by (rewrite Hl; right; apply elem_of_app; by right).
    destruct (seg_allocated _ _ _ _ c (wf_chain _ _ Hwf) Hcin) as [nc Hnc].
    exists nc. split; [done|]. eapply wf_live; eauto. }
  assert (Hpprot : pred = head s ∨ Some pred ∈ row T' t).
  { destruct l1 as [|a l1]; [by left|]. right. apply Hlast. by left. }
  assert (Htable : publish (publish T' t 0 None) t 1 None
                   = cleared (accessedPointers s) t).
  { apply cleared_publish; [done|apply Hwf|done|].
    eapply others_eq_trans; [|exact Hoth]. apply others_eq_publish, others_eq_refl. }
  apply wp_bind, wp_lock; [by eexists|].
  apply wp_bind with (m := lock_if (first l2)).
  apply wp_mono with (Q := λ _ s' tr,
     (s' = set_accessedPointers T' (set_accessedPointers T1 s)
      ∧ EvReclaim ∉ tr) ∧ Forall (protected (head s) t) tr).
  { destruct (first l2) as [c|] eqn:Ec; simpl.
    - destruct (Hcurr c eq_refl) as (nc & Hnc & _).
      apply wp_lock; [by eexists|]. split; [split; [done|]|by repeat constructor].
      by intros [?|?%elem_of_nil]%elem_of_cons.
    - apply wp_ret. split; [split; [done|apply not_elem_of_nil]|constructor]. }
  intros _ ? trl ((-> & Hsil_l) & Hprot_l).
  apply wp_bind. eapply wp_validate; [done..|].
  intros trv Htrv. simpl in Htrv. cbn [negb].
  assert (Hprot_v : Forall (protected (head s) t) trv).
  { eapply Forall_impl; [exact Htrv|]. intros e [->|(c & Hc & ->)]; simpl; auto. }
  assert (Hsil_1 : EvReclaim ∉ tr1).
  { eapply Forall_not_reclaim; [exact Htr1|]. by intros e [_ ?]. }
  assert (Hsil_v : EvReclaim ∉ trv).
  { eapply Forall_not_reclaim; [exact Htrv|]. by intros e [->|(c & _ & ->)]. }
  assert (Hprot_1 : Forall (protected (head s) t) tr1).
  { eapply Forall_impl; [exact Htr1|]. by intros e [? _]. }
  destruct l2 as [|c l2]; simpl first in *.
  - (* the walk reached the end of the chain *)
    apply wp_bind, wp_ret.
    apply wp_bind, wp_resetAccessedPointer; [done|]. simpl. rewrite Htable.
    apply wp_bind, wp_ret. apply wp_bind, wp_unlock; [by eexists|]. apply wp_ret.
    exists l1, [], np. repeat (split; [done|]). split; [|split; [done|split; [done|]]].
    + simpl. repeat first [apply Forall_cons_2 | apply Forall_app_2];
        try done; try (left; done).
    + simpl. skip_silent. apply not_elem_of_nil.
  - destruct (Hcurr c eq_refl) as (nc & Hnc & Hclive).
    assert (Hcprot : Some c ∈ row T' t) by (by apply Hfirst).
    assert (Hkey : key (heap s) c = value nc) by (unfold key; by rewrite Hnc).
    assert (Hcp : c ≠ pred).
    { intros ->. rewrite Hl in Hnd. change (head s :: l1 ++ pred :: l2)
        with ((head s :: l1) ++ pred :: l2) in Hnd. rewrite HL0 in Hnd.
      apply NoDup_app in Hnd as (_ & Hdisj & _).
      apply (Hdisj pred); [apply elem_of_app; right|]; by left. }
    apply wp_bind. apply wp_bind. eapply wp_load; [done|]. apply wp_ret.
    destruct (value nc =? val)%Z eqn:Eval.
    + (* found: mark, unlink, retire *)
      apply wp_bind. eapply wp_store; [done|]. simpl.
      apply wp_bind. eapply wp_load; [simpl; by rewrite lookup_insert_eq|]. simpl.
      apply wp_bind. eapply wp_store; [simpl; by rewrite lookup_insert_ne|]. simpl.
      apply wp_bind, wp_modify. simpl.
      apply wp_bind, wp_resetAccessedPointer; [done|]. simpl. rewrite Htable.
      apply wp_bind, wp_unlock.
      { simpl. rewrite lookup_insert_ne, lookup_insert_eq by done. by eexists. }
      apply wp_bind, wp_unlock.
      { simpl. rewrite lookup_insert_eq. by eexists. }
      apply wp_bind. unfold wp at 1. simpl.
      apply wp_bind.
      match goal with |- wp bump_and_reclaim ?σ _ =>
        change σ with (unlinked s pred np c nc t) end.
      apply wp_bump_and_reclaim.
      { simpl. apply NoDup_app. split; [apply Hwf|]. split; [|apply NoDup_singleton].
        intros a Ha ->%list_elem_of_singleton.
        eapply wf_not_retired; [exact Hwf| |exact Ha].
        rewrite Hl. right. apply elem_of_app. right. by left. }
      { simpl. intros a Ha.
        destruct (decide (a = pred)) as [->|?];
          [rewrite lookup_insert_eq|rewrite lookup_insert_ne by done]; [by eexists|].
        destruct (decide (a = c)) as [->|?];
          [rewrite lookup_insert_eq|rewrite lookup_insert_ne by done]; [by eexists|].
        apply elem_of_app in Ha as [Ha|Ha%list_elem_of_singleton]; [|done].
        destruct (wf_retired _ _ Hwf a Ha) as (na & Hna & _). by eexists. }
      apply wp_ret.
      exists l1, (c :: l2), np. repeat (split; [done|]).
      simpl target. rewrite Hkey, Eval.
      split; [|exists nc; split; [done|split; [done|split; [done|]]]].
      * simpl. repeat first [apply Forall_cons_2 | apply Forall_app_2];
          try done; try (left; done); try (right; done); try apply protected_bump.
      * simpl. rewrite app_nil_r. skip_silent. apply reclaim_in_bump.
    + (* the key is absent *)
      apply wp_bind, wp_resetAccessedPointer; [done|]. simpl. rewrite Htable.
      apply wp_bind, wp_unlock; [by eexists|].
      apply wp_bind, wp_unlock; [by eexists|]. apply wp_ret.
      exists l1, (c :: l2), np. repeat (split; [done|]).
      simpl target. rewrite Hkey, Eval.
      split; [|split; [done|split; [done|]]].
      * simpl. repeat first [apply Forall_cons_2 | apply Forall_app_2];
          try done; try (left; done); try (right; done).
      * simpl. skip_silent. apply not_elem_of_nil.
Qed.

(** ** The invariant is kept: unlinking a node *)

Lemma wf_set_cleared s l t :
  wf s l → wf (set_accessedPointers (cleared (accessedPointers s) t) s) l.
Proof. intros []. split; try done. by apply shape_cleared. Qed.

Section unlinking.
Context (s : state) (l l1 l3 : list addr) (c : addr) (np nc : Node) (t : Z).
Context (Hwf : wf s l) (Hl : l = l1 ++ c :: l3).
Let pred := List.last l1 (head s).
Context (Hnp : heap s !! pred = Some np) (Hnc : heap s !! c = Some nc).
Let s' := unlinked s pred np c nc t.

Lemma unlinked_facts :
  ∃ L0, head s :: l1 = L0 ++ [pred] ∧
    seg (heap s) (Some (head s)) L0 (Some pred) ∧
    chain (heap s) (next nc) l3 ∧
    c ≠ pred ∧ (c ∉ L0) ∧ (c ∉ l3) ∧ (pred ∉ L0) ∧ (pred ∉ l3).
Proof using Hwf Hl Hnc.
  clear s'.
  pose proof (wf_chain _ _ Hwf) as Hch.
  pose proof (chain_NoDup _ _ _ Hch) as Hnd.
  rewrite Hl in Hch, Hnd.
  destruct (chain_split _ _ _ _ Hch) as (L0 & np' & HL0 & Hseg & _ & _ & Hch2).
  fold pred in HL0, Hseg. exists L0.
  change (head s :: l1 ++ c :: l3) with ((head s :: l1) ++ c :: l3) in Hnd.
  rewrite HL0 in Hnd. apply NoDup_app in Hnd as (Hnd0 & Hdisj & Hnd2).
  apply NoDup_app in Hnd0 as (_ & Hdisj0 & _).
  apply NoDup_cons in Hnd2 as [Hc3 _].
  simpl in Hch2. inversion Hch2 as [|? n' ? ? Hc' Hrest]; subst.
  rewrite Hnc in Hc'. injection Hc' as <-.
  repeat split; try done.
  - intros ->. apply (Hdisj pred); [apply elem_of_app; right|]; by left.
  - intros Hin. apply (Hdisj c); [apply elem_of_app; by left|by left].
  - intros Hin. apply (Hdisj0 pred Hin). by left.
  - intros Hin. apply (Hdisj pred); [apply elem_of_app; right; by left|by right].
Qed.

Lemma lookup_unlinked_pred :
  heap s' !! pred = Some (set_next (next nc) np).
Proof. simpl. by rewrite lookup_insert_eq. Qed.

Lemma lookup_unlinked_target :
  heap s' !! c = Some (set_removed true nc).
Proof.
  destruct unlinked_facts as (_ & _ & _ & _ & Hcp & _).
  simpl. by rewrite lookup_insert_ne, lookup_insert_eq.
Qed.

Lemma lookup_unlinked_other a :
  a ≠ pred → a ≠ c → heap s' !! a = heap s !! a.
Proof. intros ??. simpl. by rewrite !lookup_insert_ne. Qed.

Lemma key_unlinked a : key (heap s') a = key (heap s) a.
Proof.
  unfold key. destruct (decide (a = pred)) as [->|Hp].
  { by rewrite lookup_unlinked_pred, Hnp. }
  destruct (decide (a = c)) as [->|Hc].
  { by rewrite lookup_unlinked_target, Hnc. }
  by rewrite lookup_unlinked_other.
Qed.

Lemma keys_unlinked l' : keys (heap s') l' = keys (heap s) l'.
Proof. unfold keys. apply list_fmap_ext. intros i a _. apply key_unlinked. Qed.

Lemma allocated_unlinked a : is_Some (heap s' !! a) ↔ is_Some (heap s !! a).
Proof.
  destruct (decide (a = pred)) as [->|Hp].
  { rewrite lookup_unlinked_pred, Hnp. split; by eexists. }
  destruct (decide (a = c)) as [->|Hc].
  { rewrite lookup_unlinked_target, Hnc. split; by eexists. }
  by rewrite lookup_unlinked_other.
Qed.

Lemma wf_unlinked : wf s' (l1 ++ l3).
Proof.
  destruct unlinked_facts
    as (L0 & HL0 & Hseg & Hch3 & Hcp & HcL0 & Hc3 & HpL0 & Hp3).
  assert (Hpredin : pred ∈ head s :: l) by (by apply (wf_pred_in s l l1 (c :: l3))).
  assert (Hcin : c ∈ head s :: l).
  { rewrite Hl. right. apply elem_of_app. right. by left. }
  assert (Hsub : ∀ a, a ∈ head s :: l1 ++ l3 → a ∈ head s :: l ∧ a ≠ c).
  { intros a Ha. change (head s :: l1 ++ l3) with ((head s :: l1) ++ l3) in Ha.
    rewrite Hl. change (head s :: l1 ++ c :: l3) with ((head s :: l1) ++ c :: l3).
    rewrite HL0 in *. apply elem_of_app in Ha as [Ha|Ha].
    - split; [apply elem_of_app; by left|]. intros ->.
      apply elem_of_app in Ha as [?|?%list_elem_of_singleton]; done.
    - split; [apply elem_of_app; right; by right|]. by intros ->. }
  split.
  - change (head s' :: l1 ++ l3) with ((head s :: l1) ++ l3).
    rewrite HL0, <-app_assoc. eapply seg_app.
    + eapply seg_ext; [|exact Hseg]. intros a Ha.
      rewrite lookup_unlinked_other; [done|by intros ->..].
    + simpl. econstructor; [apply lookup_unlinked_pred|]. simpl.
      eapply seg_ext; [|exact Hch3]. intros a Ha.
      rewrite lookup_unlinked_other; [done|by intros ->..].
  - intros a n Ha Hn. destruct (Hsub a Ha) as [Hin Hne].
    destruct (decide (a = pred)) as [->|Hp].
    { rewrite lookup_unlinked_pred in Hn. injection Hn as <-. simpl.
      by eapply wf_live. }
    rewrite lookup_unlinked_other in Hn by done. by eapply wf_live.
  - intros a [Ha| ->%list_elem_of_singleton]%elem_of_app.
    + destruct (wf_retired _ _ Hwf a Ha) as (n & Hn & Hrem).
      exists n. split; [|done]. rewrite lookup_unlinked_other; [done|..];
        intros ->; by eapply wf_not_retired in Ha.
    + exists (set_removed true nc). split; [apply lookup_unlinked_target|done].
  - apply NoDup_app. split; [apply Hwf|]. split; [|apply NoDup_singleton].
    intros a Ha ->%list_elem_of_singleton. by eapply wf_not_retired in Ha.
  - intros a Ha%allocated_unlinked.
    change (head s') with (head s). change (retireList s') with (retireList s ++ [c]).
    destruct (decide (a = c)) as [->|Hc].
    { right. apply elem_of_app. right. by left. }
    destruct (wf_owned _ _ Hwf a Ha) as [Hin|?]; [|right; apply elem_of_app; by left].
    left. rewrite Hl in Hin. rewrite elem_of_cons, elem_of_app, elem_of_cons in Hin.
    rewrite elem_of_cons, elem_of_app. naive_solver.
  - intros a Ha%allocated_unlinked. by apply Hwf.
  - apply shape_cleared, Hwf.
Qed.
End unlinking.

(** ** contains *)

Lemma wp_contains_loop h val t hd : in_range t →
  ∀ l fuel curr s (Q : option addr → state → list event → Prop),
  heap s = h → chain h curr l → (List.length l < fuel)%nat →
  shape (accessedPointers s) →
  row (accessedPointers s) t !! 0%nat = Some curr →
  (∀ l1 l2 T' tr,
      l = l1 ++ l2 →
      Forall (λ a, (key h a < val)%Z) l1 →
      (∀ c, first l2 = Some c → (val ≤ key h c)%Z) →
      shape T' → others_eq t (accessedPointers s) T' →
      row T' t !! 0%nat = Some (first l2) →
      Forall (λ e, protected0 hd t e ∧ e ≠ EvReclaim) tr →
      Q (first l2) (set_accessedPointers T' s) tr) →
  wp (contains_loop fuel val t curr) s Q.
Proof.
  intros Ht. induction l as [|c l IH]; intros fuel curr s Q Hh Hch Hfuel HT Hpub HQ;
    (destruct fuel as [|fuel]; [simpl in Hfuel; lia|]);
    pose proof (chain_first _ _ _ Hch) as ->; simpl.
  - apply wp_ret. specialize (HQ [] [] (accessedPointers s) []).
    rewrite set_accessedPointers_id in HQ. apply HQ; try done.
  - inversion Hch as [|c' n l' q' Hc Hrest]; subst.
    apply wp_bind. eapply wp_load; [done|].
    assert (Hkey : key (heap s) c = value n) by (unfold key; by rewrite Hc).
    destruct (Z.ltb_spec (value n) val) as [Hlt|Hge].
    + apply wp_bind. eapply wp_load; [done|].
      apply wp_bind, wp_storeAccessedPointer; [by apply in_table_0|].
      set (T1 := publish (accessedPointers s) t 0 (next n)).
      assert (HT1 : shape T1) by by apply shape_publish.
      eapply (IH fuel (next n) (set_accessedPointers T1 s)); try done.
      * simpl in Hfuel. lia.
      * simpl. unfold T1. rewrite row_publish.
        apply list_lookup_insert_eq. rewrite row_length by done. simpl. lia.
      * intros l1 l2 T' tr -> Hl1 Hl2 HT' Hoth Hslot Htr. simpl in Hoth.
        apply (HQ (c :: l1) l2 T'
          ([EvAccess c (accessedPointers s)] ++ [EvAccess c (accessedPointers s)] ++
           [EvStore t 0 (next n)] ++ tr)); try done.
        -- constructor; [lia|done].
        -- intros k Hk. rewrite Hoth by done. unfold T1, publish.
           by rewrite list_lookup_alter_ne.
        -- simpl. constructor; [split; [by right|done]|].
           constructor; [split; [by right|done]|]. by constructor.
    + apply wp_ret. specialize (HQ [] (c :: l) (accessedPointers s) [EvAccess c (accessedPointers s)]).
      rewrite set_accessedPointers_id in HQ. apply HQ; try done.
      * intros ? [= <-]. lia.
      * constructor; [|done]. split; [|done]. by right.
Qed.

Lemma stop_node_split h val l1 l2 :
  Forall (λ a, (key h a < val)%Z) l1 →
  (∀ c, first l2 = Some c → (val ≤ key h c)%Z) →
  stop_node h val (l1 ++ l2) = first l2.
Proof.
  intros Hl1 Hl2. unfold stop_node. induction Hl1 as [|a l1 Ha _ IH]; simpl.
  - destruct l2 as [|c l2]; [done|]. simpl.
    specialize (Hl2 c eq_refl). by destruct (Z.leb_spec val (key h c)); [|lia].
  - by destruct (Z.leb_spec val (key h a)); [lia|].
Qed.

Lemma wp_contains s l val t :
  chain (heap s) (Some (head s)) (head s :: l) →
  shape (accessedPointers s) → in_range t →
  wp (contains val t) s (λ b s' tr,
    b = holds (heap s) val (stop_node (heap s) val l) ∧
    s' = set_accessedPointers (cleared (accessedPointers s) t) s ∧
    Forall (protected0 (head s) t) tr ∧ EvReclaim ∉ tr).
Proof.
  intros Hch HT Ht.
  pose proof (chain_length _ _ _ Hch) as Hfuel. simpl in Hfuel.
  inversion Hch as [|? nh ? ? Hhd Hrest]; subst.
  unfold contains. apply wp_bind, wp_gets. apply wp_bind, wp_gets.
  apply wp_bind. eapply wp_load; [done|].
  apply wp_bind, wp_storeAccessedPointer; [by apply in_table_0|].
  set (T1 := publish (accessedPointers s) t 0 (next nh)).
  assert (HT1 : shape T1) by (by apply shape_publish).
  apply wp_bind.
  eapply (wp_contains_loop (heap s) val t (head s) Ht l (fuel_of s) (next nh));
    try done.
  { unfold fuel_of. lia. }
  { simpl. unfold T1. rewrite row_publish.
    apply list_lookup_insert_eq. rewrite row_length by done. simpl. lia. }
  intros l1 l2 T' tr1 Hl Hl1 Hl2 HT' Hoth Hslot Htr1. simpl in Hoth.
  assert (Htable : publish (publish T' t 0 None) t 1 None
                   = cleared (accessedPointers s) t).
  { apply cleared_publish; [done..|].
    eapply others_eq_trans; [|exact Hoth]. apply others_eq_publish, others_eq_refl. }
  assert (Hsil_1 : EvReclaim ∉ tr1).
  { eapply Forall_not_reclaim; [exact Htr1|]. by intros e [_ ?]. }
  assert (Hprot_1 : Forall (protected0 (head s) t) tr1).
  { eapply Forall_impl; [exact Htr1|]. by intros e [? _]. }
  rewrite Hl, (stop_node_split _ _ _ _ Hl1 Hl2).
  destruct l2 as [|c l2]; simpl first in *.
  - apply wp_bind, wp_ret.
    apply wp_bind, wp_resetAccessedPointer; [done|]. simpl. rewrite Htable.
    apply wp_ret. repeat split; try done.
    + simpl. repeat first [apply Forall_cons_2 | apply Forall_app_2];
        try done; try (left; done).
    + simpl. skip_silent. apply not_elem_of_nil.
  - assert (Hcin : c ∈ head s :: l1 ++ c :: l2).
    { right. apply elem_of_app. right. by left. }
    rewrite Hl in Hch.
    destruct (seg_allocated _ _ _ _ c Hch Hcin) as [nc Hnc].
    apply wp_bind. apply wp_bind. eapply wp_load; [done|].
    simpl holds. rewrite Hnc.
    destruct (removed nc) eqn:Erem; simpl.
    + apply wp_ret.
      apply wp_bind, wp_resetAccessedPointer; [done|]. simpl. rewrite Htable.
      apply wp_ret. repeat split; try done.
      * simpl. repeat first [apply Forall_cons_2 | apply Forall_app_2];
          try done; try (left; done); try (right; done).
      * simpl. skip_silent. apply not_elem_of_nil.
    + apply wp_bind. eapply wp_load; [done|]. apply wp_ret.
      apply wp_bind, wp_resetAccessedPointer; [done|]. simpl. rewrite Htable.
      apply wp_ret. repeat split; try done.
      * simpl. repeat first [apply Forall_cons_2 | apply Forall_app_2];
          try done; try (left; done); try (right; done).
      * simpl. skip_silent. apply not_elem_of_nil.
Qed.

(** ** checkList and printList *)

Lemma ascending_Sorted k ks : ascending k ks = true ↔ Sorted Z.le (k :: ks).
Proof.
  revert k. induction ks as [|x r IH]; intros k; simpl.
  - split; [repeat constructor|done].
  - destruct (Z.ltb_spec x k) as [Hlt|Hge].
    + split; [done|]. intros Hs. inversion Hs as [|? ? _ Hhd]; subst.
      inversion Hhd; subst. lia.
    + rewrite IH. split.
      * intros Hs. constructor; [done|]. by constructor.
      * intros Hs. by inversion Hs.
Qed.

Lemma wp_checkList_loop h : ∀ l fuel prev p curr s
    (Q : bool → state → list event → Prop),
  heap s = h → chain h curr l → (List.length l < fuel)%nat →
  h !! prev = Some p →
  (∀ tr, Q (ascending (value p) (keys h l)) s tr) →
  wp (checkList_loop fuel prev curr) s Q.
Proof.
  induction l as [|c l IH]; intros fuel prev p curr s Q Hh Hch Hfuel Hprev HQ;
    (destruct fuel as [|fuel]; [simpl in Hfuel; lia|]);
    pose proof (chain_first _ _ _ Hch) as ->; simpl.
  - apply wp_ret, HQ.
  - inversion Hch as [|c' n l' q' Hc Hrest]; subst.
    apply wp_bind. eapply wp_load; [done|].
    apply wp_bind. eapply wp_load; [done|].
    assert (Hk : key (heap s) c = value n) by (unfold key; by rewrite Hc).
    simpl in HQ. rewrite Hk in HQ.
    destruct (value n <? value p)%Z; [apply wp_ret, HQ|].
    apply wp_bind. eapply wp_load; [done|].
    eapply (IH fuel c n); try done. simpl in Hfuel. lia.
Qed.

Lemma wp_checkList s l (Q : bool → state → list event → Prop) :
  chain (heap s) (Some (head s)) (head s :: l) →
  (∀ tr, Q (ascending (key (heap s) (head s)) (keys (heap s) l)) s tr) →
  wp checkList s Q.
Proof.
  intros Hch HQ. pose proof (chain_length _ _ _ Hch) as Hfuel. simpl in Hfuel.
  inversion Hch as [|? nh ? ? Hhd Hrest]; subst.
  unfold checkList. apply wp_bind, wp_gets. apply wp_bind, wp_gets.
  apply wp_bind. eapply wp_load; [done|].
  eapply wp_checkList_loop; try done.
  - unfold fuel_of. lia.
  - intros tr. unfold key in HQ at 1. rewrite Hhd in HQ. apply HQ.
Qed.

Lemma wp_printList_loop h : ∀ l fuel curr s
    (Q : list Z → state → list event → Prop),
  heap s = h → chain h curr l → (List.length l < fuel)%nat →
  (∀ tr, Q (visible h l) s tr) →
  wp (printList_loop fuel curr) s Q.
Proof.
  induction l as [|c l IH]; intros fuel curr s Q Hh Hch Hfuel HQ;
    (destruct fuel as [|fuel]; [simpl in Hfuel; lia|]);
    pose proof (chain_first _ _ _ Hch) as ->; simpl.
  - apply wp_ret, HQ.
  - inversion Hch as [|c' n l' q' Hc Hrest]; subst.
    apply wp_bind. eapply wp_load; [done|].
    apply wp_bind. eapply wp_load; [done|].
    apply wp_bind. eapply IH; try done; [simpl in Hfuel; lia|].
    intros tr. apply wp_ret.
    unfold visible in HQ. simpl in HQ. rewrite Hc in HQ. simpl in HQ.
    destruct (removed n); apply HQ.
Qed.

Lemma wp_printList s l (Q : list Z → state → list event → Prop) :
  chain (heap s) (Some (head s)) (head s :: l) →
  (∀ tr, Q (visible (heap s) l) s tr) →
  wp printList s Q.
Proof.
  intros Hch HQ. pose proof (chain_length _ _ _ Hch) as Hfuel. simpl in Hfuel.
  inversion Hch as [|? nh ? ? Hhd Hrest]; subst.
  unfold printList. apply wp_bind, wp_gets. apply wp_bind, wp_gets.
  apply wp_bind. eapply wp_load; [done|].
  eapply wp_printList_loop; try done. unfold fuel_of. lia.
Qed.

Lemma visible_wf s l : wf s l → visible (heap s) l = keys (heap s) l.
Proof.
  intros Hwf. unfold visible, keys.
  assert (Hall : ∀ a, a ∈ l → ∃ n, heap s !! a = Some n ∧ removed n = false).
  { intros a Ha. assert (Hin : a ∈ head s :: l) by (by right).
    destruct (seg_allocated _ _ _ _ a (wf_chain _ _ Hwf) Hin) as [n Hn].
    exists n. split; [done|]. by eapply wf_live. }
  clear Hwf. induction l as [|a l IH]; [done|]. simpl.
  destruct (Hall a) as (n & Hn & Hrem); [by left|].
  unfold key at 1. rewrite Hn. simpl. rewrite Hrem. f_equal.
  apply IH. intros b Hb. apply Hall. by right.
Qed.

(** ** One call *)

Lemma target_Some h v l2 c :
  target h v l2 = Some c → ∃ l3, l2 = c :: l3 ∧ key h c = v.
Proof.
  destruct l2 as [|c' l3]; [done|]. simpl.
  destruct (Z.eqb_spec (key h c') v); [|done]. intros [= ->]. eauto.
Qed.

Lemma exec_effect s l c :
  wf s l → valid_call c →
  ∃ r s' tr l', exec c s = Returns r s' tr ∧ effect c s l r s' l' tr.
Proof.
  intros Hwf Hc.
  cut (wp (exec c) s (λ r s' tr, ∃ l', effect c s l r s' l' tr)).
  { intros (r & s' & tr & Hrun & l' & Heff)%wp_elim. by exists r, s', tr, l'. }
  destruct c as [v t|v t|v t|]; simpl in Hc; simpl exec.
  - apply wp_bind. eapply wp_mono; [by apply wp_insert|].
    intros [] s' tr (l1 & l2 & np & Hl & Hl1 & Hl2 & Hnp & Hnext & -> & _ & Hfire).
    apply wp_ret. rewrite app_nil_r. exists (l1 ++ brk s :: l2).
    split; [done|]. by exists l1, l2, np.
  - apply wp_bind. eapply wp_mono; [by apply wp_remove|].
    intros b s' tr (l1 & l2 & np & Hl & Hl1 & Hl2 & Hnp & Hnext & _ & Hcase).
    apply wp_ret. rewrite app_nil_r.
    destruct (target (heap s) v l2) as [c|] eqn:Etgt.
    + destruct Hcase as (nc & Hnc & -> & -> & Hfire).
      destruct (target_Some _ _ _ _ Etgt) as (l3 & -> & _).
      exists (l1 ++ l3), l1, (c :: l3), np. repeat (split; [done|]).
      rewrite Etgt. by exists nc, l3.
    + destruct Hcase as (-> & -> & Hsil).
      exists l, l1, l2, np. repeat (split; [done|]). by rewrite Etgt.
  - apply wp_bind. eapply wp_mono; [apply (wp_contains s l v t); [apply Hwf..|done]|].
    intros b s' tr (-> & -> & _ & Hsil). apply wp_ret. rewrite app_nil_r.
    by exists l.
  - apply wp_bind, wp_scanAndReclaim; [apply Hwf| |].
    { intros a Ha. destruct (wf_retired _ _ Hwf a Ha) as (n & -> & _). by eexists. }
    apply wp_ret. exists l. repeat split. rewrite app_nil_r. by left.
Qed.

Lemma effect_wf c s l r s' l' tr :
  wf s l → effect c s l r s' l' tr → wf s' l'.
Proof.
  intros Hwf. destruct c as [v t|v t|v t|]; simpl.
  - intros (_ & l1 & l2 & np & Hl & _ & _ & Hnp & Hnext & -> & -> & _).
    by apply wf_bumped, (wf_linked s l).
  - intros (l1 & l2 & np & Hl & _ & _ & Hnp & Hcase).
    destruct (target (heap s) v l2) as [c|].
    + destruct Hcase as (nc & l3 & -> & Hnc & _ & -> & -> & _).
      by apply wf_bumped, (wf_unlinked s l).
    + destruct Hcase as (_ & -> & -> & _). by apply wf_set_cleared.
  - intros (_ & -> & -> & _). by apply wf_set_cleared.
  - intros (_ & -> & -> & _). by apply wf_reclaimed.
Qed.

(** ** Sequences of calls *)

Lemma run_snoc cs c s :
  run (cs ++ [c]) s =
  match run cs s with
  | Returns log s1 t1 =>
      match exec c s1 with
      | Returns r s2 t2 => Returns (log ++ [(c, r, t2)]) s2 (t1 ++ t2)
      | Fails e => Fails e
      end
  | Fails e => Fails e
  end.
Proof.
  revert s. induction cs as [|c0 cs IH]; intros s; simpl.
  - unfold bind, listen. destruct (exec c s) as [r s2 t2|]; [|done]. simpl.
    by rewrite !app_nil_r.
  - unfold bind at 1 3. unfold listen.
    destruct (exec c0 s) as [r0 s0 t0|]; [|done]. simpl.
    unfold bind at 1 2. rewrite IH.
    destruct (run cs s0) as [log s1 t1|]; [|done].
    unfold ret. simpl.
    destruct (exec c s1) as [r s2 t2|]; [|done]. simpl.
    by rewrite !app_nil_r, app_assoc.
Qed.

Lemma wf_new : wf new [].
Proof.
  split; simpl.
  - econstructor; [by rewrite lookup_singleton_eq|constructor].
  - intros a n ->%list_elem_of_singleton. rewrite lookup_singleton_eq.
    by intros [= <-].
  - by intros a ?%elem_of_nil.
  - constructor.
  - intros a [n Hn]. apply lookup_singleton_Some in Hn as [<- _]. left. by left.
  - intros a [n Hn]. apply lookup_singleton_Some in Hn as [<- _]. done.
  - split; [done|]. by repeat constructor.
Qed.

(** Every sequence of valid calls on a fresh list runs to completion and
    leaves a well-formed state. *)
Lemma run_wf cs :
  Forall valid_call cs →
  ∃ log s' tr l', run cs new = Returns log s' tr ∧ wf s' l'.
Proof.
  induction cs as [|c cs IH] using rev_ind; intros Hcs.
  - exists [], new, [], []. split; [done|apply wf_new].
  - apply Forall_app in Hcs as [Hcs Hc]. rewrite Forall_singleton in Hc.
    destruct (IH Hcs) as (log & s1 & t1 & l1 & Hrun & Hwf).
    destruct (exec_effect s1 l1 c Hwf Hc) as (r & s2 & t2 & l2 & Hex & Heff).
    exists (log ++ [(c, r, t2)]), s2, (t1 ++ t2), l2.
    split; [by rewrite run_snoc, Hrun, Hex|]. by eapply effect_wf.
Qed.

(** ** The keys along the chain *)

Lemma place_split v k1 k2 :
  Forall (λ k, (k < v)%Z) k1 →
  (∀ k, List.hd_error k2 = Some k → (v ≤ k)%Z) →
  place v (k1 ++ k2) = k1 ++ v :: k2.
Proof.
  intros H1 H2. induction H1 as [|k k1 Hk _ IH]; simpl.
  - destruct k2 as [|k r]; [done|]. simpl.
    specialize (H2 k eq_refl). by destruct (Z.ltb_spec k v); [lia|].
  - destruct (Z.ltb_spec k v); [|lia]. by rewrite IH.
Qed.

Lemma take_out_split v k1 k2 :
  Forall (λ k, (k < v)%Z) k1 →
  (∀ k, List.hd_error k2 = Some k → (v ≤ k)%Z) →
  take_out v (k1 ++ k2) =
  match k2 with
  | k :: r => if (k =? v)%Z then Some (k1 ++ r) else None
  | [] => None
  end.
Proof.
  intros H1 H2. induction H1 as [|k k1 Hk _ IH]; simpl.
  - destruct k2 as [|k r]; [done|]. simpl.
    specialize (H2 k eq_refl). by destruct (Z.ltb_spec k v); [lia|].
  - destruct (Z.ltb_spec k v); [|lia]. rewrite IH.
    destruct k2 as [|k' r]; [done|]. by destruct (k' =? v)%Z.
Qed.

Lemma place_length v ks : List.length (place v ks) = S (List.length ks).
Proof.
  induction ks as [|k r IH]; [done|]. simpl.
  destruct (k <? v)%Z; simpl; by rewrite ?IH.
Qed.

Lemma take_out_length v ks ks' :
  take_out v ks = Some ks' → List.length ks = S (List.length ks').
Proof.
  revert ks'. induction ks as [|k r IH]; intros ks'; [done|]. simpl.
  destruct (k <? v)%Z.
  - destruct (take_out v r) as [r'|]; [|done]. intros [= <-]. simpl.
    by rewrite (IH r').
  - destruct (k =? v)%Z; [|done]. by intros [= <-].
Qed.

Lemma place_elem v ks k : k ∈ place v ks ↔ k = v ∨ k ∈ ks.
Proof.
  induction ks as [|k0 r IH]; simpl.
  - rewrite list_elem_of_singleton, elem_of_nil. naive_solver.
  - destruct (k0 <? v)%Z; rewrite !elem_of_cons, ?IH; naive_solver.
Qed.

Lemma take_out_elem v ks ks' k : take_out v ks = Some ks' → k ∈ ks' → k ∈ ks.
Proof.
  revert ks'. induction ks as [|k0 r IH]; intros ks'; [done|]. simpl.
  destruct (k0 <? v)%Z.
  - destruct (take_out v r) as [r'|]; [|done]. intros [= <-].
    rewrite !elem_of_cons. naive_solver.
  - destruct (k0 =? v)%Z; [|done]. intros [= <-]. by right.
Qed.

Lemma place_sorted v ks :
  StronglySorted Z.le ks → StronglySorted Z.le (place v ks).
Proof.
  induction 1 as [|k r Hr IH Hk]; simpl; [by repeat constructor|].
  destruct (Z.ltb_spec k v).
  - constructor; [done|]. apply Forall_forall. intros x [->|Hx]%place_elem; [lia|].
    by eapply Forall_forall in Hk.
  - constructor; [by constructor|]. constructor; [done|].
    eapply Forall_impl; [exact Hk|]. intros x ?. simpl in *. lia.
Qed.

Lemma take_out_sorted v ks ks' :
  StronglySorted Z.le ks → take_out v ks = Some ks' → StronglySorted Z.le ks'.
Proof.
  intros Hs. revert ks'. induction Hs as [|k r Hr IH Hk]; intros ks'; [done|]. simpl.
  destruct (k <? v)%Z.
  - destruct (take_out v r) as [r'|] eqn:E; [|done]. intros [= <-].
    constructor; [by apply IH|]. apply Forall_forall. intros x Hx.
    eapply Forall_forall in Hk; [exact Hk|]. by eapply take_out_elem.
  - destruct (k =? v)%Z; [|done]. by intros [= <-].
Qed.

(** On a sorted list the first key that is not smaller decides membership. *)
Lemma take_out_Some_iff v ks :
  StronglySorted Z.le ks → is_Some (take_out v ks) ↔ v ∈ ks.
Proof.
  induction 1 as [|k r Hr IH Hk]; simpl.
  - rewrite elem_of_nil. split; [by intros [? ?]|done].
  - rewrite elem_of_cons. destruct (Z.ltb_spec k v).
    + rewrite <-IH. destruct (take_out v r); simpl.
      * split; [eauto|by eexists].
      * split; [by intros [? ?]|]. intros [?|[? ?]]; [lia|done].
    + destruct (Z.eqb_spec k v) as [->|Hne].
      * split; [by left|by eexists].
      * split; [by intros [? ?]|]. intros [?|Hin]; [done|].
        eapply Forall_forall in Hk; [|exact Hin]. simpl in Hk. lia.
Qed.

(** ** What a call does to the keys *)

Lemma head_bumped s : head (bumped s) = head s.
Proof. unfold bumped. by destruct (fires s). Qed.

Lemma length_bumped s : length (bumped s) = length s.
Proof. unfold bumped. by destruct (fires s). Qed.

Lemma key_bumped_chain s l a :
  wf s l → a ∈ head s :: l → key (heap (bumped s)) a = key (heap s) a.
Proof. intros Hwf Ha. unfold key. by rewrite (lookup_bumped_chain s l). Qed.

Lemma first_keys h (l2 : list addr) v :
  (∀ c, first l2 = Some c → (v ≤ key h c)%Z) →
  ∀ k, List.hd_error (keys h l2) = Some k → (v ≤ k)%Z.
Proof. destruct l2 as [|c l2]; [done|]. intros H k [= <-]. by apply H. Qed.

Lemma keys_app h (l1 l2 : list addr) :
  keys h (l1 ++ l2) = keys h l1 ++ keys h l2.
Proof. unfold keys. apply fmap_app. Qed.

Lemma keys_lt h (l1 : list addr) v :
  Forall (λ a, (key h a < v)%Z) l1 → Forall (λ k, (k < v)%Z) (keys h l1).
Proof. intros H. unfold keys. by apply Forall_fmap. Qed.

Lemma effect_keys c s l r s' l' tr :
  wf s l → effect c s l r s' l' tr →
  head s' = head s ∧
  key (heap s') (head s) = key (heap s) (head s) ∧
  keys (heap s') l' = model_step c (keys (heap s) l).
Proof.
  intros Hwf. destruct c as [v t|v t|v t|]; simpl.
  - intros (_ & l1 & l2 & np & Hl & Hl1 & Hl2 & Hnp & Hnext & -> & -> & _).
    pose proof (wf_linked s l l1 l2 np v t Hwf Hl Hnp) as Hwf'.
    split; [by rewrite head_bumped|]. split.
    + rewrite (key_bumped_chain _ _ _ Hwf') by by left.
      apply (key_linked s l1 l2 np v t Hnp).
      apply (linked_fresh_notin s l Hwf). by left.
    + rewrite (keys_bumped _ _ Hwf'), (keys_linked s l l1 l2 np v t Hwf Hl Hnp).
      rewrite Hl. unfold keys at 3. rewrite fmap_app.
      symmetry. apply place_split; [by apply keys_lt|by apply first_keys].
  - intros (l1 & l2 & np & Hl & Hl1 & Hl2 & Hnp & Hcase).
    assert (Hmodel : take_out v (keys (heap s) l) =
              match keys (heap s) l2 with
              | k :: r => if (k =? v)%Z then Some (keys (heap s) l1 ++ r) else None
              | [] => None
              end).
    { rewrite Hl. unfold keys at 1. rewrite fmap_app.
      apply take_out_split; [by apply keys_lt|by apply first_keys]. }
    rewrite Hmodel.
    destruct (target (heap s) v l2) as [c|] eqn:Etgt.
    + destruct Hcase as (nc & l3 & -> & Hnc & _ & -> & -> & _).
      pose proof (wf_unlinked s l l1 l3 c np nc t Hwf Hl Hnp Hnc) as Hwf'.
      destruct (target_Some _ _ _ _ Etgt) as (? & _ & Hkey).
      split; [by rewrite head_bumped|]. split.
      * rewrite (key_bumped_chain _ _ _ Hwf') by by left.
        by apply (key_unlinked s l l1 l3 c np nc t).
      * rewrite (keys_bumped _ _ Hwf').
        rewrite (keys_unlinked s l l1 l3 c np nc t) by done.
        simpl. rewrite Hkey, Z.eqb_refl. simpl. unfold keys. by rewrite fmap_app.
    + destruct Hcase as (_ & -> & -> & _). repeat split.
      destruct l2 as [|c l3]; [done|]. simpl in *.
      by destruct (key (heap s) c =? v)%Z.
  - by intros (_ & -> & -> & _).
  - intros (_ & -> & -> & _). repeat split.
    + unfold key. by rewrite (lookup_reclaimed_chain s l) by (done || by left).
    + apply keys_ext. intros a Ha. apply (lookup_reclaimed_chain s l); [done|by right].
Qed.

(** remove answers whether the model finds the key. *)
Lemma effect_remove_result v t s l r s' l' tr :
  effect (Remove v t) s l r s' l' tr →
  r = RBool (bool_decide (is_Some (take_out v (keys (heap s) l)))).
Proof.
  simpl. intros (l1 & l2 & np & Hl & Hl1 & Hl2 & Hnp & Hcase).
  rewrite Hl. unfold keys. rewrite fmap_app.
  rewrite take_out_split by (by apply keys_lt || by apply first_keys).
  destruct l2 as [|c l3]; simpl in *.
  - by destruct Hcase as (-> & _).
  - destruct (key (heap s) c =? v)%Z.
    + by destruct Hcase as (nc & l3' & _ & _ & -> & _).
    + by destruct Hcase as (-> & _).
Qed.

Lemma model_step_sorted c ks :
  StronglySorted Z.le ks → StronglySorted Z.le (model_step c ks).
Proof.
  intros Hs. destruct c as [v t|v t|v t|]; simpl; try done.
  - by apply place_sorted.
  - destruct (take_out v ks) as [ks'|] eqn:E; [|done]. by eapply take_out_sorted.
Qed.

Lemma effect_Inv c s l r s' l' tr :
  Inv s l → effect c s l r s' l' tr → Inv s' l'.
Proof.
  intros [Hwf Hs] Heff. split; [by eapply effect_wf|].
  destruct (effect_keys _ _ _ _ _ _ _ Hwf Heff) as (_ & _ & ->).
  by apply model_step_sorted.
Qed.

Lemma Inv_new : Inv new [].
Proof. split; [apply wf_new|constructor]. Qed.

Lemma in_range_0 : in_range 0.
Proof. unfold in_range, MAX_THREADS. lia. Qed.

(** * Properties of the operations *)

(** C1.  On every well-formed list state with chain [l] and for every key,
    insert (from a valid worker id) returns, and the chain afterwards is
    [l1 ++ new :: l2] where [l = l1 ++ l2], every node of [l1] has a key
    below the new key, the first node of [l2] (if any) has a key that is not
    below it, and [new] is a node that was not allocated before, now holding
    the key, unmarked, with the rest [l2] as its successor; the keys of the
    old nodes are unchanged, so equal keys are accepted and sit next to each
    other.  Inserting 5, 2, 8, 2, 5, 1 from worker 0 into a fresh list gives
    the traversal 1, 2, 2, 5, 5, 8 and length 6. *)
Theorem insert_before_first_not_smaller :
  (∀ s l val t, wf s l → in_range t →
     ∃ l1 l2 s' tr,
       insert val t s = Returns tt s' tr ∧
       l = l1 ++ l2 ∧
       Forall (λ a, (key (heap s) a < val)%Z) l1 ∧
       (∀ c, first l2 = Some c → (val ≤ key (heap s) c)%Z) ∧
       heap s !! brk s = None ∧
       wf s' (l1 ++ brk s :: l2) ∧
       heap s' !! brk s = Some (mkNode val (first l2) false) ∧
       keys (heap s') (l1 ++ brk s :: l2) =
         keys (heap s) l1 ++ val :: keys (heap s) l2) ∧
  (∃ log s' tr tr',
     run S1 new = Returns log s' tr ∧
     printList s' = Returns [1; 2; 2; 5; 5; 8]%Z s' tr' ∧
     get_length s' = Returns 6%Z s' []).
Proof.
  split.
  - intros s l val t Hwf Ht.
    destruct (wp_elim _ _ _ (wp_insert s l val t Hwf Ht))
      as ([] & s' & tr & Hrun & l1 & l2 & np & Hl & Hl1 & Hl2 & Hnp & Hnext & -> & _).
    pose proof (wf_linked s l l1 l2 np val t Hwf Hl Hnp) as Hwf'.
    eexists l1, l2, _, tr. split; [exact Hrun|]. repeat (split; [done|]).
    split; [by eapply wf_fresh|]. split; [by apply wf_bumped|]. split.
    + rewrite (lookup_bumped_chain _ _ _ Hwf').
      * by apply (lookup_linked_new s l l1 l2 np val t).
      * right. apply elem_of_app. right. by left.
    + rewrite (keys_bumped _ _ Hwf').
      by apply (keys_linked s l l1 l2 np val t).
  - eexists _, _, _, _. split; [vm_compute; reflexivity|].
    split; vm_compute; reflexivity.
Qed.

Lemma insert_before_first_not_smaller_witness :
  wf new [] ∧ in_range 0 ∧
  ∃ l1 l2 s' tr,
    insert 5 0 new = Returns tt s' tr ∧
    [] = l1 ++ l2 ∧
    Forall (λ a, (key (heap new) a < 5)%Z) l1 ∧
    (∀ c, first l2 = Some c → (5 ≤ key (heap new) c)%Z) ∧
    heap new !! brk new = None ∧
    wf s' (l1 ++ brk new :: l2) ∧
    heap s' !! brk new = Some (mkNode 5 (first l2) false) ∧
    keys (heap s') (l1 ++ brk new :: l2) =
      keys (heap new) l1 ++ 5%Z :: keys (heap new) l2.
Proof.
  split; [apply wf_new|]. split; [apply in_range_0|].
  apply (proj1 insert_before_first_not_smaller new [] 5%Z 0%Z wf_new in_range_0).
Defined.

Lemma remove_effect s l v t :
  wf s l → in_range t →
  ∃ b s' tr l',
    remove v t s = Returns b s' tr ∧ effect (Remove v t) s l (RBool b) s' l' tr.
Proof.
  intros Hwf Ht.
  destruct (wp_elim _ _ _ (wp_remove s l v t Hwf Ht))
    as (b & s' & tr & Hrun & l1 & l2 & np & Hl & Hl1 & Hl2 & Hnp & Hnext & _ & Hcase).
  exists b, s', tr. simpl.
  destruct (target (heap s) v l2) as [c|] eqn:Etgt.
  - destruct Hcase as (nc & Hnc & -> & -> & Hfire).
    destruct (target_Some _ _ _ _ Etgt) as (l3 & -> & _).
    exists (l1 ++ l3). split; [done|].
    exists l1, (c :: l3), np. repeat (split; [done|]).
    rewrite Etgt. by exists nc, l3.
  - destruct Hcase as (-> & -> & Hsil).
    exists l. split; [done|].
    exists l1, l2, np. repeat (split; [done|]). by rewrite Etgt.
Qed.

(** C2.  On every list state that satisfies the representation invariant
    (chain [l], keys non-decreasing) and for every key, remove (from a valid
    worker id) returns; it returns true exactly when some reachable node has
    the key.  When it returns true the chain was [l1 ++ c :: l3] with [c] the
    first node carrying the key (no node of [l1] has it), the chain afterwards
    is [l1 ++ l3], so only that node is unlinked, and [c] is in the retire
    list unless the reclaim pass of this very call freed it.  When it returns
    false the chain and the node store are unchanged.  After S1, three calls
    remove(5, 0) return true (traversal 1, 2, 2, 5, 8), true (traversal
    1, 2, 2, 8) and false. *)
Theorem remove_first_match :
  (∀ s l val t, Inv s l → in_range t →
     ∃ b s' tr l',
       remove val t s = Returns b s' tr ∧
       (b = true ↔ val ∈ keys (heap s) l) ∧
       Inv s' l' ∧
       if b then
         ∃ l1 c l3,
           l = l1 ++ c :: l3 ∧ key (heap s) c = val ∧
           (val ∉ keys (heap s) l1) ∧
           l' = l1 ++ l3 ∧ (c ∉ head s' :: l') ∧
           keys (heap s') l' = keys (heap s) l1 ++ keys (heap s) l3 ∧
           (c ∈ retireList s' ∨ heap s' !! c = None)
       else l' = l ∧ heap s' = heap s) ∧
  (∃ log s1 s2 s3 s4 t1 t2 t3 t4 t5 t6,
     run S1 new = Returns log s1 t1 ∧
     remove 5 0 s1 = Returns true s2 t2 ∧
     printList s2 = Returns [1; 2; 2; 5; 8]%Z s2 t3 ∧
     remove 5 0 s2 = Returns true s3 t4 ∧
     printList s3 = Returns [1; 2; 2; 8]%Z s3 t5 ∧
     remove 5 0 s3 = Returns false s4 t6).
Proof.
  split.
  - intros s l val t [Hwf Hsorted] Ht.
    destruct (remove_effect s l val t Hwf Ht) as (b & s' & tr & l' & Hrun & Heff).
    exists b, s', tr, l'. split; [done|].
    pose proof (effect_remove_result _ _ _ _ _ _ _ _ Heff) as Hb.
    pose proof (effect_Inv _ _ _ _ _ _ _ (conj Hwf Hsorted) Heff) as HInv'.
    pose proof (effect_keys _ _ _ _ _ _ _ Hwf Heff) as (Hhd & _ & Hkeys).
    injection Hb as Hb. split; [|split; [done|]].
    { rewrite Hb, bool_decide_eq_true. by apply take_out_Some_iff. }
    simpl in Heff. destruct Heff as (l1 & l2 & np & Hl & Hl1 & Hl2 & Hnp & Hcase).
    destruct (target (heap s) val l2) as [c|] eqn:Etgt.
    + destruct Hcase as (nc & l3 & -> & Hnc & [= ->] & -> & -> & _).
      destruct (target_Some _ _ _ _ Etgt) as (? & _ & Hkey).
      exists l1, c, l3. split; [done|]. split; [done|].
      assert (Hcnot : c ∉ head s :: l1 ++ l3).
      { pose proof (chain_NoDup _ _ _ (wf_chain _ _ Hwf)) as Hnd. rewrite Hl in Hnd.
        change (head s :: l1 ++ c :: l3) with ((head s :: l1) ++ c :: l3) in Hnd.
        apply NoDup_app in Hnd as (_ & Hdisj & [Hc3 _]%NoDup_cons).
        change (head s :: l1 ++ l3) with ((head s :: l1) ++ l3).
        intros [Hin|Hin]%elem_of_app; [|done].
        apply (Hdisj c Hin). by left. }
      split.
      { intros (a & Ha & Hin)%list_elem_of_fmap.
        eapply Forall_forall in Hl1; [|exact Hin]. simpl in Hl1. lia. }
      split; [done|]. rewrite Hhd. split; [done|]. split.
      { rewrite Hkeys. simpl. rewrite Hl, keys_app.
        rewrite take_out_split by (by apply keys_lt || by apply first_keys).
        simpl. by rewrite Hkey, Z.eqb_refl. }
      destruct HInv' as [Hwf' _].
      set (s' := bumped _) in *.
      destruct (heap s' !! c) as [n|] eqn:E; [|by right]. left.
      destruct (wf_owned _ _ Hwf' c) as [Hin|Hin]; [by rewrite E| |done].
      rewrite Hhd in Hin. done.
    + by destruct Hcase as ([= ->] & -> & -> & _).
  - eexists _, _, _, _, _, _, _, _, _, _, _.
    split; [vm_compute; reflexivity|].
    split; [vm_compute; reflexivity|].
    split; [vm_compute; reflexivity|].
    split; [vm_compute; reflexivity|].
    split; vm_compute; reflexivity.
Qed.

Lemma remove_first_match_witness :
  Inv new [] ∧ in_range 0 ∧
  ∃ b s' tr l',
    remove 5 0 new = Returns b s' tr ∧
    (b = true ↔ 5%Z ∈ keys (heap new) []) ∧
    Inv s' l' ∧
    if b then
      ∃ l1 c l3,
        [] = l1 ++ c :: l3 ∧ key (heap new) c = 5%Z ∧
        (5%Z ∉ keys (heap new) l1) ∧
        l' = l1 ++ l3 ∧ (c ∉ head s' :: l') ∧
        keys (heap s') l' = keys (heap new) l1 ++ keys (heap new) l3 ∧
        (c ∈ retireList s' ∨ heap s' !! c = None)
    else l' = [] ∧ heap s' = heap new.
Proof.
  split; [apply Inv_new|]. split; [apply in_range_0|].
  apply (proj1 remove_first_match new [] 5%Z 0%Z Inv_new in_range_0).
Defined.

Lemma S3_chain : chain (heap S3) (Some (head S3)) (head S3 :: [2%positive]).
Proof.
  econstructor; [reflexivity|]. simpl. econstructor; [reflexivity|]. constructor.
Qed.

Lemma shape_new : shape (accessedPointers new).
Proof. apply wf_new. Qed.

Lemma in_range_1 : in_range 1.
Proof. unfold in_range, MAX_THREADS. lia. Qed.

(** C3.  On every state whose chain from the head is [l] (marked nodes may
    still be linked) and for every key, contains (from a valid worker id)
    returns; with [stop_node] the first node of the chain whose key is not
    below the argument, the answer is true exactly when that node exists, is
    unmarked and carries the key.  In particular the answer is false when
    that node is marked, although it is still linked.  The call changes
    nothing but the worker's hazard slots, which it leaves null. *)
Theorem contains_first_not_smaller_unmarked s l val t :
  chain (heap s) (Some (head s)) (head s :: l) →
  shape (accessedPointers s) → in_range t →
  ∃ b s' tr,
    contains val t s = Returns b s' tr ∧
    (b = true ↔
     ∃ c n, stop_node (heap s) val l = Some c ∧ heap s !! c = Some n ∧
            removed n = false ∧ value n = val) ∧
    (∀ c n, stop_node (heap s) val l = Some c → heap s !! c = Some n →
            removed n = true → b = false) ∧
    s' = set_accessedPointers (cleared (accessedPointers s) t) s.
Proof.
  intros Hch HT Ht.
  destruct (wp_elim _ _ _ (wp_contains s l val t Hch HT Ht))
    as (b & s' & tr & Hrun & -> & -> & _).
  eexists _, _, tr. split; [exact Hrun|]. split; [|split; [|done]].
  - unfold holds. destruct (stop_node (heap s) val l) as [c|].
    + destruct (heap s !! c) as [n|] eqn:E.
      * rewrite andb_true_iff, negb_true_iff, Z.eqb_eq. split.
        -- intros [? ?]. by exists c, n.
        -- intros (c' & n' & Hc & Hn & Hrem & Hval). by simplify_eq.
      * split; [done|]. intros (c' & n' & Hc & Hn & _). by simplify_eq.
    + split; [done|]. by intros (? & ? & ? & _).
  - intros c n -> Hn Hrem. unfold holds. by rewrite Hn, Hrem.
Qed.

Lemma contains_first_not_smaller_unmarked_witness :
  ∃ b s' tr,
    contains 7 1 S3 = Returns b s' tr ∧
    (b = true ↔
     ∃ c n, stop_node (heap S3) 7 [2%positive] = Some c ∧
            heap S3 !! c = Some n ∧ removed n = false ∧ value n = 7%Z) ∧
    (∀ c n, stop_node (heap S3) 7 [2%positive] = Some c →
            heap S3 !! c = Some n → removed n = true → b = false) ∧
    s' = set_accessedPointers (cleared (accessedPointers S3) 1) S3.
Proof.
  apply (contains_first_not_smaller_unmarked S3 [2%positive] 7%Z 1%Z
           S3_chain shape_new in_range_1).
Defined.

(** ** Induction over the calls made on a fresh list *)

Lemma run_invariant
    (P : list (call * retval * list event) → state → list addr → Prop)
    (ok : call → Prop) :
  (∀ c, ok c → valid_call c) →
  P [] new [] →
  (∀ log s l c r s' l' tr,
     wf s l → P log s l → ok c →
     exec c s = Returns r s' tr → effect c s l r s' l' tr →
     P (log ++ [(c, r, tr)]) s' l') →
  ∀ cs, Forall ok cs →
    ∃ log s' tr l', run cs new = Returns log s' tr ∧ wf s' l' ∧ P log s' l'.
Proof.
  intros Hok Hinit Hstep cs.
  induction cs as [|c cs IH] using rev_ind; intros Hcs.
  - exists [], new, [], []. split; [done|]. split; [apply wf_new|done].
  - apply Forall_app in Hcs as [Hcs Hc]. rewrite Forall_singleton in Hc.
    destruct (IH Hcs) as (log & s1 & t1 & l1 & Hrun & Hwf & HP).
    destruct (exec_effect s1 l1 c Hwf (Hok c Hc)) as (r & s2 & t2 & l2 & Hex & Heff).
    exists (log ++ [(c, r, t2)]), s2, (t1 ++ t2), l2.
    split; [by rewrite run_snoc, Hrun, Hex|].
    split; [by eapply effect_wf|]. by eapply Hstep.
Qed.

Lemma model_step_lower c ks :
  legal_call c → Forall (λ k, (-1 ≤ k)%Z) ks →
  Forall (λ k, (-1 ≤ k)%Z) (model_step c ks).
Proof.
  intros [_ Hc] Hks. destruct c as [v t|v t|v t|]; simpl; try done.
  - apply Forall_forall. intros k [->|Hk]%place_elem; [lia|].
    by eapply Forall_forall in Hks.
  - destruct (take_out v ks) as [ks'|] eqn:E; [|done]. simpl.
    apply Forall_forall. intros k Hk. eapply Forall_forall in Hks; [exact Hks|].
    by eapply take_out_elem.
Qed.

(** C4.  After every sequence of calls (insert, remove, and also contains
    and scanAndReclaim) with valid worker ids and legal inserted keys on a
    freshly created list, the run completes, the sentinel (key -1) heads the
    chain, every two adjacent reachable nodes satisfy prev.key <= curr.key
    (the sentinel included), and checkList returns true. *)
Theorem checkList_after_calls cs :
  Forall legal_call cs →
  ∃ log s' tr l tr',
    run cs new = Returns log s' tr ∧
    chain (heap s') (Some (head s')) (head s' :: l) ∧
    key (heap s') (head s') = (-1)%Z ∧
    Sorted Z.le (keys (heap s') (head s' :: l)) ∧
    checkList s' = Returns true s' tr'.
Proof.
  intros Hcs.
  destruct (run_invariant
    (λ _ s l, StronglySorted Z.le (keys (heap s) l) ∧
              key (heap s) (head s) = (-1)%Z ∧
              Forall (λ k, (-1 ≤ k)%Z) (keys (heap s) l))
    legal_call) with (cs := cs)
    as (log & s' & tr & l & Hrun & Hwf & Hsorted & Hhd & Hlow); try done.
  - by intros c [? _].
  - split; [constructor|]. split; [done|constructor].
  - intros log s l c r s' l' tr Hwf (Hs & Hh & Hlow) Hc _ Heff.
    destruct (effect_keys _ _ _ _ _ _ _ Hwf Heff) as (-> & -> & ->).
    split; [by apply model_step_sorted|]. split; [done|].
    by apply model_step_lower.
  - assert (Hall : Sorted Z.le (keys (heap s') (head s' :: l))).
    { simpl. rewrite Hhd. apply StronglySorted_Sorted. by constructor. }
    destruct (wp_elim _ _ _
      (wp_checkList s' l (λ b s2 _, b = true ∧ s2 = s') (wf_chain _ _ Hwf)
         (λ _, conj (proj2 (ascending_Sorted _ _) Hall) eq_refl)))
      as (b & s2 & tr' & Hcheck & -> & ->).
    exists log, s', tr, l, tr'. repeat split; try done. apply Hwf.
Qed.

Lemma checkList_after_calls_witness :
  Forall legal_call S1 ∧
  ∃ log s' tr l tr',
    run S1 new = Returns log s' tr ∧
    chain (heap s') (Some (head s')) (head s' :: l) ∧
    key (heap s') (head s') = (-1)%Z ∧
    Sorted Z.le (keys (heap s') (head s' :: l)) ∧
    checkList s' = Returns true s' tr'.
Proof.
  assert (H : Forall legal_call S1).
  { unfold S1, inserts. simpl.
    repeat (constructor; [split; [apply in_range_0|reflexivity]|]). constructor. }
  split; [exact H|]. apply (checkList_after_calls S1 H).
Defined.

(** ** Counting *)

Lemma wrap_int_add z d : wrap_int (wrap_int z + d) = wrap_int (z + d).
Proof.
  unfold wrap_int. f_equal.
  replace ((z + 2 ^ 31) mod 2 ^ 32 - 2 ^ 31 + d + 2 ^ 31)%Z
    with ((z + 2 ^ 31) mod 2 ^ 32 + d)%Z by lia.
  rewrite Zplus_mod_idemp_l. f_equal. lia.
Qed.

Lemma wrap_int_small z : (INT_MIN ≤ z ≤ INT_MAX)%Z → wrap_int z = z.
Proof.
  unfold wrap_int, INT_MIN, INT_MAX. intros Hz.
  rewrite Z.mod_small; lia.
Qed.

Lemma tally_snoc f log e :
  tally f (log ++ [e]) = (tally f log + if f e then 1 else 0)%Z.
Proof.
  unfold tally. rewrite List.filter_app, length_app. simpl.
  destruct (f e); simpl; lia.
Qed.

Lemma tally_nonneg f log : (0 ≤ tally f log)%Z.
Proof. unfold tally. lia. Qed.

Lemma delta_tally c r tr :
  delta c r = ((if is_insert (c, r, tr) then 1 else 0) -
               (if is_removal (c, r, tr) then 1 else 0))%Z.
Proof. destruct c as [| | |], r as [|[|]]; reflexivity. Qed.

Lemma effect_count c s l r s' l' tr :
  effect c s l r s' l' tr →
  Z.of_nat (List.length l') = (Z.of_nat (List.length l) + delta c r)%Z ∧
  length s' = wrap_int (length s + delta c r) ∨
  delta c r = 0%Z ∧ List.length l' = List.length l ∧ length s' = length s.
Proof.
  destruct c as [v t|v t|v t|]; simpl.
  - intros (-> & l1 & l2 & np & -> & _ & _ & _ & _ & -> & -> & _). left.
    rewrite length_bumped. simpl. rewrite !length_app. simpl. split; [lia|done].
  - intros (l1 & l2 & np & -> & _ & _ & _ & Hcase).
    destruct (target (heap s) v l2) as [c|].
    + destruct Hcase as (nc & l3 & -> & _ & -> & -> & -> & _). left.
      rewrite length_bumped. simpl. rewrite !length_app. simpl. split; [lia|done].
    + destruct Hcase as (-> & -> & -> & _). by right.
  - intros (-> & -> & -> & _). by right.
  - intros (-> & -> & -> & _). by right.
Qed.



(** ** The retire list *)

Lemma wf_retire_invariant s l : wf s l → retire_invariant s l.
Proof.
  intros Hwf. split; [apply Hwf|]. split.
  - intros a. by apply wf_not_retired.
  - intros a Ha Hnot. by destruct (wf_owned _ _ Hwf a Ha).
Qed.

Lemma reclaimed_kept s a :
  a ∈ retireList s → hazarded a (accessedPointers s) = true →
  a ∈ retireList (reclaimed s) ∧ heap (reclaimed s) !! a = heap s !! a.
Proof.
  intros Ha Hhz. unfold reclaimed. cbn [retireList heap set_retireList set_heap].
  split; [by apply list_elem_of_filter|]. rewrite lookup_free_all.
  destruct (decide _) as [[Hn _]%list_elem_of_filter|]; done.
Qed.

Lemma reclaimed_freed s a :
  a ∈ retireList s → hazarded a (accessedPointers s) = false →
  (a ∉ retireList (reclaimed s)) ∧ heap (reclaimed s) !! a = None.
Proof.
  intros Ha Hhz. unfold reclaimed. cbn [retireList heap set_retireList set_heap].
  split.
  - intros [Hn _]%list_elem_of_filter. congruence.
  - rewrite lookup_free_all. destruct (decide _) as [|Hn]; [done|].
    destruct Hn. apply list_elem_of_filter. split; [congruence|done].
Qed.

Lemma reclaimed_other s a :
  a ∉ retireList s → heap (reclaimed s) !! a = heap s !! a.
Proof.
  intros Ha. unfold reclaimed. cbn [heap set_retireList set_heap].
  rewrite lookup_free_all.
  destruct (decide _) as [[_ Hn]%list_elem_of_filter|]; done.
Qed.

Lemma effect_head c s l r s' l' tr :
  wf s l → effect c s l r s' l' tr → head s' = head s.
Proof. intros Hwf Heff. by destruct (effect_keys _ _ _ _ _ _ _ Hwf Heff) as (-> & _). Qed.

(** C6.  The fresh list satisfies the representation invariant, and every
    call (insert, remove, contains with a valid worker id, scanAndReclaim) on
    a state that satisfies it returns in a state that satisfies it again, so
    that there: every node of the retire list is allocated and marked, no
    reachable node is in the retire list, every allocated node that is not
    reachable is in the retire list, and a node that the call took out of
    the chain is either in the retire list or was freed by the reclaim pass
    the call ran. *)
Theorem retire_list_invariant :
  (wf new [] ∧ retire_invariant new []) ∧
  (∀ s l c, wf s l → valid_call c →
     ∃ r s' tr l',
       exec c s = Returns r s' tr ∧ wf s' l' ∧ retire_invariant s' l' ∧
       ∀ a, a ∈ l → a ∉ l' →
         (a ∈ retireList s' ∧ ∃ n, heap s' !! a = Some n ∧ removed n = true) ∨
         heap s' !! a = None).
Proof.
  split; [split; [apply wf_new|apply wf_retire_invariant, wf_new]|].
  intros s l c Hwf Hc.
  destruct (exec_effect s l c Hwf Hc) as (r & s' & tr & l' & Hrun & Heff).
  pose proof (effect_wf _ _ _ _ _ _ _ Hwf Heff) as Hwf'.
  exists r, s', tr, l'. split; [done|]. split; [done|].
  split; [by apply wf_retire_invariant|].
  intros a Ha Hnot.
  destruct c as [v t|v t|v t|]; simpl in Heff.
  - destruct Heff as (_ & l1 & l2 & np & -> & _ & _ & _ & _ & -> & _).
    destruct Hnot. rewrite elem_of_app, elem_of_cons.
    apply elem_of_app in Ha. naive_solver.
  - destruct Heff as (l1 & l2 & np & Hl & _ & _ & Hnp & Hcase).
    destruct (target (heap s) v l2) as [c|]; [|by destruct Hcase as (_ & -> & _)].
    destruct Hcase as (nc & l3 & -> & Hnc & _ & -> & -> & Hfire).
    assert (a = c) as ->.
    { rewrite Hl in Ha. rewrite elem_of_app in Hnot.
      rewrite elem_of_app, elem_of_cons in Ha. naive_solver. }
    set (σ := unlinked s (List.last l1 (head s)) np c nc t) in *.
    assert (Hσ : heap σ !! c = Some (set_removed true nc))
      by (by apply (lookup_unlinked_target s l l1 l3 c np nc t)).
    assert (Hret : c ∈ retireList σ) by (simpl; apply elem_of_app; right; by left).
    unfold bumped in *. destruct (fires σ) eqn:Efire; [|left; split; [done|by eexists]].
    destruct (hazarded c (accessedPointers σ)) eqn:Ehz.
    + left. destruct (reclaimed_kept σ c Hret Ehz) as [Hin Hlook].
      split; [exact Hin|]. exists (set_removed true nc).
      split; [|done]. change (heap (reclaimed σ) !! c = Some (set_removed true nc)).
      by rewrite Hlook.
    + right. by destruct (reclaimed_freed σ c Hret Ehz) as [_ ?].
  - by destruct Heff as (_ & -> & _).
  - by destruct Heff as (_ & -> & _).
Qed.

(** ** scanAndReclaim *)

Lemma hazarded_referenced a T : hazarded a T = true ↔ referenced a T.
Proof.
  unfold hazarded, referenced. induction T as [|r T IH]; simpl.
  - split; [done|]. by intros (? & ?%elem_of_nil & _).
  - rewrite orb_true_iff, IH. split.
    + intros [Hr|(r' & Hr' & Ha)].
      * exists r. split; [by left|]. induction r as [|p r IHr]; [done|].
        simpl in Hr. apply orb_true_iff in Hr as [Hp|Hr].
        -- apply bool_decide_eq_true in Hp as ->. by left.
        -- right. by apply IHr.
      * exists r'. split; [by right|done].
    + intros (r' & [->|Hr']%elem_of_cons & Ha).
      * left. induction r as [|p r IHr]; [by apply elem_of_nil in Ha|].
        simpl. apply orb_true_iff. apply elem_of_cons in Ha as [<-|Ha].
        -- left. by apply bool_decide_eq_true.
        -- right. by apply IHr.
      * right. by exists r'.
Qed.

Lemma all_null_not_referenced a T : all_null T → ¬ referenced a T.
Proof.
  intros Hnull (r & Hr & Ha).
  eapply Forall_forall in Hnull; [|exact Hr].
  eapply Forall_forall in Hnull; [|exact Ha]. done.
Qed.

(** C7.  On a state whose retire list holds allocated nodes, once each,
    scanAndReclaim returns; a node is in the new retire list exactly when it
    was in the old one and some hazard slot holds it; a node of the old
    retire list is freed exactly when no hazard slot holds it, and [delete]
    is called on those nodes only; every other node and every other field is
    untouched.  When every hazard slot is null the new retire list is
    empty. *)
Theorem scanAndReclaim_frees_unreferenced s :
  NoDup (retireList s) →
  (∀ a, a ∈ retireList s → is_Some (heap s !! a)) →
  ∃ s' tr,
    scanAndReclaim s = Returns tt s' tr ∧
    (∀ a, a ∈ retireList s' ↔
          a ∈ retireList s ∧ referenced a (accessedPointers s)) ∧
    (∀ a, a ∈ retireList s →
          (heap s' !! a = None ↔ ¬ referenced a (accessedPointers s)) ∧
          (referenced a (accessedPointers s) → heap s' !! a = heap s !! a)) ∧
    (∀ a, a ∉ retireList s → heap s' !! a = heap s !! a) ∧
    (∀ a, EvDelete a ∈ tr ↔
          a ∈ retireList s ∧ ¬ referenced a (accessedPointers s)) ∧
    (all_null (accessedPointers s) → retireList s' = []) ∧
    accessedPointers s' = accessedPointers s ∧ head s' = head s ∧
    length s' = length s ∧ operationCounter s' = operationCounter s.
Proof.
  intros Hnd Halloc.
  destruct (wp_elim _ _ _
    (wp_scanAndReclaim s (λ _ s' tr, s' = reclaimed s ∧
       tr = EvReclaim :: (EvDelete <$> freed (accessedPointers s) (retireList s)))
       Hnd Halloc (conj eq_refl eq_refl)))
    as ([] & s' & tr & Hrun & -> & ->).
  eexists (reclaimed s), _. split; [exact Hrun|].
  assert (Hkept : ∀ a, a ∈ retireList (reclaimed s) ↔
            a ∈ retireList s ∧ referenced a (accessedPointers s)).
  { intros a. simpl. unfold kept. rewrite list_elem_of_filter, hazarded_referenced.
    naive_solver. }
  split; [exact Hkept|]. split; [|split; [|split; [|split; [|done]]]].
  - intros a Ha. destruct (hazarded a (accessedPointers s)) eqn:Ehz.
    + destruct (reclaimed_kept s a Ha Ehz) as [_ Hlook].
      apply hazarded_referenced in Ehz. split; [|done].
      rewrite Hlook. destruct (Halloc a Ha) as [n ->]. split; [done|]. by intros [].
    + destruct (reclaimed_freed s a Ha Ehz) as [_ Hlook].
      assert (¬ referenced a (accessedPointers s)).
      { rewrite <-hazarded_referenced. congruence. }
      split; [done|]. by intros ?.
  - intros a Ha. by apply reclaimed_other.
  - intros a. rewrite elem_of_cons, list_elem_of_fmap. unfold freed.
    split.
    + intros [?|(a' & [= <-] & [Hn Hin]%list_elem_of_filter)]; [done|].
      split; [done|]. by rewrite <-hazarded_referenced.
    + intros [Hin Hn]. right. exists a. split; [done|].
      apply list_elem_of_filter. split; [|done]. by rewrite hazarded_referenced.
  - intros Hnull. destruct (retireList (reclaimed s)) as [|a r] eqn:E; [done|].
    assert (Ha : a ∈ a :: r) by (by left).
    apply Hkept in Ha as [_ Href]. by apply all_null_not_referenced in Href.
Qed.

Lemma scanAndReclaim_frees_unreferenced_witness :
  ∃ s' tr,
    scanAndReclaim S5 = Returns tt s' tr ∧
    (∀ a, a ∈ retireList s' ↔
          a ∈ retireList S5 ∧ referenced a (accessedPointers S5)) ∧
    (∀ a, a ∈ retireList S5 →
          (heap s' !! a = None ↔ ¬ referenced a (accessedPointers S5)) ∧
          (referenced a (accessedPointers S5) → heap s' !! a = heap S5 !! a)) ∧
    (∀ a, a ∉ retireList S5 → heap s' !! a = heap S5 !! a) ∧
    (∀ a, EvDelete a ∈ tr ↔
          a ∈ retireList S5 ∧ ¬ referenced a (accessedPointers S5)) ∧
    (all_null (accessedPointers S5) → retireList s' = []) ∧
    accessedPointers s' = accessedPointers S5 ∧ head s' = head S5 ∧
    length s' = length S5 ∧ operationCounter s' = operationCounter S5.
Proof.
  apply (scanAndReclaim_frees_unreferenced S5).
  - simpl. apply NoDup_cons. split; [|apply NoDup_singleton].
    intros H%list_elem_of_singleton. discriminate H.
  - simpl. intros a Ha.
    apply elem_of_cons in Ha as [->|Ha]; [by eexists|].
    apply list_elem_of_singleton in Ha as ->. by eexists.
Defined.

(** ** Worker ids outside the table *)

Lemma not_in_range_8 : ¬ in_range 8.
Proof. unfold in_range, MAX_THREADS. lia. Qed.

(** C9, at worker id 8 on a fresh list: insert is not ended by an abort; it
    goes to the store into accessedPointers[8][0], outside the table. *)
Lemma insert_worker_8_not_aborted :
  ¬ in_range 8 ∧
  insert 5 8 new ≠ Fails Terminated ∧
  insert 5 8 new = Fails (Undefined (OutOfBounds 8 0)).
Proof. split; [apply not_in_range_8|]. split; [by vm_compute|by vm_compute]. Qed.

(** C9 as the code has it.  No operation checks its worker id: with a worker
    id outside [0, MAX_THREADS), on any state whose head is allocated, insert,
    remove and contains each reach their first hazard store, the subscript
    accessedPointers[threadID][0] outside the static table (undefined
    behaviour); none is ended by an abort. *)
Theorem worker_id_not_checked s val t :
  is_Some (heap s !! head s) → ¬ in_range t →
  insert val t s = Fails (Undefined (OutOfBounds t 0)) ∧
  remove val t s = Fails (Undefined (OutOfBounds t 0)) ∧
  contains val t s = Fails (Undefined (OutOfBounds t 0)).
Proof.
  intros [nh Hhd] Ht. pose proof (in_table_out t 0 Ht) as Hout.
  unfold insert, remove, contains, fuel_of, bind, gets. simpl.
  unfold insert_attempt, insert_first_hazard, bind, gets, load, storeAccessedPointer.
  rewrite !Hhd, !Hout. done.
Qed.

Lemma worker_id_not_checked_witness :
  insert 5 8 new = Fails (Undefined (OutOfBounds 8 0)) ∧
  remove 5 8 new = Fails (Undefined (OutOfBounds 8 0)) ∧
  contains 5 8 new = Fails (Undefined (OutOfBounds 8 0)).
Proof.
  apply (worker_id_not_checked new 5%Z 8%Z).
  - exists (mkNode (-1) None false). reflexivity.
  - unfold in_range, MAX_THREADS. lia.
Defined.

(** ** Hazard slots and accesses *)

(** Without interference: in a call that runs alone on a well-formed state,
    every node the call reads or writes is the sentinel or is held by one of
    the worker's hazard slots at that moment; in contains it is held by
    slot 0. *)
Lemma accesses_protected_alone s l val t :
  wf s l → in_range t →
  (∃ s' tr, insert val t s = Returns tt s' tr ∧
            Forall (protected (head s) t) tr) ∧
  (∃ b s' tr, remove val t s = Returns b s' tr ∧
              Forall (protected (head s) t) tr) ∧
  (∃ b s' tr, contains val t s = Returns b s' tr ∧
              Forall (protected0 (head s) t) tr).
Proof.
  intros Hwf Ht. repeat split.
  - destruct (wp_elim _ _ _ (wp_insert s l val t Hwf Ht))
      as ([] & s' & tr & Hrun & l1 & l2 & np & _ & _ & _ & _ & _ & _ & Hprot & _).
    by exists s', tr.
  - destruct (wp_elim _ _ _ (wp_remove s l val t Hwf Ht))
      as (b & s' & tr & Hrun & l1 & l2 & np & _ & _ & _ & _ & _ & Hprot & _).
    by exists b, s', tr.
  - destruct (wp_elim _ _ _
      (wp_contains s l val t (wf_chain _ _ Hwf) (wf_shape _ _ Hwf) Ht))
      as (b & s' & tr & Hrun & _ & _ & Hprot & _).
    by exists b, s', tr.
Qed.

(** C8, with another worker running between the two reads of [pred->next]
    in insert (source lines 70 and 71).  The list holds key 5.  Worker 0
    calls insert(9, 0) and publishes [head->next], the node with key 5;
    worker 1's insert(3, 1) then runs to completion; worker 0 reads
    [head->next] again, gets the node with key 3, and dereferences it while
    its hazard slots hold the node with key 5 and null. *)
Theorem insert_dereferences_unpublished_node :
  ∃ log s0 t0 pred s1 t1 s2 tB b s3 t2 node hz,
    run [Insert 5 0] new = Returns log s0 t0 ∧
    insert_first_hazard 0 s0 = Returns pred s1 t1 ∧
    insert 3 1 s1 = Returns tt s2 tB ∧
    insert_after_first_hazard (fuel_of s0) 9 0 pred s2 = Returns b s3 t2 ∧
    t2 !! 1%nat = Some (EvAccess node hz) ∧
    key (heap s2) node = 3%Z ∧
    node ≠ head s0 ∧
    row hz 0 = [Some 2%positive; None] ∧
    (Some node ∉ row hz 0) ∧
    ¬ Forall (protected (head s0) 0) (t1 ++ t2).
Proof.
  eexists _, _, _, _, _, _, _, _, _, _, _, _, _.
  split; [vm_compute; reflexivity|].
  split; [vm_compute; reflexivity|].
  split; [vm_compute; reflexivity|].
  split; [vm_compute; reflexivity|].
  split; [vm_compute; reflexivity|].
  split; [vm_compute; reflexivity|].
  split; [by vm_compute|].
  split; [vm_compute; reflexivity|].
  assert (Hnot : Some 3%positive ∉ [Some 2%positive; None]).
  { intros [H|[H|H%elem_of_nil]%elem_of_cons]%elem_of_cons; done. }
  split; [exact Hnot|].
  intros Hall. apply Forall_app in Hall as [_ Hall].
  eapply (Forall_lookup_1 _ _ 1%nat) in Hall; [|reflexivity].
  simpl in Hall. destruct Hall as [H|H]; [done|]. by apply Hnot.
Qed.

(** ** The reclamation trigger along a run *)

Lemma since_reclaim_snoc log e :
  since_reclaim (log ++ [e]) =
  (if reclaims e then 0
   else if is_insert e || is_removal e then since_reclaim log + 1
   else since_reclaim log)%Z.
Proof. unfold since_reclaim. by rewrite fold_left_app. Qed.

Lemma reclaims_spec c r tr : reclaims (c, r, tr) = true ↔ EvReclaim ∈ tr.
Proof.
  unfold reclaims. simpl. induction tr as [|e tr IH]; simpl.
  - split; [done|]. by intros ?%elem_of_nil.
  - rewrite orb_true_iff, IH, elem_of_cons. split.
    + intros [He|?]; [left; by destruct e|by right].
    + intros [<-|?]; [by left|by right].
Qed.

Lemma since_reclaim_nonneg log : (0 ≤ since_reclaim log)%Z.
Proof.
  induction log as [|e log IH] using rev_ind; [done|].
  rewrite since_reclaim_snoc.
  destruct (reclaims e); [done|]. destruct (is_insert e || is_removal e); lia.
Qed.

Lemma operationCounter_bumped s :
  operationCounter (bumped s) =
  if fires s
  then wrap_int (wrap_int (operationCounter s + 1) + - length s)
  else wrap_int (operationCounter s + 1).
Proof. unfold bumped. by destruct (fires s). Qed.

Lemma retireList_bumped s :
  retireList (bumped s) =
  if fires s then kept (accessedPointers s) (retireList s) else retireList s.
Proof. unfold bumped. by destruct (fires s). Qed.

Lemma accessedPointers_bumped s : accessedPointers (bumped s) = accessedPointers s.
Proof. unfold bumped. by destruct (fires s). Qed.

Lemma all_null_cleared T t : all_null T → all_null (cleared T t).
Proof.
  intros H. unfold cleared. apply Forall_insert; [done|]. by repeat constructor.
Qed.

Lemma kept_all_null T l : all_null T → kept T l = [].
Proof.
  intros Hnull. unfold kept. induction l as [|a l IH]; [done|].
  rewrite filter_cons. destruct (decide _) as [Hhz|]; [|done].
  apply hazarded_referenced in Hhz. by apply all_null_not_referenced in Hhz.
Qed.

Lemma all_null_new : all_null (accessedPointers new).
Proof. by repeat constructor. Qed.

(** The arithmetic of the trigger while nothing overflows. *)
Lemma fires_small oc len :
  (0 ≤ oc < INT_MAX)%Z → (0 ≤ len ≤ INT_MAX)%Z →
  (wrap_int (oc + 1) >=? len)%Z = (len <=? oc + 1)%Z ∧
  wrap_int (oc + 1) = (oc + 1)%Z ∧
  ((len ≤ oc + 1)%Z →
   wrap_int (wrap_int (oc + 1) + - len) = (oc + 1 - len)%Z).
Proof.
  intros Hoc Hlen. unfold INT_MAX in *.
  rewrite (wrap_int_small (oc + 1)) by (unfold INT_MIN, INT_MAX; lia).
  split; [by rewrite Z.geb_leb|]. split; [done|].
  intros Hle. rewrite wrap_int_small by (unfold INT_MIN, INT_MAX; lia). lia.
Qed.

Lemma run_length cs : ∀ s log s' tr,
  run cs s = Returns log s' tr → List.length log = List.length cs.
Proof.
  induction cs as [|c cs IH]; intros s log s' tr; simpl.
  - by intros [= <- _ _].
  - unfold bind at 1. unfold listen.
    destruct (exec c s) as [r s1 t1|]; [|done]. simpl. unfold bind at 1.
    destruct (run cs s1) as [log1 s2 t2|] eqn:E; [|done]. simpl.
    intros [= <- _ _]. simpl. f_equal. by eapply IH.
Qed.

Lemma counting_step log s l σ c r tr l' δ :
  counters_ok log s l →
  (Z.of_nat (List.length log) + 1 ≤ INT_MAX)%Z →
  is_insert (c, r, tr) || is_removal (c, r, tr) = true →
  all_null (accessedPointers σ) →
  (δ = 1 ∨ δ = -1)%Z →
  Z.of_nat (List.length l') = (Z.of_nat (List.length l) + δ)%Z →
  length σ = wrap_int (length s + δ) →
  operationCounter σ = operationCounter s →
  (Z.of_nat (List.length (retireList σ))
   ≤ Z.of_nat (List.length (retireList s)) + 1)%Z →
  (EvReclaim ∈ tr ↔ fires σ = true) →
  counters_ok (log ++ [(c, r, tr)]) (bumped σ) l'.
Proof.
  intros (Hnull & Hlen & Hl & Hoc & Hsince & Hlt & Hret) Hbound Hcounts Hnullσ
    Hδ Hl' Hlenσ Hocσ Hretσ Hfire.
  pose proof (since_reclaim_nonneg log) as Hs0.
  assert (Hlenσ' : length σ = Z.of_nat (List.length l')).
  { rewrite Hlenσ, Hlen, wrap_int_small; [lia|]. unfold INT_MIN, INT_MAX in *. lia. }
  destruct (fires_small (operationCounter s) (length σ)) as (Hgeb & Hoc1 & Hsub);
    [lia|lia|].
  assert (Hrec : reclaims (c, r, tr) = fires σ).
  { destruct (fires σ) eqn:E.
    - apply reclaims_spec, Hfire. done.
    - destruct (reclaims (c, r, tr)) eqn:E'; [|done].
      apply reclaims_spec, Hfire in E'. done. }
  unfold counters_ok.
  rewrite accessedPointers_bumped, length_bumped, operationCounter_bumped,
    retireList_bumped, since_reclaim_snoc, Hrec, Hcounts, length_app.
  unfold fires in *. rewrite Hocσ, Hgeb in *. simpl List.length.
  destruct (Z.leb_spec (length σ) (operationCounter s + 1)) as [Hle|Hgt].
  - rewrite Hsub by done. rewrite (kept_all_null _ _ Hnullσ). simpl.
    repeat split; try done; lia.
  - rewrite Hoc1. repeat split; try done; lia.
Qed.

Lemma idle_step log s l s' c r tr :
  counters_ok log s l →
  is_insert (c, r, tr) || is_removal (c, r, tr) = false →
  EvReclaim ∉ tr →
  all_null (accessedPointers s') →
  length s' = length s → operationCounter s' = operationCounter s →
  retireList s' = retireList s →
  counters_ok (log ++ [(c, r, tr)]) s' l.
Proof.
  intros (Hnull & Hlen & Hl & Hoc & Hsince & Hlt & Hret) Hcounts Hsil Hnull'
    Hlen' Hoc' Hret'.
  assert (Hrec : reclaims (c, r, tr) = false).
  { destruct (reclaims (c, r, tr)) eqn:E; [|done]. by apply reclaims_spec in E. }
  unfold counters_ok.
  rewrite Hlen', Hoc', Hret', since_reclaim_snoc, Hrec, Hcounts, length_app.
  simpl List.length. repeat split; try done; lia.
Qed.

Lemma counters_ok_step log s l c r s' l' tr :
  wf s l → counters_ok log s l →
  (Z.of_nat (List.length log) + 1 ≤ INT_MAX)%Z →
  effect c s l r s' l' tr →
  counters_ok (log ++ [(c, r, tr)]) s' l'.
Proof.
  intros Hwf Hok Hbound Heff.
  pose proof Hok as (Hnull & _).
  destruct c as [v t|v t|v t|]; simpl in Heff.
  - destruct Heff as (-> & l1 & l2 & np & -> & _ & _ & _ & _ & -> & -> & Hfire).
    eapply counting_step with (s := s) (l := l1 ++ l2) (δ := 1%Z); try done.
    + by apply all_null_cleared.
    + by left.
    + rewrite !length_app. simpl. lia.
    + simpl. lia.
  - destruct Heff as (l1 & l2 & np & -> & _ & _ & _ & Hcase).
    destruct (target (heap s) v l2) as [c|].
    + destruct Hcase as (nc & l3 & -> & _ & -> & -> & -> & Hfire).
      eapply counting_step with (s := s) (l := l1 ++ c :: l3) (δ := (-1)%Z);
        try done.
      * by apply all_null_cleared.
      * by right.
      * rewrite !length_app. simpl. lia.
      * simpl. rewrite length_app. simpl. lia.
    + destruct Hcase as (-> & -> & -> & Hsil).
      apply idle_step with (s := s); try done. by apply all_null_cleared.
  - destruct Heff as (-> & -> & -> & Hsil).
    apply idle_step with (s := s); try done. by apply all_null_cleared.
  - destruct Heff as (-> & -> & -> & Hin).
    destruct Hok as (_ & Hlen & Hl & Hoc & Hsince & Hlt & Hret).
    assert (Hrec : reclaims (ScanAndReclaim, RUnit, tr) = true)
      by (by apply reclaims_spec).
    unfold counters_ok. rewrite since_reclaim_snoc, Hrec, length_app.
    simpl. rewrite (kept_all_null _ _ Hnull). simpl.
    repeat split; try done; lia.
Qed.

(** C10 as the code has it.  In every run of at most INT_MAX calls (valid
    worker ids) on a fresh list, after the last call (hence after each call):
    operationCounter is non-negative, also right after a reclaim pass; the
    number of inserts and successful removes completed since the last reclaim
    pass is at most operationCounter and, when it is positive, below length
    together with operationCounter; the retire list holds at most that many
    nodes. *)
Theorem operationCounter_within_int cs :
  Forall valid_call cs →
  (Z.of_nat (List.length cs) ≤ INT_MAX)%Z →
  ∃ log s' tr,
    run cs new = Returns log s' tr ∧
    (0 ≤ operationCounter s')%Z ∧
    (since_reclaim log ≤ operationCounter s')%Z ∧
    ((0 < since_reclaim log)%Z →
     (operationCounter s' < length s')%Z ∧ (since_reclaim log < length s')%Z) ∧
    (Z.of_nat (List.length (retireList s')) ≤ since_reclaim log)%Z.
Proof.
  intros Hcs Hbound.
  destruct (run_invariant
    (λ log s l, (Z.of_nat (List.length log) ≤ INT_MAX)%Z → counters_ok log s l)
    valid_call) with (cs := cs)
    as (log & s' & tr & l & Hrun & Hwf & Hok); try done.
  - intros _. unfold counters_ok. simpl.
    split; [apply all_null_new|]. repeat split; done.
  - intros log s l c r s' l' tr Hwf Hok Hc _ Heff Hb.
    rewrite length_app in Hb. simpl in Hb.
    apply counters_ok_step with (s := s) (l := l); try done; [|lia].
    apply Hok. lia.
  - rewrite <-(run_length _ _ _ _ _ Hrun) in Hbound.
    destruct (Hok Hbound) as (_ & _ & _ & Hoc & Hsince & Hlt & Hret).
    exists log, s', tr. split; [done|]. split; [lia|]. split; [done|].
    split; [|done]. intros Hpos. specialize (Hlt Hpos). lia.
Qed.

Lemma operationCounter_within_int_witness :
  Forall valid_call S1 ∧ (Z.of_nat (List.length S1) ≤ INT_MAX)%Z ∧
  ∃ log s' tr,
    run S1 new = Returns log s' tr ∧
    (0 ≤ operationCounter s')%Z ∧
    (since_reclaim log ≤ operationCounter s')%Z ∧
    ((0 < since_reclaim log)%Z →
     (operationCounter s' < length s')%Z ∧ (since_reclaim log < length s')%Z) ∧
    (Z.of_nat (List.length (retireList s')) ≤ since_reclaim log)%Z.
Proof.
  assert (H : Forall valid_call S1).
  { unfold S1, inserts. simpl. repeat (constructor; [apply in_range_0|]). constructor. }
  assert (Hb : (Z.of_nat (List.length S1) ≤ INT_MAX)%Z) by (by vm_compute).
  split; [exact H|]. split; [exact Hb|].
  apply (operationCounter_within_int S1 H Hb).
Defined.

(** ** Overflow of operationCounter *)

Lemma drained_new : drained 0 new.
Proof. split; [apply wf_new|]. split; [apply all_null_new|]. done. Qed.

(** Insert into an empty list: the trigger fires while the counter is below
    INT_MAX and the counter comes back to [k]. *)
Lemma drained_insert k s :
  drained k s → (0 ≤ k)%Z →
  ∃ s1 t1,
    exec (Insert 0 0) s = Returns RUnit s1 t1 ∧
    wf s1 [brk s] ∧ key (heap s1) (brk s) = 0%Z ∧
    all_null (accessedPointers s1) ∧ length s1 = 1%Z ∧ retireList s1 = [] ∧
    operationCounter s1 =
      if (wrap_int (k + 1) >=? 1)%Z then wrap_int (wrap_int (k + 1) + - (1))
      else wrap_int (k + 1).
Proof.
  intros (Hwf & Hnull & Hlen & Hoc & Hret) Hk.
  destruct (exec_effect s [] (Insert 0 0) Hwf in_range_0)
    as (r & s1 & t1 & l' & Hrun & Heff).
  pose proof (effect_wf _ _ _ _ _ _ _ Hwf Heff) as Hwf1.
  pose proof (effect_keys _ _ _ _ _ _ _ Hwf Heff) as (_ & _ & Hkeys).
  simpl in Heff. destruct Heff as (-> & l1 & l2 & np & Hl & _ & _ & _ & _ & -> & -> & _).
  symmetry in Hl. apply app_eq_nil in Hl as [-> ->].
  eexists _, t1. split; [exact Hrun|]. split; [exact Hwf1|].
  split; [by injection Hkeys|].
  rewrite accessedPointers_bumped, length_bumped, retireList_bumped,
    operationCounter_bumped.
  unfold fires. cbn [linked accessedPointers length retireList operationCounter].
  rewrite Hlen, Hoc, Hret. change (wrap_int (0 + 1)) with 1%Z.
  split; [by apply all_null_cleared|]. split; [done|].
  split; [by destruct (_ >=? _)%Z|done].
Qed.

(** Remove of the only key: the trigger fires (length is 0) and the counter
    moves to [wrap_int (k + 1)]. *)
Lemma drained_remove k s a :
  wf s [a] → key (heap s) a = 0%Z →
  all_null (accessedPointers s) → length s = 1%Z → retireList s = [] →
  operationCounter s = k → (0 ≤ k < INT_MAX)%Z →
  ∃ s2 t2,
    exec (Remove 0 0) s = Returns (RBool true) s2 t2 ∧ drained (k + 1) s2.
Proof.
  intros Hwf Hkey Hnull Hlen Hret Hoc Hk.
  destruct (exec_effect s [a] (Remove 0 0) Hwf in_range_0)
    as (r & s2 & t2 & l' & Hrun & Heff).
  pose proof (effect_wf _ _ _ _ _ _ _ Hwf Heff) as Hwf2.
  simpl in Heff. destruct Heff as (l1 & l2 & np & Hl & Hl1 & _ & _ & Hcase).
  destruct l1 as [|a' l1].
  2: { injection Hl as <- _. apply Forall_cons in Hl1 as [Hlt _]. lia. }
  simpl in Hl. subst l2. simpl in Hcase. rewrite Hkey in Hcase. simpl in Hcase.
  destruct Hcase as (nc & l3 & [= <-] & Hnc & -> & -> & -> & _).
  eexists _, t2. split; [exact Hrun|]. split; [exact Hwf2|].
  rewrite accessedPointers_bumped, length_bumped, retireList_bumped,
    operationCounter_bumped.
  unfold fires. cbn [unlinked accessedPointers length retireList operationCounter].
  rewrite Hlen, Hoc, Hret. change (wrap_int (1 + -1)) with 0%Z.
  destruct (fires_small k 0) as (Hgeb & Hoc1 & Hsub); [lia|unfold INT_MAX; lia|].
  rewrite Hgeb. destruct (Z.leb_spec 0 (k + 1)); [|lia].
  split; [by apply all_null_cleared|]. split; [done|].
  split; [rewrite Hsub by lia; lia|].
  apply kept_all_null. by apply all_null_cleared.
Qed.

Lemma ping_pong_S k :
  ping_pong (S k) = (ping_pong k ++ [Insert 0 0]) ++ [Remove 0 0].
Proof.
  unfold ping_pong. rewrite replicate_S_end, concat_app. simpl.
  by rewrite <-app_assoc.
Qed.

Lemma ping_pong_drained k :
  (Z.of_nat k ≤ INT_MAX)%Z →
  ∃ log s' tr,
    run (ping_pong k) new = Returns log s' tr ∧ drained (Z.of_nat k) s'.
Proof.
  induction k as [|k IH]; intros Hk.
  - exists [], new, []. split; [done|apply drained_new].
  - destruct IH as (log & s0 & t0 & Hrun & Hdr); [lia|].
    destruct (drained_insert _ _ Hdr) as (s1 & t1 & Hins & Hwf1 & Hkey & Hnull1 & Hlen1 & Hret1 & Hoc1);
      [lia|].
    destruct (fires_small (Z.of_nat k) 1) as (Hgeb & Hw & Hsub);
      [lia|unfold INT_MAX; lia|].
    rewrite Hgeb in Hoc1. destruct (Z.leb_spec 1 (Z.of_nat k + 1)); [|lia].
    rewrite Hsub in Hoc1 by lia.
    destruct (drained_remove (Z.of_nat k) s1 (brk s0)) as (s2 & t2 & Hrem & Hdr2);
      try done; [lia|lia|].
    exists ((log ++ [(Insert 0 0, RUnit, t1)]) ++ [(Remove 0 0, RBool true, t2)]),
      s2, ((t0 ++ t1) ++ t2).
    split.
    + by rewrite ping_pong_S, run_snoc, run_snoc, Hrun, Hins, Hrem.
    + replace (Z.of_nat (S k)) with (Z.of_nat k + 1)%Z by lia. done.
Qed.

Lemma INT_MAX_rounds_spec : Z.of_nat INT_MAX_rounds = INT_MAX.
Proof. unfold INT_MAX_rounds. apply Z2Nat.id. unfold INT_MAX. lia. Qed.

Global Opaque INT_MAX_rounds.

(** After 2^31 - 1 rounds of insert(0, 0), remove(0, 0) on a fresh list and
    one more insert(0, 0), the last insert completes and leaves
    operationCounter at INT_MIN; its trigger did not fire. *)
Lemma ping_pong_overflow :
  ∃ log s' t r tr,
    run (ping_pong INT_MAX_rounds ++ [Insert 0 0]) new =
      Returns (log ++ [(Insert 0 0, r, tr)]) s' t ∧
    operationCounter s' = INT_MIN ∧
    (operationCounter s' < 0)%Z ∧
    (EvReclaim ∉ tr).
Proof.
  destruct (ping_pong_drained INT_MAX_rounds) as (log & s0 & t0 & Hrun & Hdr).
  { rewrite INT_MAX_rounds_spec. lia. }
  rewrite INT_MAX_rounds_spec in Hdr.
  pose proof Hdr as (Hwf & Hnull & Hlen & Hoc & Hret).
  destruct (exec_effect s0 [] (Insert 0 0) Hwf in_range_0)
    as (r & s1 & t1 & l' & Hex & Heff).
  exists log, s1, (t0 ++ t1), r, t1.
  split; [by rewrite run_snoc, Hrun, Hex|].
  simpl in Heff.
  destruct Heff as (-> & l1 & l2 & np & Hl & _ & _ & _ & _ & -> & -> & Hfire).
  symmetry in Hl. apply app_eq_nil in Hl as [-> ->].
  assert (Hnofire : fires (linked s0 (List.last [] (head s0)) np (first []) 0 0) = false).
  { unfold fires. cbn [linked length operationCounter]. rewrite Hlen, Hoc.
    by vm_compute. }
  rewrite operationCounter_bumped, Hnofire.
  cbn [linked operationCounter]. rewrite Hoc.
  split; [by vm_compute|]. split; [by vm_compute|].
  intros Hin. apply Hfire in Hin. congruence.
Qed.

(** C10 fails in two ways.  (1) In the sequential run of 2^31 - 1 rounds of
    insert(0, 0), remove(0, 0) followed by insert(0, 0), the last insert
    completes with operationCounter = INT_MIN, which is negative.  (2) After
    insert 1, 2, 3 the list has length 3, and none of the next three inserts
    (4, 5, 6) runs a reclaim pass: the trigger does not fire once per
    [length] operations. *)
Lemma operationCounter_claim_fails :
  (∃ log s' t r tr,
     run (ping_pong INT_MAX_rounds ++ [Insert 0 0]) new =
       Returns (log ++ [(Insert 0 0, r, tr)]) s' t ∧
     (operationCounter s' < 0)%Z) ∧
  (∃ log3 s3 t3 log6 s6 t6,
     run (inserts [1; 2; 3]%Z 0) new = Returns log3 s3 t3 ∧
     length s3 = 3%Z ∧
     run (inserts [4; 5; 6]%Z 0) s3 = Returns log6 s6 t6 ∧
     reclaims <$> log6 = [false; false; false]).
Proof.
  split.
  - destruct ping_pong_overflow as (log & s' & t & r & tr & Hrun & _ & Hneg & _).
    exists log, s', t, r, tr. split; [exact Hrun|exact Hneg].
  - eexists _, _, _, _, _, _.
    split; [vm_compute; reflexivity|]. split; [vm_compute; reflexivity|].
    split; vm_compute; reflexivity.
Qed.

(** ** Reachable states *)

(** Every state a sequence of valid calls leads to from a fresh list
    satisfies the representation invariant, with its keys in order. *)
Lemma reachable_Inv cs log s tr :
  Forall valid_call cs → run cs new = Returns log s tr → ∃ l, Inv s l.
Proof.
  intros Hcs Hrun.
  destruct (run_invariant (λ _ s l, StronglySorted Z.le (keys (heap s) l))
              valid_call) with (cs := cs)
    as (log' & s' & tr' & l & Hrun' & Hwf & Hsorted); try done.
  - constructor.
  - intros log0 s0 l0 c r s1 l1 t1 Hwf0 Hs0 _ _ Heff.
    by apply (effect_Inv c s0 l0 r s1 l1 t1).
  - rewrite Hrun in Hrun'. injection Hrun' as <- <- <-. by exists l.
Qed.

(** A key below the sentinel's breaks checkList: after insert(-5, 0) on a
    fresh list it returns false. *)
Example checkList_key_below_sentinel :
  ∃ log s' tr tr',
    run [Insert (-5) 0] new = Returns log s' tr ∧
    checkList s' = Returns false s' tr'.
Proof.
  eexists _, _, _, _. split; [vm_compute; reflexivity|]. vm_compute; reflexivity.
Qed.

(** * More properties of the operations *)

Lemma holds_stop_node s l v :
  wf s l → StronglySorted Z.le (keys (heap s) l) →
  holds (heap s) v (stop_node (heap s) v l) = bool_decide (v ∈ keys (heap s) l).
Proof.
  intros Hwf. assert (Hlive : ∀ a, a ∈ l → ∃ n, heap s !! a = Some n ∧ removed n = false).
  { intros a Ha.
    destruct (seg_allocated _ _ _ _ a (wf_chain _ _ Hwf)) as [n Hn]; [by right|].
    exists n. split; [done|]. eapply wf_live; eauto. by right. }
  clear Hwf. induction l as [|a l IH]; intros Hs; [done|].
  simpl in Hs. apply StronglySorted_inv in Hs as [Hs Hall].
  unfold stop_node. simpl.
  destruct (Z.leb_spec v (key (heap s) a)) as [Hle|Hlt].
  - destruct (Hlive a) as (n & Hn & Hr); [by left|].
    simpl. rewrite Hn, Hr. simpl.
    assert (Hk : key (heap s) a = value n) by (unfold key; by rewrite Hn).
    rewrite Hk in *.
    destruct (Z.eqb_spec (value n) v) as [<-|Hne].
    + symmetry. apply bool_decide_eq_true. left.
    + symmetry. apply bool_decide_eq_false.
      intros [->|Hin]%elem_of_cons; [done|].
      rewrite Forall_forall in Hall. specialize (Hall _ Hin). lia.
  - fold (stop_node (heap s) v l). rewrite IH; [|intros b Hb; apply Hlive; by right|done].
    apply bool_decide_ext. rewrite elem_of_cons. split; [by right|].
    intros [->|?]; [lia|done].
Qed.

Lemma effect_model_ret c s l r s' l' tr :
  Inv s l → effect c s l r s' l' tr → r = model_ret c (keys (heap s) l).
Proof.
  intros [Hwf Hs] He. destruct c as [v t|v t|v t|]; simpl.
  - by destruct He as [-> _].
  - rewrite (effect_remove_result _ _ _ _ _ _ _ _ He). f_equal.
    apply bool_decide_ext. by apply take_out_Some_iff.
  - destruct He as (-> & _). f_equal. by apply holds_stop_node.
  - by destruct He as [-> _].
Qed.

Lemma run_cons c cs s :
  run (c :: cs) s =
  match exec c s with
  | Returns r s1 t1 =>
      match run cs s1 with
      | Returns log s2 t2 => Returns ((c, r, t1) :: log) s2 (t1 ++ t2)
      | Fails e => Fails e
      end
  | Fails e => Fails e
  end.
Proof.
  simpl. unfold bind, listen. destruct (exec c s) as [r s1 t1|]; [|done].
  destruct (run cs s1) as [log s2 t2|]; [|done].
  unfold ret. simpl. by rewrite app_nil_r.
Qed.

Lemma printList_keys s l :
  wf s l → ∃ tr, printList s = Returns (keys (heap s) l) s tr.
Proof.
  intros Hwf.
  destruct (wp_elim _ _ _
    (wp_printList s l (λ out s' _, out = visible (heap s) l ∧ s' = s)
       (wf_chain _ _ Hwf) (λ _, conj eq_refl eq_refl)))
    as (out & s' & tr & Hp & -> & ->).
  exists tr. by rewrite <-(visible_wf _ _ Hwf).
Qed.

Lemma run_model cs : ∀ s l,
  Inv s l → Forall valid_call cs →
  ∃ log s' tr l' tr',
    run cs s = Returns log s' tr ∧
    log.*1.*1 = cs ∧
    log.*1.*2 = (model_run cs (keys (heap s) l)).1 ∧
    Inv s' l' ∧
    keys (heap s') l' = (model_run cs (keys (heap s) l)).2 ∧
    StronglySorted Z.le (model_run cs (keys (heap s) l)).2 ∧
    printList s' = Returns (model_run cs (keys (heap s) l)).2 s' tr'.
Proof.
  induction cs as [|c cs IH]; intros s l HI Hcs.
  - destruct (printList_keys s l (proj1 HI)) as [tr' Hp].
    exists [], s, [], l, tr'. simpl. by destruct HI.
  - apply Forall_cons in Hcs as [Hc Hcs].
    destruct (exec_effect s l c (proj1 HI) Hc) as (r & s1 & t1 & l1 & He & Heff).
    pose proof (effect_Inv _ _ _ _ _ _ _ HI Heff) as HI1.
    pose proof (effect_model_ret _ _ _ _ _ _ _ HI Heff) as Hr.
    destruct (effect_keys _ _ _ _ _ _ _ (proj1 HI) Heff) as (_ & _ & Hk).
    destruct (IH s1 l1 HI1 Hcs) as (log & s' & tr & l' & tr' & Hrun & Hcalls & Hrets & HI' & Hk' & Hs' & Hp).
    exists ((c, r, t1) :: log), s', (t1 ++ tr), l', tr'.
    rewrite run_cons, He, Hrun. simpl.
    rewrite Hk in *. destruct (model_run cs _) as [rs ks'] eqn:E. simpl in *.
    split; [done|]. split; [f_equal; exact Hcalls|].
    split; [f_equal; [exact Hr|exact Hrets]|]. done.
Qed.

(** ** The parts of an attempt, put together *)

Lemma insert_after_first_hazard_parts fuel val t pred :
  insert_after_first_hazard fuel val t pred =
  let* h' := load pred in insert_from_curr fuel val t pred (next h').
Proof. reflexivity. Qed.

Lemma bind_assoc {A B C} (m : M A) (f : A → M B) (g : B → M C) s :
  bind (bind m f) g s = bind m (λ x, bind (f x) g) s.
Proof.
  unfold bind. destruct (m s) as [a s1 t1|]; [|done].
  destruct (f a s1) as [b s2 t2|]; [|done].
  destruct (g b s2); [|done]. by rewrite app_assoc.
Qed.

Lemma bind_ext {A B} (m : M A) (f g : A → M B) s :
  (∀ a s', f a s' = g a s') → bind m f s = bind m g s.
Proof. intros H. unfold bind. destruct (m s); [|done]. by rewrite H. Qed.

Lemma bind_ret_l {A B} (a : A) (f : A → M B) s : bind (ret a) f s = f a s.
Proof. unfold bind, ret. by destruct (f a s). Qed.

Ltac bind_step := rewrite bind_assoc; apply bind_ext; intros ? ?.

Lemma remove_loop_parts attempts fuel val t s :
  remove_loop (S attempts) fuel val t s =
  (let* (pred, curr) := remove_find fuel val t in
   remove_resume attempts fuel val t pred curr) s.
Proof.
  cbn [remove_loop]. unfold remove_find, remove_resume. symmetry.
  do 4 bind_step. apply bind_ext. intros [pred curr] ?.
  unfold remove_locked. do 3 bind_step.
  match goal with |- context [negb ?b] => destruct b end; cbn [negb].
  - bind_step. match goal with a : option addr |- _ => destruct a as [c|] end.
    + do 8 bind_step. rewrite bind_assoc. apply bind_ext. intros ? ?.
      by rewrite bind_ret_l.
    + do 2 bind_step. rewrite bind_assoc. apply bind_ext. intros ? ?.
      by rewrite bind_ret_l.
  - do 2 bind_step. rewrite bind_assoc. apply bind_ext. intros ? ?.
    by rewrite bind_ret_l.
Qed.

(** ** validate and the locked part of insert *)

Lemma wp_validate_any pred curr np s (Q : bool → state → list event → Prop) :
  heap s !! pred = Some np →
  (∀ c, curr = Some c → is_Some (heap s !! c)) →
  (∀ tr,
     Forall (λ e, e = EvAccess pred (accessedPointers s) ∨
                  ∃ c, curr = Some c ∧ e = EvAccess c (accessedPointers s)) tr →
     Q (validated (heap s) pred curr) s tr) →
  wp (validate pred curr) s Q.
Proof.
  intros Hp Hcurr HQ. unfold validate, validated in *. rewrite Hp in HQ.
  apply wp_bind. eapply wp_load; [done|].
  destruct (removed np); simpl in *.
  { apply wp_ret. apply HQ. constructor; [by left|constructor]. }
  apply wp_bind. destruct curr as [c|].
  - destruct (Hcurr c eq_refl) as [nc Hc]. rewrite Hc in HQ. simpl in HQ.
    apply wp_bind. eapply wp_load; [done|]. apply wp_ret.
    destruct (removed nc); simpl in *.
    { apply wp_ret. apply HQ.
      constructor; [by left|]. constructor; [right; eauto|constructor]. }
    apply wp_bind. eapply wp_load; [done|]. apply wp_ret. apply HQ.
    constructor; [by left|]. constructor; [right; eauto|].
    constructor; [by left|]. constructor.
  - apply wp_ret. apply wp_bind. eapply wp_load; [done|]. apply wp_ret.
    apply HQ. constructor; [by left|]. constructor; [by left|]. constructor.
Qed.

Lemma lock_events_app t1 t2 :
  lock_events (t1 ++ t2) = lock_events t1 ++ lock_events t2.
Proof. apply List.filter_app. Qed.

Lemma lock_events_silent tr :
  Forall (λ e, is_lock_event e = false) tr → lock_events tr = [].
Proof.
  induction 1 as [|e tr He _ IH]; [done|].
  unfold lock_events in *. simpl. by rewrite He.
Qed.

Lemma lock_events_bump (b : bool) (l : list addr) :
  lock_events (if b then EvReclaim :: (EvDelete <$> l) else []) = [].
Proof.
  apply lock_events_silent. destruct b; [|constructor].
  constructor; [done|]. by apply Forall_fmap, Forall_true.
Qed.

Lemma lock_events_cons e tr :
  lock_events (e :: tr) =
  if is_lock_event e then e :: lock_events tr else lock_events tr.
Proof. done. Qed.

Ltac lock_norm :=
  repeat first [ rewrite lock_events_app
               | rewrite lock_events_cons; cbn [is_lock_event] ];
  cbn [app].

Lemma wp_lock_if curr s (Q : unit → state → list event → Prop) :
  (∀ c, curr = Some c → is_Some (heap s !! c)) →
  Q tt s (match curr with Some c => [EvLock c] | None => [] end) →
  wp (lock_if curr) s Q.
Proof.
  intros Hc HQ. destruct curr as [c|]; simpl; [|by apply wp_ret].
  apply wp_lock; eauto.
Qed.

Lemma wp_unlock_if curr s (Q : unit → state → list event → Prop) :
  (∀ c, curr = Some c → is_Some (heap s !! c)) →
  Q tt s (match curr with Some c => [EvUnlock c] | None => [] end) →
  wp (unlock_if curr) s Q.
Proof.
  intros Hc HQ. destruct curr as [c|]; simpl; [|by apply wp_ret].
  apply wp_unlock; eauto.
Qed.

Lemma wp_insert_locked s l val t pred curr np :
  wf s l → in_range t → heap s !! pred = Some np →
  (∀ c, curr = Some c → is_Some (heap s !! c)) →
  wp (insert_locked val t pred curr) s (λ b s' tr,
    b = validated (heap s) pred curr ∧
    lock_events tr = window_locks (pred, curr) ∧
    if b then
      s' = bumped (linked s pred np curr val t) ∧
      (EvReclaim ∈ tr ↔ fires (linked s pred np curr val t) = true)
    else
      s' = set_accessedPointers (cleared (accessedPointers s) t) s ∧
      EvReclaim ∉ tr).
Proof.
  intros Hwf Ht Hnp Hcurr. unfold insert_locked.
  assert (Hfresh : heap s !! brk s = None) by (by eapply wf_fresh).
  assert (Hpb : pred ≠ brk s) by (intros E; rewrite E in Hnp; congruence).
  apply wp_bind, wp_lock; [by eexists|].
  apply wp_bind, wp_lock_if; [done|].
  apply wp_bind. eapply wp_validate_any; [done..|].
  intros trv Htrv.
  assert (Hsil_v : EvReclaim ∉ trv).
  { eapply Forall_not_reclaim; [exact Htrv|]. by intros e [->|(c & _ & ->)]. }
  assert (Hlk_v : lock_events trv = []).
  { apply lock_events_silent. eapply Forall_impl; [exact Htrv|].
    by intros e [->|(c & _ & ->)]. }
  destruct (validated (heap s) pred curr) eqn:Hv; cbn [negb].
  - apply wp_bind. unfold wp at 1. simpl.
    apply wp_bind. eapply wp_store; [simpl; by rewrite lookup_insert_ne|]. simpl.
    apply wp_bind, wp_unlock_if.
    { intros c Hc. simpl. destruct (Hcurr c Hc) as [nc Hnc].
      destruct (decide (c = pred)) as [->|?];
        [rewrite lookup_insert_eq|rewrite lookup_insert_ne by done]; [by eexists|].
      rewrite lookup_insert_ne by (intros E; rewrite <-E in Hnc; congruence).
      by eexists. }
    apply wp_bind, wp_unlock; [simpl; rewrite lookup_insert_eq; by eexists|].
    apply wp_bind, wp_resetAccessedPointer; [done|]. simpl.
    rewrite (cleared_publish (accessedPointers s) (accessedPointers s) t Ht
               (wf_shape _ _ Hwf) (wf_shape _ _ Hwf) (others_eq_refl _ _)).
    apply wp_bind. unfold wp at 1. simpl.
    apply wp_bind.
    match goal with |- wp bump_and_reclaim ?σ _ =>
      change σ with (linked s pred np curr val t) end.
    apply wp_bump_and_reclaim.
    { simpl. apply Hwf. }
    { simpl. intros a Ha. destruct (wf_retired _ _ Hwf a Ha) as (n & Hn & _).
      destruct (decide (a = pred)) as [->|?];
        [rewrite lookup_insert_eq|rewrite lookup_insert_ne by done]; [by eexists|].
      rewrite lookup_insert_ne by (intros E; rewrite <-E in Hn; congruence).
      by eexists. }
    apply wp_ret. split; [done|]. split; [|split; [done|]].
    + destruct curr; lock_norm; by rewrite Hlk_v, lock_events_bump.
    + destruct curr; simpl; skip_silent; apply reclaim_in_bump.
  - apply wp_bind, wp_resetAccessedPointer; [done|]. simpl.
    rewrite (cleared_publish (accessedPointers s) (accessedPointers s) t Ht
               (wf_shape _ _ Hwf) (wf_shape _ _ Hwf) (others_eq_refl _ _)).
    apply wp_bind, wp_unlock_if; [done|].
    apply wp_bind, wp_unlock; [by eexists|].
    apply wp_ret. split; [done|]. split; [|split; [done|]].
    + destruct curr; lock_norm; by rewrite Hlk_v.
    + destruct curr; simpl; skip_silent; apply not_elem_of_nil.
Qed.

(** ** A validated window lies on the chain *)

Lemma validated_true h pred curr np :
  h !! pred = Some np → validated h pred curr = true →
  removed np = false ∧ next np = curr ∧
  ∀ c nc, curr = Some c → h !! c = Some nc → removed nc = false.
Proof.
  unfold validated. intros ->.
  rewrite !andb_true_iff, !negb_true_iff, bool_decide_eq_true.
  intros [[Hp Hc] Hn]. split; [done|]. split; [done|].
  intros c nc -> Hnc. by rewrite Hnc in Hc.
Qed.

Lemma unmarked_on_chain s l a n :
  wf s l → heap s !! a = Some n → removed n = false → a ∈ head s :: l.
Proof.
  intros Hwf Ha Hr. destruct (wf_owned _ _ Hwf a) as [?|Hret]; [by eexists|done|].
  destruct (wf_retired _ _ Hwf a Hret) as (n' & Hn' & Hr'). congruence.
Qed.

Lemma chain_at h hd l a n :
  chain h (Some hd) (hd :: l) → a ∈ hd :: l → h !! a = Some n →
  ∃ l1 l2, l = l1 ++ l2 ∧ a = List.last l1 hd ∧ next n = first l2.
Proof.
  intros Hch Ha Hn. apply list_elem_of_split in Ha as (La & Lb & Heq).
  assert (Hnext : next n = first Lb).
  { rewrite Heq in Hch. apply seg_app_inv in Hch as (q & _ & Hq).
    inversion Hq as [|p' n' l' q' Hp Hrest]; subst.
    assert (n' = n) as -> by congruence. by apply chain_first in Hrest. }
  destruct La as [|x La]; simpl in Heq; injection Heq as -> ->.
  - by exists [], Lb.
  - exists (La ++ [a]), Lb. rewrite <-app_assoc. split; [done|].
    split; [|done]. by rewrite last_last.
Qed.

Lemma window_on_chain s l pred np curr :
  wf s l → heap s !! pred = Some np → validated (heap s) pred curr = true →
  ∃ l1 l2, l = l1 ++ l2 ∧ pred = List.last l1 (head s) ∧ curr = first l2 ∧
    next np = curr.
Proof.
  intros Hwf Hnp Hv.
  destruct (validated_true _ _ _ _ Hnp Hv) as (Hr & Hnext & _).
  pose proof (unmarked_on_chain _ _ _ _ Hwf Hnp Hr) as Hin.
  destruct (chain_at _ _ _ _ _ (wf_chain _ _ Hwf) Hin Hnp) as (l1 & l2 & -> & -> & Hf).
  exists l1, l2. by rewrite <-Hnext, Hf.
Qed.

Lemma last_in (l1 : list addr) d : l1 ≠ [] → List.last l1 d ∈ l1.
Proof.
  intros Hne. rewrite (app_removelast_last d Hne) at 2.
  apply elem_of_app. right. by left.
Qed.

Lemma keys_below_last h (l1 l2 : list addr) hd v :
  StronglySorted Z.le (keys h (l1 ++ l2)) →
  l1 = [] ∨ (key h (List.last l1 hd) < v)%Z →
  Forall (λ a, (key h a < v)%Z) l1.
Proof.
  intros Hs Hlast. destruct (decide (l1 = [])) as [->|Hne]; [constructor|].
  destruct Hlast as [?|Hlt]; [done|].
  rewrite keys_app in Hs. apply StronglySorted_app_1_l in Hs.
  set (p := List.last l1 hd) in *.
  assert (Hl1 : l1 = removelast l1 ++ [p]) by (by apply app_removelast_last).
  rewrite Hl1 in Hs |- *.
  apply Forall_app. split; [|by repeat constructor].
  apply Forall_forall. intros a Ha.
  unfold keys in Hs. rewrite fmap_app in Hs.
  assert (key h a ≤ key h p)%Z; [|lia].
  eapply (StronglySorted_app_1_elem_of _ _ _ _ _ Hs).
  - apply list_elem_of_fmap. eauto.
  - simpl. left.
Qed.

Lemma head_not_in_chain s l : wf s l → head s ∉ l.
Proof.
  intros Hwf Hin. pose proof (chain_NoDup _ _ _ (wf_chain _ _ Hwf)) as Hnd.
  by apply NoDup_cons in Hnd as [? _].
Qed.

Lemma insert_locked_commit s l val t pred curr :
  Inv s l → in_range t →
  is_Some (heap s !! pred) →
  (∀ c, curr = Some c → is_Some (heap s !! c)) →
  pred = head s ∨ (key (heap s) pred < val)%Z →
  (∀ c, curr = Some c → (val ≤ key (heap s) c)%Z) →
  ∃ b s' tr,
    insert_locked val t pred curr s = Returns b s' tr ∧
    b = validated (heap s) pred curr ∧
    lock_events tr = window_locks (pred, curr) ∧
    if b then
      ∃ l1 l2,
        l = l1 ++ l2 ∧ pred = List.last l1 (head s) ∧ curr = first l2 ∧
        effect (Insert val t) s l RUnit s' (l1 ++ brk s :: l2) tr ∧
        heap s' !! brk s = Some (mkNode val curr false)
    else
      s' = set_accessedPointers (cleared (accessedPointers s) t) s.
Proof.
  intros [Hwf Hs] Ht [np Hnp] Hcurr Hpred Hge.
  destruct (wp_elim _ _ _ (wp_insert_locked s l val t pred curr np Hwf Ht Hnp Hcurr))
    as (b & s' & tr & Hrun & Hb & Hlk & Hres).
  exists b, s', tr. split; [done|]. split; [done|]. split; [done|].
  destruct b; [|by destruct Hres].
  destruct Hres as [-> Hrec].
  destruct (window_on_chain _ _ _ _ _ Hwf Hnp (eq_sym Hb))
    as (l1 & l2 & -> & -> & -> & Hnext).
  exists l1, l2. split; [done|]. split; [done|]. split; [done|].
  assert (Hl1 : Forall (λ a, (key (heap s) a < val)%Z) l1).
  { apply (keys_below_last _ _ l2 (head s)); [done|].
    destruct (decide (l1 = [])) as [?|Hne]; [by left|right].
    destruct Hpred as [Heq|?]; [|done].
    exfalso. apply (head_not_in_chain _ _ Hwf).
    rewrite <-Heq. apply elem_of_app. left. by apply last_in. }
  split; [split; [done|]; by exists l1, l2, np|].
  rewrite (lookup_bumped_chain _ (l1 ++ brk s :: l2)).
  - by apply (lookup_linked_new s (l1 ++ l2) l1 l2 np val t).
  - by apply (wf_linked s (l1 ++ l2) l1 l2 np val t).
  - simpl. right. apply elem_of_app. right. left.
Qed.

(** X6.  Validation suffices for insert.  Take any state that satisfies
    the invariant and any window of two different nodes: a node [pred] that
    is allocated and is the sentinel or has a key below [val], and [curr]
    that is null or an allocated node other than [pred] with a key not below
    [val] (whatever happened since the walk that found them).  The two
    mutexes of lines 83 and 88 are then different ones: a window with
    [curr = pred] would lock the mutex of [pred] a second time while holding
    it, which std::mutex does not define, and is excluded.  The locked part
    of insert (lines 81-111) returns; it locks the mutex of [pred], then that
    of [curr], and releases both.  It commits exactly when
    validate holds, and then [pred] and [curr] are adjacent on the chain, the
    new node stands between them and the invariant holds again with the key
    placed in order; otherwise (continue) only the worker's hazard slots have
    changed. *)
Theorem insert_locked_validated s l val t pred curr :
  Inv s l → in_range t →
  is_Some (heap s !! pred) →
  (∀ c, curr = Some c → is_Some (heap s !! c)) →
  pred = head s ∨ (key (heap s) pred < val)%Z →
  (∀ c, curr = Some c → (val ≤ key (heap s) c)%Z) →
  curr ≠ Some pred →
  ∃ b s' tr,
    insert_locked val t pred curr s = Returns b s' tr ∧
    b = validated (heap s) pred curr ∧
    lock_events tr = window_locks (pred, curr) ∧
    if b then
      ∃ l1 l2,
        l = l1 ++ l2 ∧ pred = List.last l1 (head s) ∧ curr = first l2 ∧
        Inv s' (l1 ++ brk s :: l2) ∧
        heap s' !! brk s = Some (mkNode val curr false) ∧
        keys (heap s') (l1 ++ brk s :: l2) = place val (keys (heap s) l)
    else
      s' = set_accessedPointers (cleared (accessedPointers s) t) s.
Proof.
  intros HI Ht Hp Hcurr Hpred Hge _.
  destruct (insert_locked_commit s l val t pred curr HI Ht Hp Hcurr Hpred Hge)
    as (b & s' & tr & Hrun & Hb & Hlk & Hres).
  exists b, s', tr. split; [done|]. split; [done|]. split; [done|].
  destruct b; [|done].
  destruct Hres as (l1 & l2 & Hl & -> & -> & Heff & Hnew).
  exists l1, l2. split; [done|]. split; [done|]. split; [done|].
  pose proof (effect_Inv _ _ _ _ _ _ _ HI Heff) as HI'.
  destruct HI as [Hwf Hs].
  by destruct (effect_keys _ _ _ _ _ _ _ Hwf Heff) as (_ & _ & Hk).
Qed.

(** ** The locked part of remove *)

Lemma window_distinct s l l1 c l3 :
  wf s l → l = l1 ++ c :: l3 → c ≠ List.last l1 (head s).
Proof.
  intros Hwf Hl Heq.
  pose proof (chain_NoDup _ _ _ (wf_chain _ _ Hwf)) as Hnd.
  destruct (last_snoc_split (head s) l1) as [L0 HL0].
  rewrite Hl in Hnd.
  change (head s :: l1 ++ c :: l3) with ((head s :: l1) ++ c :: l3) in Hnd.
  rewrite HL0 in Hnd. apply NoDup_app in Hnd as (_ & Hdisj & _).
  apply (Hdisj c); [apply elem_of_app; right; rewrite Heq|]; by left.
Qed.

Lemma wp_remove_locked s l val t pred curr np :
  wf s l → in_range t → heap s !! pred = Some np →
  (∀ c, curr = Some c → is_Some (heap s !! c)) →
  wp (remove_locked val t pred curr) s (λ r s' tr,
    lock_events tr = window_locks (pred, curr) ∧
    if validated (heap s) pred curr then
      match target (heap s) val (option_list curr) with
      | Some c =>
          ∃ nc, heap s !! c = Some nc ∧ r = Some true ∧
            s' = bumped (unlinked s pred np c nc t) ∧
            (EvReclaim ∈ tr ↔ fires (unlinked s pred np c nc t) = true)
      | None =>
          r = Some false ∧
          s' = set_accessedPointers (cleared (accessedPointers s) t) s ∧
          EvReclaim ∉ tr
      end
    else
      r = None ∧
      s' = set_accessedPointers (cleared (accessedPointers s) t) s ∧
      EvReclaim ∉ tr).
Proof.
  intros Hwf Ht Hnp Hcurr. unfold remove_locked.
  assert (Htable : publish (publish (accessedPointers s) t 0 None) t 1 None
                   = cleared (accessedPointers s) t).
  { apply cleared_publish; [done|apply Hwf|apply Hwf|apply others_eq_refl]. }
  apply wp_bind, wp_lock; [by eexists|].
  apply wp_bind, wp_lock_if; [done|].
  apply wp_bind. eapply wp_validate_any; [done..|].
  intros trv Htrv.
  assert (Hsil_v : EvReclaim ∉ trv).
  { eapply Forall_not_reclaim; [exact Htrv|]. by intros e [->|(c & _ & ->)]. }
  assert (Hlk_v : lock_events trv = []).
  { apply lock_events_silent. eapply Forall_impl; [exact Htrv|].
    by intros e [->|(c & _ & ->)]. }
  destruct (validated (heap s) pred curr) eqn:Hv; cbn [negb].
  2:{ apply wp_bind, wp_resetAccessedPointer; [done|]. simpl. rewrite Htable.
      apply wp_bind, wp_unlock_if; [done|].
      apply wp_bind, wp_unlock; [by eexists|].
      apply wp_ret. split; [|split; [done|split; [done|]]].
      - destruct curr; lock_norm; by rewrite Hlk_v.
      - destruct curr; simpl; skip_silent; apply not_elem_of_nil. }
  destruct (window_on_chain _ _ _ _ _ Hwf Hnp Hv) as (l1 & l2 & Hl & Hpred & Hc2 & Hnext).
  destruct curr as [c|]; simpl option_list.
  2:{ apply wp_bind, wp_ret.
      apply wp_bind, wp_resetAccessedPointer; [done|]. simpl. rewrite Htable.
      apply wp_bind, wp_ret. apply wp_bind, wp_unlock; [by eexists|]. apply wp_ret.
      split; [|split; [done|split; [done|]]].
      - lock_norm. by rewrite Hlk_v.
      - simpl. skip_silent. apply not_elem_of_nil. }
  destruct (Hcurr c eq_refl) as [nc Hnc].
  assert (Hkey : key (heap s) c = value nc) by (unfold key; by rewrite Hnc).
  destruct l2 as [|c' l3]; [done|]. simpl in Hc2. injection Hc2 as <-.
  assert (Hcp : c ≠ pred) by (rewrite Hpred; by eapply window_distinct).
  apply wp_bind. apply wp_bind. eapply wp_load; [done|]. apply wp_ret.
  simpl target. rewrite Hkey.
  destruct (value nc =? val)%Z eqn:Eval.
  - apply wp_bind. eapply wp_store; [done|]. simpl.
    apply wp_bind. eapply wp_load; [simpl; by rewrite lookup_insert_eq|]. simpl.
    apply wp_bind. eapply wp_store; [simpl; by rewrite lookup_insert_ne|]. simpl.
    apply wp_bind, wp_modify. simpl.
    apply wp_bind, wp_resetAccessedPointer; [done|]. simpl. rewrite Htable.
    apply wp_bind, wp_unlock.
    { simpl. rewrite lookup_insert_ne, lookup_insert_eq by done. by eexists. }
    apply wp_bind, wp_unlock.
    { simpl. rewrite lookup_insert_eq. by eexists. }
    apply wp_bind. unfold wp at 1. simpl.
    apply wp_bind.
    match goal with |- wp bump_and_reclaim ?σ _ =>
      change σ with (unlinked s pred np c nc t) end.
    apply wp_bump_and_reclaim.
    { simpl. apply NoDup_app. split; [apply Hwf|]. split; [|apply NoDup_singleton].
      intros a Ha ->%list_elem_of_singleton.
      eapply wf_not_retired; [exact Hwf| |exact Ha].
      rewrite Hl. right. apply elem_of_app. right. by left. }
    { simpl. intros a Ha.
      destruct (decide (a = pred)) as [->|?];
        [rewrite lookup_insert_eq|rewrite lookup_insert_ne by done]; [by eexists|].
      destruct (decide (a = c)) as [->|?];
        [rewrite lookup_insert_eq|rewrite lookup_insert_ne by done]; [by eexists|].
      apply elem_of_app in Ha as [Ha|Ha%list_elem_of_singleton]; [|done].
      destruct (wf_retired _ _ Hwf a Ha) as (na & Hna & _). by eexists. }
    apply wp_ret. split; [|exists nc; split; [done|split; [done|split; [done|]]]].
    + lock_norm. by rewrite Hlk_v, lock_events_bump.
    + simpl. rewrite app_nil_r. skip_silent. apply reclaim_in_bump.
  - apply wp_bind, wp_resetAccessedPointer; [done|]. simpl. rewrite Htable.
    apply wp_bind, wp_unlock; [by eexists|].
    apply wp_bind, wp_unlock; [by eexists|]. apply wp_ret.
    split; [|split; [done|split; [done|]]].
    + lock_norm. by rewrite Hlk_v.
    + simpl. skip_silent. apply not_elem_of_nil.
Qed.

(** X7.  Validation suffices for remove.  For any state that satisfies
    the invariant and any window of two different nodes as in X6 ([curr]
    is not [pred], so that lines 131 and 136 lock two different mutexes), the
    locked part of remove (lines 129-173) returns, having locked the mutex of
    [pred], then that of [curr], and released both.  When validate fails it asks for another pass and only the worker's
    hazard slots have changed; when it returns false the key is on no
    reachable node and only the hazard slots have changed; when it returns
    true [curr] carried the key, it is unlinked from [pred], marked, and
    retired or already freed, and the invariant holds again. *)
Theorem remove_locked_validated s l val t pred curr :
  Inv s l → in_range t →
  is_Some (heap s !! pred) →
  (∀ c, curr = Some c → is_Some (heap s !! c)) →
  pred = head s ∨ (key (heap s) pred < val)%Z →
  (∀ c, curr = Some c → (val ≤ key (heap s) c)%Z) →
  curr ≠ Some pred →
  ∃ r s' tr,
    remove_locked val t pred curr s = Returns r s' tr ∧
    lock_events tr = window_locks (pred, curr) ∧
    match r with
    | None =>
        validated (heap s) pred curr = false ∧
        s' = set_accessedPointers (cleared (accessedPointers s) t) s
    | Some false =>
        validated (heap s) pred curr = true ∧
        (val ∉ keys (heap s) l) ∧
        s' = set_accessedPointers (cleared (accessedPointers s) t) s
    | Some true =>
        validated (heap s) pred curr = true ∧
        ∃ l1 c l3,
          l = l1 ++ c :: l3 ∧ pred = List.last l1 (head s) ∧ curr = Some c ∧
          key (heap s) c = val ∧
          Inv s' (l1 ++ l3) ∧
          keys (heap s') (l1 ++ l3) = keys (heap s) l1 ++ keys (heap s) l3 ∧
          (c ∈ retireList s' ∨ heap s' !! c = None)
    end.
Proof.
  intros [Hwf Hs] Ht [np Hnp] Hcurr Hpred Hge _.
  destruct (wp_elim _ _ _ (wp_remove_locked s l val t pred curr np Hwf Ht Hnp Hcurr))
    as (r & s' & tr & Hrun & Hlk & Hres).
  exists r, s', tr. split; [done|]. split; [done|].
  destruct (validated (heap s) pred curr) eqn:Hv;
    [|by destruct Hres as (-> & -> & _)].
  destruct (window_on_chain _ _ _ _ _ Hwf Hnp Hv)
    as (l1 & l2 & -> & -> & -> & Hnext).
  assert (Hl1 : Forall (λ a, (key (heap s) a < val)%Z) l1).
  { apply (keys_below_last _ _ l2 (head s)); [done|].
    destruct (decide (l1 = [])) as [?|Hne]; [by left|right].
    destruct Hpred as [Heq|?]; [|done].
    exfalso. apply (head_not_in_chain _ _ Hwf).
    rewrite <-Heq. apply elem_of_app. left. by apply last_in. }
  assert (Htgt : target (heap s) val (option_list (first l2)) = target (heap s) val l2)
    by (by destruct l2).
  rewrite Htgt in Hres.
  destruct (target (heap s) val l2) as [c|] eqn:Etgt.
  - destruct Hres as (nc & Hnc & -> & -> & Hfire).
    destruct (target_Some _ _ _ _ Etgt) as (l3 & -> & Hkey).
    split; [done|]. exists l1, c, l3. repeat (split; [done|]).
    assert (Heff : effect (Remove val t) s (l1 ++ c :: l3) (RBool true)
              (bumped (unlinked s (List.last l1 (head s)) np c nc t))
              (l1 ++ l3) tr).
    { exists l1, (c :: l3), np. repeat (split; [done|]).
      rewrite Etgt. by exists nc, l3. }
    pose proof (effect_Inv _ _ _ _ _ _ _ (conj Hwf Hs) Heff) as HI'.
    destruct (effect_keys _ _ _ _ _ _ _ Hwf Heff) as (Hhd & _ & Hk).
    split; [done|]. split.
    { rewrite Hk. simpl. rewrite keys_app.
      rewrite take_out_split by (by apply keys_lt || by apply first_keys).
      simpl. by rewrite Hkey, Z.eqb_refl. }
    assert (Hcnot : c ∉ head s :: l1 ++ l3).
    { pose proof (chain_NoDup _ _ _ (wf_chain _ _ Hwf)) as Hnd.
      change (head s :: l1 ++ c :: l3) with ((head s :: l1) ++ c :: l3) in Hnd.
      apply NoDup_app in Hnd as (_ & Hdisj & [Hc3 _]%NoDup_cons).
      change (head s :: l1 ++ l3) with ((head s :: l1) ++ l3).
      intros [Hin|Hin]%elem_of_app; [|done].
      apply (Hdisj c Hin). by left. }
    destruct HI' as [Hwf' _].
    set (s' := bumped _) in *.
    destruct (heap s' !! c) as [n|] eqn:E; [|by right]. left.
    destruct (wf_owned _ _ Hwf' c) as [Hin|Hin]; [by rewrite E| |done].
    rewrite Hhd in Hin. done.
  - destruct Hres as (-> & -> & _). split; [done|]. split; [|done].
    intros Hin. apply (take_out_Some_iff _ _ Hs) in Hin as [ks' Hks].
    rewrite keys_app in Hks.
    rewrite take_out_split in Hks by (by apply keys_lt || by apply first_keys).
    destruct l2 as [|c l3]; [done|]. simpl in Hks, Etgt.
    destruct (key (heap s) c =? val)%Z; done.
Qed.

(** ** The destructor *)

Lemma wp_delete_MarkedList_loop : ∀ l fuel curr s
    (Q : unit → state → list event → Prop),
  chain (heap s) curr l → NoDup l → (List.length l < fuel)%nat →
  (∀ tr, deleted tr = l → Q tt (set_heap (free_all l (heap s)) s) tr) →
  wp (delete_MarkedList_loop fuel curr) s Q.
Proof.
  induction l as [|c l IH]; intros fuel curr s Q Hch Hnd Hfuel HQ.
  - apply chain_first in Hch as ->. destruct fuel; [simpl in Hfuel; lia|].
    simpl. apply wp_ret. destruct s. by apply HQ.
  - pose proof (chain_first _ _ _ Hch) as ->.
    inversion Hch as [|p n l' q Hp Hrest]; subst.
    apply NoDup_cons in Hnd as [Hc Hnd].
    destruct fuel; [simpl in Hfuel; lia|]. simpl.
    apply wp_bind. eapply wp_load; [done|].
    apply wp_bind, wp_delete_Node; [by eexists|].
    apply IH; [|done|simpl in Hfuel; lia|].
    + simpl. eapply seg_ext; [|exact Hrest].
      intros a Ha. rewrite lookup_delete_ne; [done|]. by intros ->.
    + intros tr Htr. simpl. apply HQ. simpl. by rewrite Htr.
Qed.

Lemma wp_delete_MarkedList s l (Q : unit → state → list event → Prop) :
  chain (heap s) (Some (head s)) (head s :: l) →
  (∀ tr, deleted tr = head s :: l →
         Q tt (set_heap (free_all (head s :: l) (heap s)) s) tr) →
  wp delete_MarkedList s Q.
Proof.
  intros Hch HQ. unfold delete_MarkedList.
  apply wp_bind, wp_gets. apply wp_bind, wp_gets.
  apply (wp_delete_MarkedList_loop (head s :: l)); [done| | |done].
  - by eapply chain_NoDup.
  - pose proof (chain_length _ _ _ Hch). unfold fuel_of. lia.
Qed.

Lemma delete_MarkedList_effect s l :
  wf s l →
  ∃ s' tr,
    delete_MarkedList s = Returns tt s' tr ∧
    deleted tr = head s :: l ∧
    s' = set_heap (free_all (head s :: l) (heap s)) s.
Proof.
  intros Hwf.
  destruct (wp_elim _ _ _
    (wp_delete_MarkedList s l
       (λ _ s' tr, deleted tr = head s :: l ∧
                   s' = set_heap (free_all (head s :: l) (heap s)) s)
       (wf_chain _ _ Hwf) (λ tr Htr, conj Htr eq_refl)))
    as ([] & s' & tr & Hrun & Hdel & ->).
  eexists; by exists tr.
Qed.

(** X14.  The destructor frees the reachable nodes only.  On a
    well-formed state the destructor returns after deleting the sentinel and
    the nodes of the chain, each once and in chain order; the nodes of the
    retire list are not freed: they are exactly the nodes still allocated
    afterwards. *)
Theorem destructor_leaves_retired_nodes s l :
  wf s l →
  ∃ s' tr,
    delete_MarkedList s = Returns tt s' tr ∧
    deleted tr = head s :: l ∧
    NoDup (deleted tr) ∧
    (∀ a, heap s' !! a = if decide (a ∈ retireList s) then heap s !! a else None) ∧
    (∀ a, a ∈ retireList s → is_Some (heap s' !! a)) ∧
    retireList s' = retireList s.
Proof.
  intros Hwf. destruct (delete_MarkedList_effect s l Hwf) as (s' & tr & Hrun & Hdel & ->).
  eexists; exists tr. split; [done|]. split; [done|].
  split; [rewrite Hdel; by eapply chain_NoDup, wf_chain|].
  assert (Hlook : ∀ a, free_all (head s :: l) (heap s) !! a =
            if decide (a ∈ retireList s) then heap s !! a else None).
  { intros a. rewrite lookup_free_all.
    destruct (decide (a ∈ head s :: l)) as [Hin|Hnin];
      destruct (decide (a ∈ retireList s)) as [Hret|Hnret]; try done.
    - by destruct (wf_not_retired _ _ _ Hwf Hin).
    - destruct (heap s !! a) as [n|] eqn:E; [|done].
      destruct (wf_owned _ _ Hwf a); [by eexists|done..]. }
  split; [exact Hlook|]. split; [|done].
  intros a Ha. simpl. rewrite Hlook, decide_True by done.
  destruct (wf_retired _ _ Hwf a Ha) as (n & -> & _). by eexists.
Qed.

Lemma deleted_app t1 t2 : deleted (t1 ++ t2) = deleted t1 ++ deleted t2.
Proof. apply omap_app. Qed.

Lemma deleted_deletes (l : list addr) : deleted (EvDelete <$> l) = l.
Proof. induction l as [|a l IH]; [done|]. simpl. f_equal. exact IH. Qed.

Lemma scanAndReclaim_effect s l :
  wf s l →
  ∃ tr, scanAndReclaim s = Returns tt (reclaimed s) tr ∧
        deleted tr = freed (accessedPointers s) (retireList s).
Proof.
  intros Hwf.
  assert (Halloc : ∀ a, a ∈ retireList s → is_Some (heap s !! a)).
  { intros a Ha. destruct (wf_retired _ _ Hwf a Ha) as (n & Hn & _). by eexists. }
  destruct (wp_elim _ _ _
    (wp_scanAndReclaim s
       (λ _ s' tr, s' = reclaimed s ∧
          tr = EvReclaim :: (EvDelete <$> freed (accessedPointers s) (retireList s)))
       (wf_retire_nodup _ _ Hwf) Halloc (conj eq_refl eq_refl)))
    as ([] & s1 & t1 & Hrun1 & -> & ->).
  eexists. split; [done|]. simpl. apply deleted_deletes.
Qed.

Lemma elem_of_freed a T (l : list addr) :
  a ∈ freed T l ↔ a ∈ l ∧ ¬ referenced a T.
Proof.
  unfold freed. rewrite list_elem_of_filter, <-hazarded_referenced. tauto.
Qed.

Lemma elem_of_kept a T (l : list addr) :
  a ∈ kept T l ↔ a ∈ l ∧ referenced a T.
Proof.
  unfold kept. rewrite list_elem_of_filter, <-hazarded_referenced. tauto.
Qed.

Lemma reclaim_then_destroy s l :
  wf s l →
  ∃ t1 s2 t2,
    scanAndReclaim s = Returns tt (reclaimed s) t1 ∧
    delete_MarkedList (reclaimed s) = Returns tt s2 t2 ∧
    NoDup (deleted (t1 ++ t2)) ∧
    (∀ a, is_Some (heap s2 !! a) ↔
          a ∈ retireList s ∧ referenced a (accessedPointers s)) ∧
    (all_null (accessedPointers s) → heap s2 = ∅).
Proof.
  intros Hwf.
  destruct (scanAndReclaim_effect s l Hwf) as (t1 & Hrun1 & Hd1).
  pose proof (wf_reclaimed _ _ Hwf) as Hwf1.
  destruct (delete_MarkedList_effect _ l Hwf1) as (s2 & t2 & Hrun2 & Hd2 & ->).
  exists t1. eexists; exists t2.
  split; [done|]. split; [done|].
  assert (Hlook : ∀ a, is_Some (free_all (head (reclaimed s) :: l) (heap (reclaimed s)) !! a) ↔
            a ∈ retireList s ∧ referenced a (accessedPointers s)).
  { intros a. rewrite lookup_free_all.
    destruct (decide (a ∈ head (reclaimed s) :: l)) as [Hin|Hnin].
    - split; [by intros [? ?]|]. intros [Hret _].
      by destruct (wf_not_retired _ _ _ Hwf Hin).
    - split.
      + intros Hsome. destruct (wf_owned _ _ Hwf1 a Hsome) as [?|Hk]; [done|].
        simpl in Hk. by apply elem_of_kept in Hk.
      + intros [Hret Href].
        destruct (wf_retired _ _ Hwf1 a) as (n & -> & _); [|by eexists].
        simpl. by apply elem_of_kept. }
  split; [|split; [exact Hlook|]].
  - rewrite deleted_app, Hd1, Hd2. apply NoDup_app. split; [|split].
    + apply NoDup_filter, Hwf.
    + intros a [Ha _]%elem_of_freed Hin.
      by destruct (wf_not_retired _ _ _ Hwf Hin).
    + by eapply chain_NoDup, wf_chain.
  - intros Hnull. apply map_eq. intros a. rewrite lookup_empty.
    apply eq_None_not_Some. rewrite Hlook. intros [_ Href].
    by eapply all_null_not_referenced.
Qed.

(** X15.  scanAndReclaim followed by the destructor.  On a well-formed
    state both return, no node is deleted twice, and the nodes still
    allocated at the end are exactly the retired nodes that a hazard slot
    held; when every hazard slot is null, nothing is left allocated. *)
Theorem reclaim_then_destructor_frees_all s l :
  wf s l →
  ∃ s1 t1 s2 t2,
    scanAndReclaim s = Returns tt s1 t1 ∧
    delete_MarkedList s1 = Returns tt s2 t2 ∧
    NoDup (deleted (t1 ++ t2)) ∧
    (∀ a, is_Some (heap s2 !! a) ↔
          a ∈ retireList s ∧ referenced a (accessedPointers s)) ∧
    (all_null (accessedPointers s) → heap s2 = ∅).
Proof.
  intros Hwf. destruct (reclaim_then_destroy s l Hwf) as (t1 & s2 & t2 & H).
  by exists (reclaimed s), t1, s2, t2.
Qed.

(** ** printRetireList *)

Lemma wp_printRetireList_loop h : ∀ l s (Q : list Z → state → list event → Prop),
  heap s = h → (∀ a, a ∈ l → is_Some (h !! a)) →
  (∀ tr, Q (keys h l) s tr) →
  wp (printRetireList_loop l) s Q.
Proof.
  induction l as [|a l IH]; intros s Q Hh Hall HQ; simpl.
  - by apply wp_ret.
  - destruct (Hall a) as [n Hn]; [by left|].
    apply wp_bind. eapply wp_load; [by rewrite Hh|].
    apply wp_bind, IH; [done|intros b Hb; apply Hall; by right|].
    intros tr. apply wp_ret.
    assert (key h a = value n) as <- by (unfold key; by rewrite Hn).
    apply HQ.
Qed.

Lemma printRetireList_keys s l :
  wf s l →
  ∃ tr, printRetireList s = Returns (keys (heap s) (retireList s)) s tr.
Proof.
  intros Hwf.
  assert (wp printRetireList s
            (λ out s' _, out = keys (heap s) (retireList s) ∧ s' = s)) as Hwp.
  { unfold printRetireList. apply wp_bind, wp_gets.
    apply (wp_printRetireList_loop (heap s)); [done| |done].
    intros a Ha. destruct (wf_retired _ _ Hwf a Ha) as (n & Hn & _). by eexists. }
  apply wp_elim in Hwp as (out & s' & tr & Hrun & -> & ->). by exists tr.
Qed.

Lemma pending_snoc log e :
  pending (log ++ [e]) =
  if reclaims e then []
  else match e.1 with
       | (Remove v _, RBool true) => pending log ++ [v]
       | _ => pending log
       end.
Proof. unfold pending. by rewrite fold_left_app. Qed.

Lemma pending_step log s l c r s' l' tr :
  wf s l → all_null (accessedPointers s) →
  keys (heap s) (retireList s) = pending log →
  effect c s l r s' l' tr →
  all_null (accessedPointers s') ∧
  keys (heap s') (retireList s') = pending (log ++ [(c, r, tr)]).
Proof.
  intros Hwf Hnull Hkeys Heff. rewrite pending_snoc.
  destruct c as [v t|v t|v t|]; simpl in Heff.
  - destruct Heff as (-> & l1 & l2 & np & -> & _ & _ & Hnp & _ & -> & -> & Hfire).
    set (σ := linked _ _ _ _ _ _) in *.
    assert (Hσnull : all_null (accessedPointers σ)) by (by apply all_null_cleared).
    rewrite accessedPointers_bumped. split; [done|].
    rewrite retireList_bumped.
    destruct (reclaims _) eqn:Hrec.
    + apply reclaims_spec, Hfire in Hrec. rewrite Hrec.
      by rewrite (kept_all_null _ _ Hσnull).
    + assert (Hnf : fires σ = false).
      { apply not_true_iff_false. intros E.
        apply Hfire in E. eapply reclaims_spec in E. rewrite E in Hrec. done. }
      rewrite Hnf. simpl. rewrite <-Hkeys.
      unfold bumped. rewrite Hnf. simpl.
      apply keys_ext. intros a Ha.
      assert (Ha' : is_Some (heap s !! a)).
      { destruct (wf_retired _ _ Hwf a Ha) as (n & Hn & _). by eexists. }
      rewrite lookup_insert_ne, lookup_insert_ne; [done| |].
      * intros <-. rewrite (wf_fresh _ _ Hwf) in Ha'. by destruct Ha'.
      * intros <-. eapply wf_not_retired; [exact Hwf| |exact Ha].
        by eapply wf_pred_in.
  - destruct Heff as (l1 & l2 & np & -> & _ & _ & Hnp & Hcase).
    destruct (target (heap s) v l2) as [c|] eqn:Etgt.
    + destruct Hcase as (nc & l3 & -> & Hnc & -> & -> & -> & Hfire).
      destruct (target_Some _ _ _ _ Etgt) as (? & _ & Hkey).
      set (σ := unlinked _ _ _ _ _ _) in *.
      assert (Hσnull : all_null (accessedPointers σ)) by (by apply all_null_cleared).
      rewrite accessedPointers_bumped. split; [done|].
      rewrite retireList_bumped.
      destruct (reclaims _) eqn:Hrec.
      * apply reclaims_spec, Hfire in Hrec. rewrite Hrec.
        by rewrite (kept_all_null _ _ Hσnull).
      * assert (Hnf : fires σ = false).
        { apply not_true_iff_false. intros E.
          apply Hfire in E. eapply reclaims_spec in E. rewrite E in Hrec. done. }
        rewrite Hnf. simpl. rewrite <-Hkeys, <-Hkey.
        unfold bumped. rewrite Hnf. simpl.
        change (keys ?h (?a ++ [?b])) with (key h <$> (a ++ [b])).
        rewrite fmap_app. simpl. f_equal; [|f_equal].
        -- apply (keys_unlinked s (l1 ++ c :: l3) l1 l3 c np nc t Hwf eq_refl Hnp Hnc).
        -- apply (key_unlinked s (l1 ++ c :: l3) l1 l3 c np nc t Hwf eq_refl Hnp Hnc).
    + destruct Hcase as (-> & -> & -> & Hsil).
      assert (reclaims (Remove v t, RBool false, tr) = false) as ->.
      { apply not_true_iff_false. by rewrite reclaims_spec. }
      simpl. split; [by apply all_null_cleared|done].
  - destruct Heff as (-> & -> & -> & Hsil).
    assert (reclaims (Contains v t, RBool (holds (heap s) v (stop_node (heap s) v l)), tr) = false) as ->.
    { apply not_true_iff_false. by rewrite reclaims_spec. }
    simpl. split; [by apply all_null_cleared|done].
  - destruct Heff as (-> & -> & -> & Hin).
    assert (reclaims (ScanAndReclaim, RUnit, tr) = true) as ->
      by (by apply reclaims_spec).
    simpl. split; [done|]. by rewrite (kept_all_null _ _ Hnull).
Qed.

(** X16.  printRetireList.  After every sequence of calls with valid
    worker ids on a fresh list, printRetireList returns without reading a
    freed node and leaves the state as it is; it prints the keys that
    successful removes took out since the last reclaim pass, in the order of
    their removal. *)
Theorem printRetireList_after_calls cs :
  Forall valid_call cs →
  ∃ log s' tr tr',
    run cs new = Returns log s' tr ∧
    printRetireList s' = Returns (pending log) s' tr'.
Proof.
  intros Hcs.
  destruct (run_invariant
    (λ log s l, all_null (accessedPointers s) ∧
                keys (heap s) (retireList s) = pending log)
    valid_call) with (cs := cs)
    as (log & s' & tr & l & Hrun & Hwf & Hnull & Hkeys); try done.
  - split; [apply all_null_new|done].
  - intros log s l c r s' l' tr Hwf [Hnull Hkeys] _ _ Heff.
    by eapply pending_step.
  - destruct (printRetireList_keys _ _ Hwf) as [tr' Hp].
    exists log, s', tr, tr'. by rewrite <-Hkeys.
Qed.

(** ** Runs and the sorted multiset *)

(** X1.  Sequential runs implement a sorted multiset.  Every sequence of
    calls with valid worker ids on a fresh list runs to completion (no freed
    node is touched, no loop runs on); the logged calls are the calls made;
    every remove and every contains answers whether its key is among the
    keys held at that moment, where insert puts a key in front of the first
    key that is not smaller and a successful remove takes out one copy; and
    printList prints the keys held at the end, in non-decreasing order. *)
Theorem run_refines_sorted_multiset cs :
  Forall valid_call cs →
  ∃ log s' tr tr',
    run cs new = Returns log s' tr ∧
    log.*1.*1 = cs ∧
    log.*1.*2 = (model_run cs []).1 ∧
    StronglySorted Z.le (model_run cs []).2 ∧
    printList s' = Returns (model_run cs []).2 s' tr'.
Proof.
  intros Hcs.
  destruct (run_model cs new [] Inv_new Hcs)
    as (log & s' & tr & l' & tr' & Hrun & Hcalls & Hrets & _ & _ & Hs & Hp).
  by exists log, s', tr, tr'.
Qed.

Lemma place_perm v ks : place v ks ≡ₚ v :: ks.
Proof.
  induction ks as [|k ks IH]; [done|]. simpl.
  destruct (k <? v)%Z; [|done]. rewrite IH. apply Permutation_swap.
Qed.

Lemma take_out_perm v ks ks' : take_out v ks = Some ks' → ks ≡ₚ v :: ks'.
Proof.
  revert ks'. induction ks as [|k ks IH]; intros ks'; [done|]. simpl.
  destruct (k <? v)%Z.
  - destruct (take_out v ks) as [r|]; [|done]. intros [= <-].
    rewrite (IH r eq_refl). apply Permutation_swap.
  - destruct (Z.eqb_spec k v) as [->|]; [|done]. by intros [= ->].
Qed.

Lemma take_out_place v ks : take_out v (place v ks) = Some ks.
Proof.
  induction ks as [|k ks IH]; simpl.
  - by rewrite Z.ltb_irrefl, Z.eqb_refl.
  - destruct (k <? v)%Z eqn:E; simpl.
    + by rewrite E, IH.
    + by rewrite Z.ltb_irrefl, Z.eqb_refl.
Qed.

Lemma inserted_keys_snoc log e :
  inserted_keys (log ++ [e]) =
  inserted_keys log ++ match e.1.1 with Insert v _ => [v] | _ => [] end.
Proof.
  unfold inserted_keys. rewrite omap_app. simpl.
  by destruct e as [[[] ?] ?].
Qed.

Lemma removed_keys_snoc log e :
  removed_keys (log ++ [e]) =
  removed_keys log ++
  match e.1 with (Remove v _, RBool true) => [v] | _ => [] end.
Proof.
  unfold removed_keys. rewrite omap_app. simpl.
  by destruct e as [[[] [|[]]] ?].
Qed.

Lemma conservation_step log s l c r s' l' tr :
  wf s l →
  StronglySorted Z.le (keys (heap s) l) →
  keys (heap s) l ++ removed_keys log ≡ₚ inserted_keys log →
  effect c s l r s' l' tr →
  StronglySorted Z.le (keys (heap s') l') ∧
  keys (heap s') l' ++ removed_keys (log ++ [(c, r, tr)])
    ≡ₚ inserted_keys (log ++ [(c, r, tr)]).
Proof.
  intros Hwf Hs Hperm Heff.
  destruct (effect_keys _ _ _ _ _ _ _ Hwf Heff) as (_ & _ & Hk).
  split; [rewrite Hk; by apply model_step_sorted|].
  rewrite Hk, inserted_keys_snoc, removed_keys_snoc. simpl.
  destruct c as [v t|v t|v t|]; simpl.
  + assert (r = RUnit) as -> by (by destruct Heff).
    rewrite !app_nil_r, place_perm, <-Hperm. simpl.
    rewrite (Permutation_app_comm _ [v]). simpl.
    by rewrite Permutation_middle.
  + rewrite (effect_remove_result _ _ _ _ _ _ _ _ Heff).
    destruct (take_out v (keys (heap s) l)) as [ks'|] eqn:E; simpl.
    * rewrite <-Hperm, (take_out_perm _ _ _ E). simpl.
      rewrite app_nil_r, app_assoc. by rewrite <-Permutation_cons_append.
    * by rewrite !app_nil_r.
  + destruct r as [|[]]; by rewrite !app_nil_r.
  + destruct r as [|[]]; by rewrite !app_nil_r.
Qed.

(** X2.  Keys are conserved.  After every sequence of calls with valid
    worker ids on a fresh list, printList prints a non-decreasing list which,
    together with the keys taken out by the removes that returned true, is a
    permutation of the keys inserted: no key is lost, duplicated or
    invented. *)
Theorem keys_are_conserved cs :
  Forall valid_call cs →
  ∃ log s' tr out tr',
    run cs new = Returns log s' tr ∧
    printList s' = Returns out s' tr' ∧
    StronglySorted Z.le out ∧
    out ++ removed_keys log ≡ₚ inserted_keys log.
Proof.
  intros Hcs.
  destruct (run_invariant
    (λ log s l, StronglySorted Z.le (keys (heap s) l) ∧
                keys (heap s) l ++ removed_keys log ≡ₚ inserted_keys log)
    valid_call) with (cs := cs)
    as (log & s' & tr & l & Hrun & Hwf & Hs & Hperm); try done.
  - split; [constructor|done].
  - intros log s l c r s' l' tr Hwf [Hs Hperm] _ _ Heff.
    by eapply conservation_step.
  - destruct (printList_keys _ _ Hwf) as [tr' Hp].
    by exists log, s', tr, (keys (heap s') l), tr'.
Qed.

Lemma run_calls cs : ∀ s log s' tr,
  run cs s = Returns log s' tr → log.*1.*1 = cs.
Proof.
  induction cs as [|c cs IH]; intros s log s' tr.
  - by intros [= <- _ _].
  - rewrite run_cons. destruct (exec c s) as [r s1 t1|]; [|done].
    destruct (run cs s1) as [log1 s2 t2|] eqn:E; [|done].
    intros [= <- _ _]. simpl. f_equal. by eapply IH.
Qed.

Lemma inserted_keys_inserts log ks t :
  log.*1.*1 = inserts ks t → inserted_keys log = ks ∧ removed_keys log = [].
Proof.
  revert ks. induction log as [|[[c r] tr] log IH]; intros [|k ks]; try done.
  simpl. intros [= -> Hlog]. destruct (IH ks Hlog) as [Hi Hr].
  unfold inserted_keys, removed_keys in *. simpl. by rewrite Hi, Hr.
Qed.

(** X3.  Inserting keys one by one sorts them.  After insert has been
    called on a fresh list with the keys [ks] in this order (by a valid
    worker), printList prints [merge_sort Z.le ks]: duplicates are kept and
    the order of the calls does not matter. *)
Theorem inserts_print_sorted ks t :
  in_range t →
  ∃ log s' tr tr',
    run (inserts ks t) new = Returns log s' tr ∧
    printList s' = Returns (merge_sort Z.le ks) s' tr'.
Proof.
  intros Ht.
  assert (Hcs : Forall valid_call (inserts ks t)).
  { unfold inserts. apply Forall_fmap, Forall_forall. by intros. }
  destruct (run_invariant
    (λ log s l, StronglySorted Z.le (keys (heap s) l) ∧
                keys (heap s) l ++ removed_keys log ≡ₚ inserted_keys log)
    valid_call) with (cs := inserts ks t)
    as (log & s' & tr & l & Hrun & Hwf & Hs & Hperm); try done.
  - split; [constructor|done].
  - intros log s l c r s' l' tr Hwf [Hs Hperm] _ _ Heff.
    by eapply conservation_step.
  - destruct (printList_keys _ _ Hwf) as [tr' Hp].
    exists log, s', tr, tr'. split; [done|]. rewrite Hp. f_equal.
    destruct (inserted_keys_inserts log ks t (run_calls _ _ _ _ _ Hrun)) as [Hi Hr].
    rewrite Hi, Hr, app_nil_r in Hperm.
    apply (StronglySorted_unique Z.le); [done| |].
    + apply StronglySorted_merge_sort; apply _.
    + by rewrite merge_sort_Permutation.
Qed.

(** ** insert then remove *)

Lemma split_unique {A} (P : A → Prop) (l1 l2 l1' l2' : list A) :
  l1 ++ l2 = l1' ++ l2' →
  Forall P l1 → Forall P l1' →
  (∀ c, List.hd_error l2 = Some c → ¬ P c) →
  (∀ c, List.hd_error l2' = Some c → ¬ P c) →
  l1 = l1' ∧ l2 = l2'.
Proof.
  revert l1'. induction l1 as [|a l1 IH]; intros [|a' l1'] Heq H1 H1' H2 H2'.
  - done.
  - simpl in Heq. subst l2. apply Forall_cons in H1' as [Ha _].
    by destruct (H2 a' eq_refl).
  - simpl in Heq. subst l2'. apply Forall_cons in H1 as [Ha _].
    by destruct (H2' a eq_refl).
  - simpl in Heq. injection Heq as -> Heq.
    apply Forall_cons in H1 as [_ H1]. apply Forall_cons in H1' as [_ H1'].
    destruct (IH l1' Heq H1 H1' H2 H2') as [-> ->]. done.
Qed.

Lemma first_hd_error (l : list addr) : first l = List.hd_error l.
Proof. by destruct l. Qed.

Lemma insert_effect s l v t :
  wf s l → in_range t →
  ∃ s' tr l',
    insert v t s = Returns tt s' tr ∧ effect (Insert v t) s l RUnit s' l' tr.
Proof.
  intros Hwf Ht.
  destruct (wp_elim _ _ _ (wp_insert s l v t Hwf Ht))
    as ([] & s' & tr & Hrun & l1 & l2 & np & Hl & Hl1 & Hl2 & Hnp & Hnext & -> & _ & Hfire).
  eexists; exists tr, (l1 ++ brk s :: l2). split; [done|]. split; [done|].
  by exists l1, l2, np.
Qed.

(** X4.  insert followed by remove of the same key restores the list.
    On every well-formed state, insert(val) and then remove(val) (by any
    valid workers) return, the remove returns true, the chain is the chain
    of before with the same nodes and keys, length is back to its value (as
    an int), and the node taken out is the one insert allocated: it is in
    the retire list or has been freed by the reclaim pass. *)
Theorem insert_then_remove s l val t t' :
  wf s l → in_range t → in_range t' →
  ∃ s1 tr1 s2 tr2,
    insert val t s = Returns tt s1 tr1 ∧
    remove val t' s1 = Returns true s2 tr2 ∧
    wf s2 l ∧
    keys (heap s2) l = keys (heap s) l ∧
    length s2 = wrap_int (length s) ∧
    (brk s ∈ retireList s2 ∨ heap s2 !! brk s = None).
Proof.
  intros Hwf Ht Ht'.
  destruct (insert_effect s l val t Hwf Ht) as (s1 & tr1 & l' & He1 & Heff1).
  pose proof (effect_wf _ _ _ _ _ _ _ Hwf Heff1) as Hwf1.
  destruct (effect_keys _ _ _ _ _ _ _ Hwf Heff1) as (Hhd1 & _ & Hk1).
  destruct (remove_effect s1 l' val t' Hwf1 Ht') as (b & s2 & tr2 & l'' & He2 & Heff2).
  pose proof (effect_wf _ _ _ _ _ _ _ Hwf1 Heff2) as Hwf2.
  destruct (effect_keys _ _ _ _ _ _ _ Hwf1 Heff2) as (Hhd2 & _ & Hk2).
  destruct Heff1 as (_ & l1 & l2 & np & Hl & Hl1 & Hl2 & Hnp & Hnext & Hl' & Hs1 & _).
  destruct Heff2 as (l1' & l2' & np' & Hl'' & Hl1' & Hl2' & Hnp' & Hcase).
  pose proof (wf_linked s l l1 l2 np val t Hwf Hl Hnp) as Hwfσ.
  set (σ := linked s (List.last l1 (head s)) np (first l2) val t) in *.
  assert (Hbrk : ∀ a, a ∈ head s :: l → a ≠ brk s).
  { intros a Ha ->.
    destruct (seg_allocated _ _ _ _ _ (wf_chain _ _ Hwf) Ha) as [n Hn].
    by rewrite (wf_fresh _ _ Hwf) in Hn. }
  assert (Hkold : ∀ a, a ∈ l → key (heap s1) a = key (heap s) a).
  { intros a Ha. rewrite Hs1, (key_bumped_chain σ (l1 ++ brk s :: l2)); [|done|].
    - apply (key_linked s l1 l2 np val t Hnp). apply Hbrk. by right.
    - simpl. right. rewrite Hl in Ha.
      apply elem_of_app in Ha as [?|?]; apply elem_of_app; [by left|right; by right]. }
  assert (Hknew : key (heap s1) (brk s) = val).
  { rewrite Hs1, (key_bumped_chain σ (l1 ++ brk s :: l2)); [|done|].
    - apply (key_linked_new s l l1 l2 np val t Hwf Hl).
    - simpl. right. apply elem_of_app. right. by left. }
  destruct (split_unique (λ a, (key (heap s1) a < val)%Z) l1 (brk s :: l2) l1' l2')
    as [<- <-].
  { by rewrite <-Hl', <-Hl''. }
  { apply Forall_forall. intros a Ha. rewrite Hkold.
    - by eapply Forall_forall in Hl1.
    - rewrite Hl. apply elem_of_app. by left. }
  { done. }
  { simpl. intros c [= <-]. lia. }
  { intros c Hc. rewrite <-first_hd_error in Hc. specialize (Hl2' c Hc). lia. }
  simpl target in Hcase. rewrite Hknew, Z.eqb_refl in Hcase.
  destruct Hcase as (nc & l3 & [= <-] & Hnc & [= ->] & -> & Hs2 & _).
  exists s1, tr1, s2, tr2. split; [done|]. split; [done|].
  rewrite <-Hl in *. split; [done|]. split.
  { rewrite Hk2, Hk1. simpl. by rewrite take_out_place. }
  split.
  { rewrite Hs2, length_bumped. simpl. rewrite Hs1, length_bumped. simpl.
    rewrite wrap_int_add. f_equal. lia. }
  destruct (heap s2 !! brk s) as [n|] eqn:E; [|by right]. left.
  destruct (wf_owned _ _ Hwf2 (brk s)) as [Hin|Hin]; [by rewrite E| |done].
  rewrite Hhd2, Hhd1 in Hin. by destruct (Hbrk _ Hin).
Qed.

(** ** A node freed under a walking worker *)

(** X11.  A walking insert can read a freed node.  The list holds 5.
    Worker 0 starts insert(9): it publishes head->next (the node with 5,
    line 70).  Worker 1 inserts 3.  Worker 0 reads head->next again (line 71)
    and now holds the node with 3, which no hazard slot holds.  Worker 1
    removes 3; the reclaim pass of this remove frees the node.  Worker 0 then
    evaluates curr->value (line 74) on the freed node. *)
Theorem insert_reads_freed_node :
  ∃ log s0 t0 pred s1 t1 s2 tB h s3 tH s4 tR node,
    run [Insert 5 0] new = Returns log s0 t0 ∧
    insert_first_hazard 0 s0 = Returns pred s1 t1 ∧
    insert 3 1 s1 = Returns tt s2 tB ∧
    load pred s2 = Returns h s3 tH ∧
    next h = Some node ∧
    key (heap s3) node = 3%Z ∧
    hazarded node (accessedPointers s3) = false ∧
    remove 3 1 s3 = Returns true s4 tR ∧
    EvDelete node ∈ tR ∧
    heap s4 !! node = None ∧
    insert_from_curr (fuel_of s0) 9 0 pred (next h) s4 =
      Fails (Undefined (InvalidPointer node)).
Proof.
  eexists _, _, _, _, _, _, _, _, _, _, _, _, _, _.
  split; [vm_compute; reflexivity|].
  split; [vm_compute; reflexivity|].
  split; [vm_compute; reflexivity|].
  split; [vm_compute; reflexivity|].
  split; [vm_compute; reflexivity|].
  split; [vm_compute; reflexivity|].
  split; [vm_compute; reflexivity|].
  split; [vm_compute; reflexivity|].
  split; [vm_compute; set_solver|].
  split; [vm_compute; reflexivity|].
  vm_compute; reflexivity.
Qed.

(** ** What the operations emit *)

Lemma bind_Returns {A B} (m : M A) (f : A → M B) s b s' tr :
  bind m f s = Returns b s' tr →
  ∃ a s1 t1 t2, m s = Returns a s1 t1 ∧ f a s1 = Returns b s' t2 ∧ tr = t1 ++ t2.
Proof.
  unfold bind. destruct (m s) as [a s1 t1|]; [|done].
  destruct (f a s1) as [b' s2 t2|] eqn:E; [|done].
  intros [= -> -> <-]. by exists a, s1, t1, t2.
Qed.

Lemma wp_emits {A} E (m : M A) s (Q : A → state → list event → Prop) :
  emits E m → wp m s Q → wp m s (λ a s' tr, Q a s' tr ∧ Forall E tr).
Proof.
  intros He Hwp. apply wp_elim in Hwp as (a & s' & tr & Hrun & HQ).
  unfold wp. rewrite Hrun. split; [done|]. by eapply He.
Qed.

Lemma emits_impl {A} (E E' : event → Prop) (m : M A) :
  (∀ e, E e → E' e) → emits E m → emits E' m.
Proof. intros HE Hm s a s' tr Hrun. eapply Forall_impl; [by eapply Hm|done]. Qed.

Section emits.
Context (E : event → Prop).

Lemma emits_ret {A} (a : A) : emits E (ret a).
Proof. intros s a' s' tr H. unfold ret in H. simplify_eq. constructor. Qed.

Lemma emits_bind {A B} (m : M A) (f : A → M B) :
  emits E m → (∀ a, emits E (f a)) → emits E (bind m f).
Proof.
  intros Hm Hf s b s' tr (a & s1 & t1 & t2 & H1 & H2 & ->)%bind_Returns.
  apply Forall_app. split; [by eapply Hm|by eapply Hf].
Qed.

Lemma emits_gets {A} (f : state → A) : emits E (gets f).
Proof. intros s a' s' tr H. unfold gets in H. simplify_eq. constructor. Qed.

Lemma emits_modify f : emits E (modify f).
Proof. intros s a' s' tr H. unfold modify in H. simplify_eq. constructor. Qed.

Lemma emits_load p : (∀ T, E (EvAccess p T)) → emits E (load p).
Proof.
  intros HE s a s' tr. unfold load. destruct (heap s !! p); [|done].
  intros ?; simplify_eq. by repeat constructor.
Qed.

Lemma emits_store p f : (∀ T, E (EvAccess p T)) → emits E (store p f).
Proof.
  intros HE s a s' tr. unfold store. destruct (heap s !! p); [|done].
  intros ?; simplify_eq. by repeat constructor.
Qed.

Lemma emits_lock p : E (EvLock p) → emits E (lock p).
Proof.
  intros HE s a s' tr. unfold lock. destruct (heap s !! p); [|done].
  intros ?; simplify_eq. by repeat constructor.
Qed.

Lemma emits_unlock p : E (EvUnlock p) → emits E (unlock p).
Proof.
  intros HE s a s' tr. unfold unlock. destruct (heap s !! p); [|done].
  intros ?; simplify_eq. by repeat constructor.
Qed.

Lemma emits_new_Node v nxt : (∀ p, E (EvNew p)) → emits E (new_Node v nxt).
Proof.
  intros HE s a s' tr H. unfold new_Node in H. simplify_eq. by repeat constructor.
Qed.

Lemma emits_delete_Node p : E (EvDelete p) → emits E (delete_Node p).
Proof.
  intros HE s a s' tr. unfold delete_Node. destruct (heap s !! p); [|done].
  intros ?; simplify_eq. by repeat constructor.
Qed.

Lemma emits_storeAccessedPointer t p i :
  E (EvStore t i p) → emits E (storeAccessedPointer t p i).
Proof.
  intros HE s a s' tr. unfold storeAccessedPointer.
  destruct (in_table t i); [|done]. intros ?; simplify_eq. by repeat constructor.
Qed.

Lemma emits_for_each {A} (l : list A) body :
  (∀ i, emits E (body i)) → emits E (for_each l body).
Proof.
  intros Hb. induction l as [|i l IH]; simpl; [apply emits_ret|].
  apply emits_bind; [apply Hb|done].
Qed.

End emits.

Section walk.
Context (E : event → Prop) (t : Z).
Context (Hacc : ∀ p T, E (EvAccess p T)) (Hsto : ∀ i p, E (EvStore t i p)).

Lemma emits_resetAccessedPointer : emits E (resetAccessedPointer t).
Proof. apply emits_for_each. intros i. by apply emits_storeAccessedPointer. Qed.

Lemma emits_validate pred curr : emits E (validate pred curr).
Proof.
  unfold validate. apply emits_bind; [by apply emits_load|]. intros p.
  destruct (removed p); [apply emits_ret|].
  apply emits_bind.
  - destruct curr; [|apply emits_ret].
    apply emits_bind; [by apply emits_load|]. intros. apply emits_ret.
  - intros [|]; [apply emits_ret|].
    apply emits_bind; [by apply emits_load|]. intros. apply emits_ret.
Qed.

Lemma emits_traverse fuel val : ∀ pred curr,
  emits E (traverse fuel val t pred curr).
Proof.
  induction fuel as [|fuel IH]; intros pred curr; simpl; [done|].
  destruct curr as [c|]; [|apply emits_ret].
  apply emits_bind; [by apply emits_load|]. intros n.
  destruct (value n <? val)%Z; [|apply emits_ret].
  apply emits_bind; [by apply emits_storeAccessedPointer|]. intros _.
  apply emits_bind; [by apply emits_load|]. intros n1.
  apply emits_bind; [by apply emits_storeAccessedPointer|]. intros _.
  apply emits_bind; [by apply emits_load|]. intros n2. apply IH.
Qed.

Lemma emits_contains_loop fuel val : ∀ curr,
  emits E (contains_loop fuel val t curr).
Proof.
  induction fuel as [|fuel IH]; intros curr; simpl; [done|].
  destruct curr as [c|]; [|apply emits_ret].
  apply emits_bind; [by apply emits_load|]. intros n.
  destruct (value n <? val)%Z; [|apply emits_ret].
  apply emits_bind; [by apply emits_load|]. intros n1.
  apply emits_bind; [by apply emits_storeAccessedPointer|]. intros _. apply IH.
Qed.

Lemma emits_contains val : emits E (contains val t).
Proof.
  unfold contains. apply emits_bind; [apply emits_gets|]. intros fuel.
  apply emits_bind; [apply emits_gets|]. intros hd.
  apply emits_bind; [by apply emits_load|]. intros h.
  apply emits_bind; [by apply emits_storeAccessedPointer|]. intros _.
  apply emits_bind; [apply emits_contains_loop|]. intros curr.
  apply emits_bind.
  - destruct curr as [c|]; [|apply emits_ret].
    apply emits_bind; [by apply emits_load|]. intros n.
    destruct (removed n); [apply emits_ret|].
    apply emits_bind; [by apply emits_load|]. intros. apply emits_ret.
  - intros found. apply emits_bind; [apply emits_resetAccessedPointer|].
    intros. apply emits_ret.
Qed.

Lemma emits_insert_find fuel val : emits E (insert_find fuel val t).
Proof.
  unfold insert_find, insert_first_hazard.
  apply emits_bind.
  - apply emits_bind; [apply emits_gets|]. intros pred.
    apply emits_bind; [by apply emits_load|]. intros h.
    apply emits_bind; [by apply emits_storeAccessedPointer|]. intros.
    apply emits_ret.
  - intros pred. apply emits_bind; [by apply emits_load|]. intros h'.
    apply emits_traverse.
Qed.

Lemma emits_remove_find fuel val : emits E (remove_find fuel val t).
Proof.
  unfold remove_find.
  apply emits_bind; [apply emits_gets|]. intros pred.
  apply emits_bind; [by apply emits_load|]. intros h.
  apply emits_bind; [by apply emits_load|]. intros h'.
  apply emits_bind; [by apply emits_storeAccessedPointer|]. intros.
  apply emits_traverse.
Qed.

End walk.

Section own.
Context (t : Z).
Lemma emits_reclaim_loop l : ∀ acc, emits (own_store t) (reclaim_loop l acc).
Proof.
  induction l as [|a l IH]; intros acc; simpl; [apply emits_ret|].
  apply emits_bind; [apply emits_gets|]. intros b.
  destruct (negb b); [|apply IH].
  apply emits_bind; [by apply emits_delete_Node|]. intros. apply IH.
Qed.

Lemma emits_scanAndReclaim : emits (own_store t) scanAndReclaim.
Proof.
  unfold scanAndReclaim. apply emits_bind.
  { intros s a s' tr H. simplify_eq. by repeat constructor. }
  intros _. apply emits_bind; [apply emits_gets|]. intros l.
  apply emits_bind; [apply emits_reclaim_loop|]. intros. apply emits_modify.
Qed.

Lemma emits_fetch_add_length d : emits (own_store t) (length_fetch_add d).
Proof. intros s a s' tr H. unfold length_fetch_add in H. simplify_eq. constructor. Qed.

Lemma emits_fetch_add_operationCounter d : emits (own_store t) (operationCounter_fetch_add d).
Proof.
  intros s a s' tr H. unfold operationCounter_fetch_add in H. simplify_eq.
  constructor.
Qed.

Lemma emits_bump_and_reclaim : emits (own_store t) bump_and_reclaim.
Proof.
  unfold bump_and_reclaim.
  apply emits_bind; [apply emits_fetch_add_operationCounter|]. intros old.
  apply emits_bind; [apply emits_gets|]. intros len.
  destruct (_ >=? _)%Z; [|apply emits_ret].
  apply emits_bind; [apply emits_scanAndReclaim|]. intros _.
  apply emits_bind; [apply emits_gets|]. intros len'.
  apply emits_bind; [apply emits_fetch_add_operationCounter|]. intros.
  apply emits_ret.
Qed.

Lemma emits_lock_if curr : emits (own_store t) (lock_if curr).
Proof. destruct curr; [by apply emits_lock|apply emits_ret]. Qed.

Lemma emits_unlock_if curr : emits (own_store t) (unlock_if curr).
Proof. destruct curr; [by apply emits_unlock|apply emits_ret]. Qed.

Lemma emits_insert_locked val pred curr : emits (own_store t) (insert_locked val t pred curr).
Proof.
  unfold insert_locked.
  apply emits_bind; [by apply emits_lock|]. intros _.
  apply emits_bind; [apply emits_lock_if|]. intros _.
  apply emits_bind; [by apply emits_validate|]. intros ok.
  destruct (negb ok).
  - apply emits_bind; [by apply emits_resetAccessedPointer|]. intros _.
    apply emits_bind; [apply emits_unlock_if|]. intros _.
    apply emits_bind; [by apply emits_unlock|]. intros. apply emits_ret.
  - apply emits_bind; [by apply emits_new_Node|]. intros newNode.
    apply emits_bind; [by apply emits_store|]. intros _.
    apply emits_bind; [apply emits_unlock_if|]. intros _.
    apply emits_bind; [by apply emits_unlock|]. intros _.
    apply emits_bind; [by apply emits_resetAccessedPointer|]. intros _.
    apply emits_bind; [apply emits_fetch_add_length|]. intros _.
    apply emits_bind; [apply emits_bump_and_reclaim|]. intros. apply emits_ret.
Qed.

Lemma emits_remove_locked val pred curr : emits (own_store t) (remove_locked val t pred curr).
Proof.
  unfold remove_locked.
  apply emits_bind; [by apply emits_lock|]. intros _.
  apply emits_bind; [apply emits_lock_if|]. intros _.
  apply emits_bind; [by apply emits_validate|]. intros ok.
  destruct (negb ok).
  - apply emits_bind; [by apply emits_resetAccessedPointer|]. intros _.
    apply emits_bind; [apply emits_unlock_if|]. intros _.
    apply emits_bind; [by apply emits_unlock|]. intros. apply emits_ret.
  - apply emits_bind.
    { destruct curr; [|apply emits_ret].
      apply emits_bind; [by apply emits_load|]. intros. apply emits_ret. }
    intros [c|].
    + apply emits_bind; [by apply emits_store|]. intros _.
      apply emits_bind; [by apply emits_load|]. intros n.
      apply emits_bind; [by apply emits_store|]. intros _.
      apply emits_bind; [apply emits_modify|]. intros _.
      apply emits_bind; [by apply emits_resetAccessedPointer|]. intros _.
      apply emits_bind; [by apply emits_unlock|]. intros _.
      apply emits_bind; [by apply emits_unlock|]. intros _.
      apply emits_bind; [apply emits_fetch_add_length|]. intros _.
      apply emits_bind; [apply emits_bump_and_reclaim|]. intros. apply emits_ret.
    + apply emits_bind; [by apply emits_resetAccessedPointer|]. intros _.
      apply emits_bind; [apply emits_unlock_if|]. intros _.
      apply emits_bind; [by apply emits_unlock|]. intros. apply emits_ret.
Qed.

Lemma emits_insert_loop fuel val : ∀ attempts,
  emits (own_store t) (insert_loop attempts fuel val t).
Proof.
  induction attempts as [|n IH]; simpl; [done|].
  apply emits_bind.
  - unfold insert_attempt. apply emits_bind.
    + unfold insert_first_hazard.
      apply emits_bind; [apply emits_gets|]. intros pred.
      apply emits_bind; [by apply emits_load|]. intros h.
      apply emits_bind; [by apply emits_storeAccessedPointer|]. intros.
      apply emits_ret.
    + intros pred. rewrite insert_after_first_hazard_parts.
      apply emits_bind; [by apply emits_load|]. intros h'.
      unfold insert_from_curr.
      apply emits_bind; [by apply emits_traverse|]. intros [p c].
      apply emits_insert_locked.
  - intros [|]; [apply emits_ret|apply IH].
Qed.

Lemma emits_insert val : emits (own_store t) (insert val t).
Proof.
  unfold insert. apply emits_bind; [apply emits_gets|]. intros fuel.
  apply emits_insert_loop.
Qed.

Lemma emits_remove_loop fuel val : ∀ attempts,
  emits (own_store t) (remove_loop attempts fuel val t).
Proof.
  induction attempts as [|n IH]; [done|].
  intros s a s' tr. rewrite remove_loop_parts. revert s a s' tr.
  apply emits_bind; [by apply emits_remove_find|]. intros [p c].
  unfold remove_resume. apply emits_bind; [apply emits_remove_locked|].
  intros [b|]; [apply emits_ret|apply IH].
Qed.

Lemma emits_remove val : emits (own_store t) (remove val t).
Proof.
  unfold remove. apply emits_bind; [apply emits_gets|]. intros fuel.
  apply emits_remove_loop.
Qed.

End own.

(** ** The walk of insert and of remove on a well-formed list *)

Lemma wf_set_table s l T : wf s l → shape T → wf (set_accessedPointers T s) l.
Proof. intros [] HT. by split. Qed.

Lemma wp_insert_find s l val t fuel :
  wf s l → in_range t → (List.length l < fuel)%nat →
  wp (insert_find fuel val t) s (λ w s1 tr,
    ∃ l1 l2 T',
      w = (List.last l1 (head s), first l2) ∧
      s1 = set_accessedPointers T' s ∧
      l = l1 ++ l2 ∧
      Forall (λ a, (key (heap s) a < val)%Z) l1 ∧
      (∀ c, first l2 = Some c → (val ≤ key (heap s) c)%Z) ∧
      shape T' ∧ others_eq t (accessedPointers s) T' ∧
      (∀ c, first l2 = Some c → Some c ∈ row T' t) ∧
      (l1 ≠ [] → Some (List.last l1 (head s)) ∈ row T' t)).
Proof.
  intros Hwf Ht Hfuel.
  destruct (wf_head _ _ Hwf) as (nh & Hhd & Hrest).
  unfold insert_find, insert_first_hazard.
  apply wp_bind, wp_bind, wp_gets.
  apply wp_bind. eapply wp_load; [done|].
  apply wp_bind, wp_storeAccessedPointer; [by apply in_table_0|].
  apply wp_ret. apply wp_bind. eapply wp_load; [done|].
  set (T1 := publish (accessedPointers s) t 0 (next nh)).
  assert (HT1 : shape T1) by (apply shape_publish, Hwf).
  eapply (wp_traverse (heap s) val t (head s) Ht l fuel (head s) (next nh));
    try done.
  { intros c Hc. simpl. unfold T1. rewrite Hc. apply row_slot0; [apply Hwf|done]. }
  intros l1 l2 T' tr1 Hl Hl1 Hl2 HT' Hoth Hfirst Hlast Htr1. simpl in Hoth.
  exists l1, l2, T'. repeat (split; [done|]). split; [|split; [done|]].
  - eapply others_eq_trans; [|exact Hoth]. apply others_eq_publish, others_eq_refl.
  - intros Hne. apply Hlast. by left.
Qed.

Lemma wp_remove_find s l val t fuel :
  wf s l → in_range t → (List.length l < fuel)%nat →
  wp (remove_find fuel val t) s (λ w s1 tr,
    ∃ l1 l2 T',
      w = (List.last l1 (head s), first l2) ∧
      s1 = set_accessedPointers T' s ∧
      l = l1 ++ l2 ∧
      Forall (λ a, (key (heap s) a < val)%Z) l1 ∧
      (∀ c, first l2 = Some c → (val ≤ key (heap s) c)%Z) ∧
      shape T' ∧ others_eq t (accessedPointers s) T' ∧
      (∀ c, first l2 = Some c → Some c ∈ row T' t) ∧
      (l1 ≠ [] → Some (List.last l1 (head s)) ∈ row T' t)).
Proof.
  intros Hwf Ht Hfuel.
  destruct (wf_head _ _ Hwf) as (nh & Hhd & Hrest).
  unfold remove_find.
  apply wp_bind, wp_gets.
  apply wp_bind. eapply wp_load; [done|].
  apply wp_bind. eapply wp_load; [done|].
  apply wp_bind, wp_storeAccessedPointer; [by apply in_table_0|].
  set (T1 := publish (accessedPointers s) t 0 (next nh)).
  assert (HT1 : shape T1) by (apply shape_publish, Hwf).
  eapply (wp_traverse (heap s) val t (head s) Ht l fuel (head s) (next nh));
    try done.
  { intros c Hc. simpl. unfold T1. rewrite Hc. apply row_slot0; [apply Hwf|done]. }
  intros l1 l2 T' tr1 Hl Hl1 Hl2 HT' Hoth Hfirst Hlast Htr1. simpl in Hoth.
  exists l1, l2, T'. repeat (split; [done|]). split; [|split; [done|]].
  - eapply others_eq_trans; [|exact Hoth]. apply others_eq_publish, others_eq_refl.
  - intros Hne. apply Hlast. by left.
Qed.

Lemma insert_loop_parts attempts fuel val t s :
  insert_loop (S attempts) fuel val t s =
  (let* (pred, curr) := insert_find fuel val t in
   insert_resume attempts fuel val t pred curr) s.
Proof.
  cbn [insert_loop].
  unfold insert_attempt, insert_find, insert_after_first_hazard, insert_resume.
  rewrite !bind_assoc. apply bind_ext. intros pred s1.
  rewrite !bind_assoc. apply bind_ext. intros h' s2.
  rewrite bind_assoc. apply bind_ext. by intros [p c] s3.
Qed.

(** Alone, the window the walk found passes validation. *)
Lemma window_validated s l l1 l2 :
  wf s l → l = l1 ++ l2 →
  ∃ np, heap s !! List.last l1 (head s) = Some np ∧
    (∀ c, first l2 = Some c → is_Some (heap s !! c)) ∧
    validated (heap s) (List.last l1 (head s)) (first l2) = true.
Proof.
  intros Hwf Hl. pose proof (wf_chain _ _ Hwf) as Hch. rewrite Hl in Hch.
  apply chain_split in Hch as (L0 & np & HL0 & Hseg & Hnp & Hnext & Hch2).
  exists np. split; [done|].
  assert (Hpredin : List.last l1 (head s) ∈ head s :: l)
    by (by apply (wf_pred_in s l l1 l2)).
  assert (Hcurr : ∀ c, first l2 = Some c →
            ∃ nc, heap s !! c = Some nc ∧ removed nc = false).
  { intros c Hc. apply first_in in Hc.
    assert (Hcin : c ∈ head s :: l) by (rewrite Hl; right; apply elem_of_app; by right).
    destruct (seg_allocated _ _ _ _ c (wf_chain _ _ Hwf) Hcin) as [nc Hnc].
    exists nc. split; [done|]. eapply wf_live; eauto. }
  split.
  - intros c Hc. destruct (Hcurr c Hc) as (nc & Hnc & _). by eexists.
  - unfold validated. rewrite Hnp.
    rewrite (wf_live _ _ Hwf _ _ Hpredin Hnp), Hnext. simpl.
    rewrite bool_decide_eq_true_2 by done.
    destruct (first l2) as [c|]; [|done].
    destruct (Hcurr c eq_refl) as (nc & Hnc & Hr). rewrite Hnc. simpl. by rewrite Hr.
Qed.

Lemma bind_gets {A B} (f : state → A) (k : A → M B) s :
  bind (gets f) k s = k (f s) s.
Proof. unfold bind, gets. by destruct (k (f s) s). Qed.

Lemma bind_run {A B} (m : M A) (k : A → M B) s a s1 t1 b s2 t2 :
  m s = Returns a s1 t1 → k a s1 = Returns b s2 t2 →
  bind m k s = Returns b s2 (t1 ++ t2).
Proof. intros H1 H2. unfold bind. by rewrite H1, H2. Qed.

Lemma walk_no_locks t tr : Forall (walk_event t) tr → lock_events tr = [].
Proof.
  intros H. apply lock_events_silent. eapply Forall_impl; [exact H|].
  by intros [].
Qed.

Lemma insert_window s l val t :
  wf s l → in_range t →
  ∃ s' tr l1 l2,
    insert val t s = Returns tt s' tr ∧
    l = l1 ++ l2 ∧
    Forall (λ a, (key (heap s) a < val)%Z) l1 ∧
    (∀ c, first l2 = Some c → (val ≤ key (heap s) c)%Z) ∧
    lock_events tr = window_locks (List.last l1 (head s), first l2).
Proof.
  intros Hwf Ht.
  assert (Hfuel : (List.length l < fuel_of s)%nat).
  { pose proof (wf_fuel _ _ Hwf). unfold fuel_of. lia. }
  destruct (wp_elim _ _ _ (wp_emits (walk_event t) _ _ _
              (emits_insert_find _ t (λ _ _, I) (λ _ _, eq_refl) _ val)
              (wp_insert_find s l val t (fuel_of s) Hwf Ht Hfuel)))
    as (w & s1 & t1 & Hfind & (l1 & l2 & T' & -> & -> & Hl & Hl1 & Hl2 & HT' & _) & Hwalk).
  pose proof (wf_set_table _ _ T' Hwf HT') as Hwf1.
  destruct (window_validated _ _ l1 l2 Hwf1 Hl) as (np & Hnp & Hcurr & Hv).
  destruct (wp_elim _ _ _ (wp_insert_locked _ l val t _ _ np Hwf1 Ht Hnp Hcurr))
    as (b & s' & t2 & Hlocked & Hb & Hlk & _).
  rewrite Hv in Hb. subst b.
  exists s', (t1 ++ t2 ++ []), l1, l2. split; [|split; [done|split; [done|split; [done|]]]].
  - unfold insert. rewrite bind_gets. unfold fuel_of at 1.
    rewrite insert_loop_parts. eapply bind_run; [exact Hfind|].
    unfold insert_resume. eapply bind_run; [exact Hlocked|done].
  - rewrite app_nil_r, lock_events_app, (walk_no_locks _ _ Hwalk). exact Hlk.
Qed.

Lemma remove_window s l val t :
  wf s l → in_range t →
  ∃ b s' tr l1 l2,
    remove val t s = Returns b s' tr ∧
    l = l1 ++ l2 ∧
    Forall (λ a, (key (heap s) a < val)%Z) l1 ∧
    (∀ c, first l2 = Some c → (val ≤ key (heap s) c)%Z) ∧
    lock_events tr = window_locks (List.last l1 (head s), first l2).
Proof.
  intros Hwf Ht.
  assert (Hfuel : (List.length l < fuel_of s)%nat).
  { pose proof (wf_fuel _ _ Hwf). unfold fuel_of. lia. }
  destruct (wp_elim _ _ _ (wp_emits (walk_event t) _ _ _
              (emits_remove_find _ t (λ _ _, I) (λ _ _, eq_refl) _ val)
              (wp_remove_find s l val t (fuel_of s) Hwf Ht Hfuel)))
    as (w & s1 & t1 & Hfind & (l1 & l2 & T' & -> & -> & Hl & Hl1 & Hl2 & HT' & _) & Hwalk).
  pose proof (wf_set_table _ _ T' Hwf HT') as Hwf1.
  destruct (window_validated _ _ l1 l2 Hwf1 Hl) as (np & Hnp & Hcurr & Hv).
  destruct (wp_elim _ _ _ (wp_remove_locked _ l val t _ _ np Hwf1 Ht Hnp Hcurr))
    as (r & s' & t2 & Hlocked & Hlk & Hres).
  rewrite Hv in Hres.
  assert (∃ b, r = Some b) as [b ->].
  { destruct (target _ _ _); [destruct Hres as (? & _ & -> & _)|destruct Hres as (-> & _)];
      by eexists. }
  exists b, s', (t1 ++ t2 ++ []), l1, l2.
  split; [|split; [done|split; [done|split; [done|]]]].
  - unfold remove. rewrite bind_gets. unfold fuel_of at 1.
    rewrite remove_loop_parts. eapply bind_run; [exact Hfind|].
    unfold remove_resume. eapply bind_run; [exact Hlocked|done].
  - rewrite app_nil_r, lock_events_app, (walk_no_locks _ _ Hwalk). exact Hlk.
Qed.

(** X12.  The node mutexes of a call.  On a well-formed state, running
    alone, insert and remove make one pass: the only node mutexes (Node::m)
    they acquire are those of the window the walk stops at ([pred], the last
    node with a smaller key or the sentinel, then [curr], the node after it,
    if any), and both are released, [curr] first, before the call returns.
    contains acquires no node mutex: it only reads nodes and writes its own
    hazard slots.  The statement is about the mutexes of nodes only: the
    mutex of the retire list, which remove holds around push_back (line 159)
    and scanAndReclaim for its whole body (line 52), is not a node mutex and
    is not among the events of a trace. *)
Theorem locks_of_a_call s l val t :
  wf s l → in_range t →
  (∃ s' tr l1 l2,
     insert val t s = Returns tt s' tr ∧
     l = l1 ++ l2 ∧
     Forall (λ a, (key (heap s) a < val)%Z) l1 ∧
     (∀ c, first l2 = Some c → (val ≤ key (heap s) c)%Z) ∧
     lock_events tr = window_locks (List.last l1 (head s), first l2)) ∧
  (∃ b s' tr l1 l2,
     remove val t s = Returns b s' tr ∧
     l = l1 ++ l2 ∧
     Forall (λ a, (key (heap s) a < val)%Z) l1 ∧
     (∀ c, first l2 = Some c → (val ≤ key (heap s) c)%Z) ∧
     lock_events tr = window_locks (List.last l1 (head s), first l2)) ∧
  (∃ b s' tr, contains val t s = Returns b s' tr ∧ Forall (walk_event t) tr ∧
     lock_events tr = []).
Proof.
  intros Hwf Ht. split; [by apply insert_window|]. split; [by apply remove_window|].
  destruct (wp_elim _ _ _ (wp_emits (walk_event t) _ _ _
              (emits_contains _ t (λ _ _, I) (λ _ _, eq_refl) val)
              (wp_contains s l val t (wf_chain _ _ Hwf) (wf_shape _ _ Hwf) Ht)))
    as (b & s' & tr & Hrun & _ & Hwalk).
  exists b, s', tr. split; [done|]. split; [done|]. by eapply walk_no_locks.
Qed.

(** ** Hazard rows *)

Lemma effect_table c s l r s' l' tr :
  effect c s l r s' l' tr →
  accessedPointers s' =
  match worker_of c with
  | Some t => cleared (accessedPointers s) t
  | None => accessedPointers s
  end.
Proof.
  destruct c as [v t|v t|v t|]; simpl.
  - intros (_ & l1 & l2 & np & _ & _ & _ & _ & _ & _ & -> & _).
    by rewrite accessedPointers_bumped.
  - intros (l1 & l2 & np & _ & _ & _ & _ & Hcase).
    destruct (target _ _ _).
    + destruct Hcase as (nc & l3 & _ & _ & _ & _ & -> & _).
      by rewrite accessedPointers_bumped.
    + by destruct Hcase as (_ & _ & -> & _).
  - by intros (_ & _ & -> & _).
  - by intros (_ & _ & -> & _).
Qed.

Lemma emits_exec c t :
  match worker_of c with Some t' => t' = t | None => True end →
  emits (own_store t) (exec c).
Proof.
  destruct c as [v t'|v t'|v t'|]; simpl.
  - intros ->. apply emits_bind; [apply emits_insert|]. intros. apply emits_ret.
  - intros ->. apply emits_bind; [apply emits_remove|]. intros. apply emits_ret.
  - intros ->. apply emits_bind; [by apply emits_contains|]. intros. apply emits_ret.
  - intros _. apply emits_bind; [apply emits_scanAndReclaim|]. intros. apply emits_ret.
Qed.

(** X13.  Hazard rows are private.  On a well-formed state, a call of
    insert, remove or contains by worker [t] writes hazard slots of row [t]
    only, and when it returns row [t] is null and every other row is as
    before; scanAndReclaim writes no hazard slot. *)
Theorem hazard_rows_are_private s l c :
  wf s l → valid_call c →
  ∃ r s' tr,
    exec c s = Returns r s' tr ∧
    match worker_of c with
    | Some t =>
        Forall (own_store t) tr ∧
        accessedPointers s' = cleared (accessedPointers s) t
    | None =>
        Forall (λ e, ∀ t, own_store t e) tr ∧
        accessedPointers s' = accessedPointers s
    end.
Proof.
  intros Hwf Hc.
  destruct (exec_effect s l c Hwf Hc) as (r & s' & tr & l' & He & Heff).
  exists r, s', tr. split; [done|].
  pose proof (effect_table _ _ _ _ _ _ _ Heff) as HT.
  destruct (worker_of c) as [t|] eqn:Ew; (split; [|done]).
  - eapply (emits_exec c t); [by rewrite Ew|done].
  - apply Forall_forall. intros e He' t.
    assert (Ht : Forall (own_store t) tr).
    { eapply (emits_exec c t); [by rewrite Ew|done]. }
    by eapply Forall_forall in Ht.
Qed.

(** ** One pass of insert on a well-formed list *)

Lemma cleared_others_eq T T' t :
  in_range t → shape T → shape T' → others_eq t T T' →
  cleared T' t = cleared T t.
Proof.
  intros Ht HT HT' Hoth.
  rewrite <-(cleared_publish T T' t Ht HT HT' Hoth).
  by rewrite <-(cleared_publish T' T' t Ht HT' HT' (others_eq_refl _ _)).
Qed.

Lemma walk_no_reclaim t tr : Forall (walk_event t) tr → EvReclaim ∉ tr.
Proof. intros H. eapply Forall_not_reclaim; [exact H|]. by intros [] ?. Qed.

Lemma insert_loop_alone s l val t n fuel :
  wf s l → in_range t → (List.length l < fuel)%nat →
  ∃ s' tr l',
    insert_loop (S n) fuel val t s = Returns tt s' tr ∧
    effect (Insert val t) s l RUnit s' l' tr.
Proof.
  intros Hwf Ht Hfuel.
  destruct (wp_elim _ _ _ (wp_emits (walk_event t) _ _ _
              (emits_insert_find _ t (λ _ _, I) (λ _ _, eq_refl) _ val)
              (wp_insert_find s l val t fuel Hwf Ht Hfuel)))
    as (w & s1 & t1 & Hfind & (l1 & l2 & T' & -> & -> & Hl & Hl1 & Hl2 & HT' & Hoth & _) & Hwalk).
  pose proof (wf_set_table _ _ T' Hwf HT') as Hwf1.
  destruct (window_validated _ _ l1 l2 Hwf1 Hl) as (np & Hnp & Hcurr & Hv).
  destruct (wp_elim _ _ _ (wp_insert_locked _ l val t _ _ np Hwf1 Ht Hnp Hcurr))
    as (b & s' & t2 & Hlocked & Hb & _ & Hres).
  rewrite Hv in Hb. subst b. destruct Hres as [-> Hfire].
  assert (Hσ : linked (set_accessedPointers T' s)
                 (List.last l1 (head s)) np (first l2) val t
               = linked s (List.last l1 (head s)) np (first l2) val t).
  { unfold linked. simpl. f_equal. by apply cleared_others_eq; [|apply Hwf|..]. }
  change (head (set_accessedPointers T' s)) with (head s) in *.
  rewrite Hσ in Hlocked, Hfire.
  eexists; exists (t1 ++ t2 ++ []), (l1 ++ brk s :: l2). split.
  - rewrite insert_loop_parts. eapply bind_run; [exact Hfind|].
    unfold insert_resume. eapply bind_run; [exact Hlocked|done].
  - split; [done|]. exists l1, l2, np.
    do 4 (split; [done|]). split; [|split; [done|split; [done|]]].
    + pose proof (wf_chain _ _ Hwf) as Hch. rewrite Hl in Hch.
      apply chain_split in Hch as (L0 & np' & _ & _ & Hnp' & Hnext & _).
      simpl in Hnp. assert (np' = np) as -> by congruence. done.
    + rewrite app_nil_r. rewrite <-Hfire.
      apply elem_of_app_notin. by eapply walk_no_reclaim.
Qed.

(** ** Nodes held by a hazard slot of another worker *)

Lemma row_referenced T t a : Some a ∈ row T t → referenced a T.
Proof.
  unfold row. destruct (T !! Z.to_nat t) as [r|] eqn:E; simpl.
  - intros Ha. exists r. split; [|done]. by eapply list_elem_of_lookup_2.
  - by intros ?%elem_of_nil.
Qed.

Lemma reclaimed_guarded s l t a :
  wf s l → a = head s ∨ Some a ∈ row (accessedPointers s) t →
  heap (reclaimed s) !! a = heap s !! a.
Proof.
  intros Hwf Hg. destruct (decide (a ∈ retireList s)) as [Hret|Hnret];
    [|by apply reclaimed_other].
  destruct Hg as [->|Hrow].
  - destruct (wf_not_retired _ _ _ Hwf (list_elem_of_here _ _) Hret).
  - apply reclaimed_kept; [done|]. by apply hazarded_referenced, (row_referenced _ t).
Qed.

Lemma bumped_guarded s l t a :
  wf s l → a = head s ∨ Some a ∈ row (accessedPointers s) t →
  heap (bumped s) !! a = heap s !! a.
Proof.
  intros Hwf Hg. unfold bumped. destruct (fires s); [|done].
  simpl. by eapply reclaimed_guarded.
Qed.

Lemma row_cleared_ne T t t' :
  Z.to_nat t ≠ Z.to_nat t' → row (cleared T t') t = row T t.
Proof. intros Hne. unfold row, cleared. by rewrite list_lookup_insert_ne. Qed.

Lemma effect_keeps_guarded c s l r s' l' tr t a n :
  wf s l → valid_call c → effect c s l r s' l' tr →
  in_range t → worker_of c ≠ Some t →
  heap s !! a = Some n →
  a = head s ∨ Some a ∈ row (accessedPointers s) t →
  ∃ n', heap s' !! a = Some n' ∧ value n' = value n.
Proof.
  intros Hwf Hc Heff Ht Hw Ha Hg.
  assert (Hrow : ∀ t', in_range t' → t' ≠ t →
            a = head s ∨ Some a ∈ row (cleared (accessedPointers s) t') t).
  { intros t' Ht' Hne. destruct Hg as [?|?]; [by left|right].
    rewrite row_cleared_ne; [done|].
    unfold in_range in *. intros E. apply Hne. lia. }
  assert (Hbrk : a ≠ brk s).
  { intros ->. rewrite (wf_fresh _ _ Hwf) in Ha. done. }
  destruct c as [v t'|v t'|v t'|]; simpl in Heff, Hc.
  - destruct Heff as (_ & l1 & l2 & np & Hl & _ & _ & Hnp & _ & _ & -> & _).
    assert (t' ≠ t) by (intros ->; by apply Hw).
    rewrite (bumped_guarded _ (l1 ++ brk s :: l2) t);
      [|by apply (wf_linked s l l1 l2 np v t' Hwf Hl Hnp)|by apply Hrow].
    simpl. destruct (decide (a = List.last l1 (head s))) as [->|Hne].
    + rewrite lookup_insert_eq. assert (n = np) as -> by congruence.
      by eexists.
    + rewrite lookup_insert_ne, lookup_insert_ne by done. by eexists.
  - destruct Heff as (l1 & l2 & np & Hl & _ & _ & Hnp & Hcase).
    assert (t' ≠ t) by (intros ->; by apply Hw).
    destruct (target (heap s) v l2) as [c|].
    + destruct Hcase as (nc & l3 & -> & Hnc & _ & _ & -> & _).
      rewrite (bumped_guarded _ (l1 ++ l3) t);
        [|by apply (wf_unlinked s l l1 l3 c np nc t' Hwf Hl Hnp Hnc)|by apply Hrow].
      simpl. destruct (decide (a = List.last l1 (head s))) as [->|Hne].
      * rewrite lookup_insert_eq. assert (n = np) as -> by congruence.
        by eexists.
      * rewrite lookup_insert_ne by done.
        destruct (decide (a = c)) as [->|Hne'].
        -- rewrite lookup_insert_eq. assert (n = nc) as -> by congruence.
           by eexists.
        -- rewrite lookup_insert_ne by done. by eexists.
    + destruct Hcase as (_ & _ & -> & _). by eexists.
  - destruct Heff as (_ & _ & -> & _). by eexists.
  - destruct Heff as (_ & _ & -> & _).
    rewrite (reclaimed_guarded _ l t); [by eexists|done..].
Qed.

(** X8.  A published node survives the calls of other workers.  If a
    hazard slot of worker [t] holds an allocated node, then after any call
    of another worker or any call of scanAndReclaim (run on a well-formed
    state, reclaim passes of insert and remove included) the node is still
    allocated, has the same value, and is still in the slot. *)
Theorem published_node_survives s l c t a n :
  wf s l → valid_call c → in_range t → worker_of c ≠ Some t →
  heap s !! a = Some n → Some a ∈ row (accessedPointers s) t →
  ∃ r s' tr n',
    exec c s = Returns r s' tr ∧
    heap s' !! a = Some n' ∧ value n' = value n ∧
    Some a ∈ row (accessedPointers s') t.
Proof.
  intros Hwf Hc Ht Hw Ha Hrow.
  destruct (exec_effect s l c Hwf Hc) as (r & s' & tr & l' & He & Heff).
  destruct (effect_keeps_guarded c s l r s' l' tr t a n Hwf Hc Heff Ht Hw Ha)
    as (n' & Hn' & Hv); [by right|].
  exists r, s', tr, n'. split; [done|]. split; [done|]. split; [done|].
  rewrite (effect_table _ _ _ _ _ _ _ Heff).
  destruct c as [v t'|v t'|v t'|]; simpl in *; try done;
    (rewrite row_cleared_ne; [done|]);
    unfold in_range in *; intros E; apply Hw; f_equal; lia.
Qed.

(** ** insert with a call of another worker between its walk and its locks *)

Lemma insert_parts val t s :
  insert val t s =
  (let* (pred, curr) := insert_find (fuel_of s) val t in
   insert_resume (size (heap s)) (fuel_of s) val t pred curr) s.
Proof. unfold insert. rewrite bind_gets. unfold fuel_of at 1. apply insert_loop_parts. Qed.

Lemma effect_length c s l r s' l' tr :
  effect c s l r s' l' tr → (List.length l' ≤ S (List.length l))%nat.
Proof.
  intros Heff. destruct (effect_count _ _ _ _ _ _ _ Heff) as [[Hlen _]|(_ & Hlen & _)];
    [|lia].
  destruct c as [| |v t|], r as [|[]]; simpl in Hlen; lia.
Qed.

(** X9.  insert tolerates a call of another worker between its walk and
    its locks.  From a state that satisfies the invariant, let worker [t] run
    insert up to the end of its walk (lines 69-79), let any call [c] of
    another worker (or scanAndReclaim) run to completion, and let worker [t]
    go on (lines 81-111, and further passes after a failed validation).  Then
    everything returns, [c] answers as on the list of before, and at the end
    the invariant holds with the keys obtained by applying [c] and then
    placing [val]. *)
Theorem insert_survives_interference s l val t c :
  Inv s l → in_range t → valid_call c → worker_of c ≠ Some t →
  ∃ pred curr s1 t1 r s2 t2 s3 t3 l3,
    insert_find (fuel_of s) val t s = Returns (pred, curr) s1 t1 ∧
    exec c s1 = Returns r s2 t2 ∧
    insert_resume (size (heap s)) (fuel_of s) val t pred curr s2 =
      Returns tt s3 t3 ∧
    r = model_ret c (keys (heap s) l) ∧
    Inv s3 l3 ∧
    keys (heap s3) l3 = place val (model_step c (keys (heap s) l)).
Proof.
  intros [Hwf Hs] Ht Hc Hw.
  assert (Hfuel : (List.length l < fuel_of s)%nat).
  { pose proof (wf_fuel _ _ Hwf). unfold fuel_of. lia. }
  destruct (wp_elim _ _ _ (wp_insert_find s l val t (fuel_of s) Hwf Ht Hfuel))
    as (w & s1 & t1 & Hfind & l1 & l2 & T' & -> & -> & Hl & Hl1 & Hl2 & HT' & Hoth & Hcg & Hpg).
  set (s1 := set_accessedPointers T' s) in *.
  set (pred := List.last l1 (head s)) in *.
  assert (Hwf1 : wf s1 l) by (by apply wf_set_table).
  assert (HI1 : Inv s1 l) by (by split).
  destruct (exec_effect s1 l c Hwf1 Hc) as (r & s2 & t2 & l' & He & Heff).
  pose proof (effect_Inv _ _ _ _ _ _ _ HI1 Heff) as HI2.
  pose proof (effect_model_ret _ _ _ _ _ _ _ HI1 Heff) as Hr.
  destruct (effect_keys _ _ _ _ _ _ _ Hwf1 Heff) as (Hhd & _ & Hk).
  pose proof (effect_length _ _ _ _ _ _ _ Heff) as Hlen.
  change (heap s1) with (heap s) in *. change (head s1) with (head s) in *.
  destruct (window_validated _ _ l1 l2 Hwf Hl) as (np & Hnp & Hcurr & _).
  fold pred in Hnp.
  (* the window is still allocated, with the keys the walk saw *)
  destruct (effect_keeps_guarded c s1 l r s2 l' t2 t pred np Hwf1 Hc Heff Ht Hw Hnp)
    as (np' & Hnp' & Hvp).
  { destruct (decide (l1 = [])) as [->|Hne]; [by left|right]. by apply Hpg. }
  assert (Hcurr' : ∀ c0, first l2 = Some c0 →
            ∃ nc', heap s2 !! c0 = Some nc' ∧ key (heap s2) c0 = key (heap s) c0).
  { intros c0 Hc0. destruct (Hcurr c0 Hc0) as [nc Hnc].
    destruct (effect_keeps_guarded c s1 l r s2 l' t2 t c0 nc Hwf1 Hc Heff Ht Hw Hnc)
      as (nc' & Hnc' & Hvc); [right; by apply Hcg|].
    exists nc'. split; [done|]. unfold key. by rewrite Hnc', Hnc. }
  assert (Hkp : key (heap s2) pred = key (heap s) pred).
  { unfold key. by rewrite Hnp', Hnp. }
  destruct (insert_locked_commit s2 l' val t pred (first l2) HI2 Ht)
    as (b & s3 & t3 & Hlocked & _ & _ & Hres).
  { by eexists. }
  { intros c0 Hc0. destruct (Hcurr' c0 Hc0) as (nc' & Hnc' & _). by eexists. }
  { rewrite Hhd, Hkp. destruct (decide (l1 = [])) as [->|Hne]; [by left|right].
    eapply Forall_forall in Hl1; [exact Hl1|]. by apply last_in. }
  { intros c0 Hc0. destruct (Hcurr' c0 Hc0) as (nc' & _ & ->). by apply Hl2. }
  exists pred, (first l2), s1, t1, r, s2, t2.
  destruct b.
  - destruct Hres as (la & lb & Hl' & _ & _ & Heff3 & _).
    exists s3, (t3 ++ []), (la ++ brk s2 :: lb).
    split; [done|]. split; [done|]. split.
    { unfold insert_resume. eapply bind_run; [exact Hlocked|done]. }
    split; [done|]. split; [by eapply effect_Inv|].
    destruct (effect_keys _ _ _ _ _ _ _ (proj1 HI2) Heff3) as (_ & _ & ->).
    by rewrite Hk.
  - subst s3.
    set (s3 := set_accessedPointers (cleared (accessedPointers s2) t) s2) in *.
    assert (Hwf3 : wf s3 l') by (apply wf_set_cleared, HI2).
    assert (HI3 : Inv s3 l') by (split; [done|apply HI2]).
    assert (∃ n, size (heap s) = S n) as [n Hn].
    { pose proof (wf_fuel _ _ Hwf). destruct (size (heap s)); [lia|by eexists]. }
    destruct (insert_loop_alone s3 l' val t n (fuel_of s) Hwf3 Ht)
      as (s4 & t4 & l4 & Hloop & Heff4).
    { pose proof (wf_fuel _ _ Hwf). unfold fuel_of. lia. }
    exists s4, (t3 ++ t4), l4.
    split; [done|]. split; [done|]. split.
    { unfold insert_resume. eapply bind_run; [exact Hlocked|]. by rewrite Hn. }
    split; [done|]. split; [by eapply effect_Inv|].
    destruct (effect_keys _ _ _ _ _ _ _ Hwf3 Heff4) as (_ & _ & ->).
    change (heap s3) with (heap s2). by rewrite Hk.
Qed.

(** ** remove with a call of another worker between its walk and its locks *)

Lemma remove_parts val t s :
  remove val t s =
  (let* (pred, curr) := remove_find (fuel_of s) val t in
   remove_resume (size (heap s)) (fuel_of s) val t pred curr) s.
Proof. unfold remove. rewrite bind_gets. unfold fuel_of at 1. apply remove_loop_parts. Qed.

Lemma remove_locked_commit s l val t pred curr :
  Inv s l → in_range t →
  is_Some (heap s !! pred) →
  (∀ c, curr = Some c → is_Some (heap s !! c)) →
  pred = head s ∨ (key (heap s) pred < val)%Z →
  (∀ c, curr = Some c → (val ≤ key (heap s) c)%Z) →
  ∃ r s' tr,
    remove_locked val t pred curr s = Returns r s' tr ∧
    match r with
    | None => s' = set_accessedPointers (cleared (accessedPointers s) t) s
    | Some b => ∃ l', effect (Remove val t) s l (RBool b) s' l' tr
    end.
Proof.
  intros [Hwf Hs] Ht [np Hnp] Hcurr Hpred Hge.
  destruct (wp_elim _ _ _ (wp_remove_locked s l val t pred curr np Hwf Ht Hnp Hcurr))
    as (r & s' & tr & Hrun & Hlk & Hres).
  exists r, s', tr. split; [done|].
  destruct (validated (heap s) pred curr) eqn:Hv;
    [|by destruct Hres as (-> & -> & _)].
  destruct (window_on_chain _ _ _ _ _ Hwf Hnp Hv)
    as (l1 & l2 & -> & -> & -> & Hnext).
  assert (Hl1 : Forall (λ a, (key (heap s) a < val)%Z) l1).
  { apply (keys_below_last _ _ l2 (head s)); [done|].
    destruct (decide (l1 = [])) as [?|Hne]; [by left|right].
    destruct Hpred as [Heq|?]; [|done].
    exfalso. apply (head_not_in_chain _ _ Hwf).
    rewrite <-Heq. apply elem_of_app. left. by apply last_in. }
  assert (Htgt : target (heap s) val (option_list (first l2)) = target (heap s) val l2)
    by (by destruct l2).
  rewrite Htgt in Hres.
  destruct (target (heap s) val l2) as [c|] eqn:Etgt.
  - destruct Hres as (nc & Hnc & -> & -> & Hfire).
    destruct (target_Some _ _ _ _ Etgt) as (l3 & -> & Hkey).
    exists (l1 ++ l3), l1, (c :: l3), np. repeat (split; [done|]).
    rewrite Etgt. by exists nc, l3.
  - destruct Hres as (-> & -> & Hsil).
    exists (l1 ++ l2), l1, l2, np. repeat (split; [done|]). by rewrite Etgt.
Qed.

Lemma remove_loop_alone s l val t n fuel :
  wf s l → in_range t → (List.length l < fuel)%nat →
  ∃ b s' tr l',
    remove_loop (S n) fuel val t s = Returns b s' tr ∧
    effect (Remove val t) s l (RBool b) s' l' tr.
Proof.
  intros Hwf Ht Hfuel.
  destruct (wp_elim _ _ _ (wp_emits (walk_event t) _ _ _
              (emits_remove_find _ t (λ _ _, I) (λ _ _, eq_refl) _ val)
              (wp_remove_find s l val t fuel Hwf Ht Hfuel)))
    as (w & s1 & t1 & Hfind & (l1 & l2 & T' & -> & -> & Hl & Hl1 & Hl2 & HT' & Hoth & _) & Hwalk).
  pose proof (wf_set_table _ _ T' Hwf HT') as Hwf1.
  destruct (window_validated _ _ l1 l2 Hwf1 Hl) as (np & Hnp & Hcurr & Hv).
  destruct (wp_elim _ _ _ (wp_remove_locked _ l val t _ _ np Hwf1 Ht Hnp Hcurr))
    as (r & s' & t2 & Hlocked & _ & Hres).
  rewrite Hv in Hres.
  change (head (set_accessedPointers T' s)) with (head s) in *.
  change (heap (set_accessedPointers T' s)) with (heap s) in *.
  assert (Hcl : cleared T' t = cleared (accessedPointers s) t)
    by (by apply cleared_others_eq; [|apply Hwf|..]).
  assert (Htgt : target (heap s) val (option_list (first l2)) = target (heap s) val l2)
    by (by destruct l2).
  rewrite Htgt in Hres.
  assert (Hsil : EvReclaim ∉ t1) by (by eapply walk_no_reclaim).
  destruct (target (heap s) val l2) as [c|] eqn:Etgt.
  - destruct Hres as (nc & Hnc & -> & -> & Hfire).
    destruct (target_Some _ _ _ _ Etgt) as (l3 & -> & Hkey).
    assert (Hσ : unlinked (set_accessedPointers T' s)
                   (List.last l1 (head s)) np c nc t
                 = unlinked s (List.last l1 (head s)) np c nc t).
    { unfold unlinked. simpl. by rewrite Hcl. }
    rewrite Hσ in Hlocked, Hfire.
    exists true. eexists; exists (t1 ++ t2 ++ []), (l1 ++ l3). split.
    + rewrite remove_loop_parts. eapply bind_run; [exact Hfind|].
      unfold remove_resume. eapply bind_run; [exact Hlocked|done].
    + exists l1, (c :: l3), np. repeat (split; [done|]). rewrite Etgt.
      exists nc, l3. repeat (split; [done|]).
      rewrite app_nil_r, <-Hfire. by apply elem_of_app_notin.
  - destruct Hres as (-> & -> & Hsil2). simpl accessedPointers in Hlocked.
    rewrite Hcl in Hlocked.
    exists false. eexists; exists (t1 ++ t2 ++ []), l. split.
    + rewrite remove_loop_parts. eapply bind_run; [exact Hfind|].
      unfold remove_resume. eapply bind_run; [exact Hlocked|done].
    + exists l1, l2, np. repeat (split; [done|]). rewrite Etgt.
      split; [done|]. split; [done|]. split; [by destruct s|].
      rewrite app_nil_r. intros [?|?]%elem_of_app; done.
Qed.

(** X10.  remove tolerates a call of another worker between its walk and
    its locks.  As X9 for remove: worker [t] walks (lines 117-127), a call
    [c] of another worker runs to completion, worker [t] goes on (lines
    129-173, and further passes after a failed validation).  Everything
    returns, and the answer of remove and the keys at the end are those of
    [c] followed by remove(val). *)
Theorem remove_survives_interference s l val t c :
  Inv s l → in_range t → valid_call c → worker_of c ≠ Some t →
  ∃ pred curr s1 t1 r s2 t2 b s3 t3 l3,
    remove_find (fuel_of s) val t s = Returns (pred, curr) s1 t1 ∧
    exec c s1 = Returns r s2 t2 ∧
    remove_resume (size (heap s)) (fuel_of s) val t pred curr s2 =
      Returns b s3 t3 ∧
    r = model_ret c (keys (heap s) l) ∧
    RBool b = model_ret (Remove val t) (model_step c (keys (heap s) l)) ∧
    Inv s3 l3 ∧
    keys (heap s3) l3 =
      model_step (Remove val t) (model_step c (keys (heap s) l)).
Proof.
  intros [Hwf Hs] Ht Hc Hw.
  assert (Hfuel : (List.length l < fuel_of s)%nat).
  { pose proof (wf_fuel _ _ Hwf). unfold fuel_of. lia. }
  destruct (wp_elim _ _ _ (wp_remove_find s l val t (fuel_of s) Hwf Ht Hfuel))
    as (w & s1 & t1 & Hfind & l1 & l2 & T' & -> & -> & Hl & Hl1 & Hl2 & HT' & Hoth & Hcg & Hpg).
  set (s1 := set_accessedPointers T' s) in *.
  set (pred := List.last l1 (head s)) in *.
  assert (Hwf1 : wf s1 l) by (by apply wf_set_table).
  assert (HI1 : Inv s1 l) by (by split).
  destruct (exec_effect s1 l c Hwf1 Hc) as (r & s2 & t2 & l' & He & Heff).
  pose proof (effect_Inv _ _ _ _ _ _ _ HI1 Heff) as HI2.
  pose proof (effect_model_ret _ _ _ _ _ _ _ HI1 Heff) as Hr.
  destruct (effect_keys _ _ _ _ _ _ _ Hwf1 Heff) as (Hhd & _ & Hk).
  pose proof (effect_length _ _ _ _ _ _ _ Heff) as Hlen.
  change (heap s1) with (heap s) in *. change (head s1) with (head s) in *.
  destruct (window_validated _ _ l1 l2 Hwf Hl) as (np & Hnp & Hcurr & _).
  fold pred in Hnp.
  destruct (effect_keeps_guarded c s1 l r s2 l' t2 t pred np Hwf1 Hc Heff Ht Hw Hnp)
    as (np' & Hnp' & Hvp).
  { destruct (decide (l1 = [])) as [->|Hne]; [by left|right]. by apply Hpg. }
  assert (Hcurr' : ∀ c0, first l2 = Some c0 →
            ∃ nc', heap s2 !! c0 = Some nc' ∧ key (heap s2) c0 = key (heap s) c0).
  { intros c0 Hc0. destruct (Hcurr c0 Hc0) as [nc Hnc].
    destruct (effect_keeps_guarded c s1 l r s2 l' t2 t c0 nc Hwf1 Hc Heff Ht Hw Hnc)
      as (nc' & Hnc' & Hvc); [right; by apply Hcg|].
    exists nc'. split; [done|]. unfold key. by rewrite Hnc', Hnc. }
  assert (Hkp : key (heap s2) pred = key (heap s) pred).
  { unfold key. by rewrite Hnp', Hnp. }
  destruct (remove_locked_commit s2 l' val t pred (first l2) HI2 Ht)
    as (ro & s3 & t3 & Hlocked & Hres).
  { by eexists. }
  { intros c0 Hc0. destruct (Hcurr' c0 Hc0) as (nc' & Hnc' & _). by eexists. }
  { rewrite Hhd, Hkp. destruct (decide (l1 = [])) as [->|Hne]; [by left|right].
    eapply Forall_forall in Hl1; [exact Hl1|]. by apply last_in. }
  { intros c0 Hc0. destruct (Hcurr' c0 Hc0) as (nc' & _ & ->). by apply Hl2. }
  exists pred, (first l2), s1, t1, r, s2, t2.
  destruct ro as [b|].
  - destruct Hres as (l3 & Heff3).
    exists b, s3, (t3 ++ []), l3.
    split; [done|]. split; [done|]. split.
    { unfold remove_resume. eapply bind_run; [exact Hlocked|done]. }
    split; [done|]. rewrite <-Hk.
    split; [by eapply effect_model_ret|]. split; [by eapply effect_Inv|].
    by destruct (effect_keys _ _ _ _ _ _ _ (proj1 HI2) Heff3) as (_ & _ & ->).
  - subst s3.
    set (s3 := set_accessedPointers (cleared (accessedPointers s2) t) s2) in *.
    assert (Hwf3 : wf s3 l') by (apply wf_set_cleared, HI2).
    assert (HI3 : Inv s3 l') by (split; [done|apply HI2]).
    assert (∃ n, size (heap s) = S n) as [n Hn].
    { pose proof (wf_fuel _ _ Hwf). destruct (size (heap s)); [lia|by eexists]. }
    destruct (remove_loop_alone s3 l' val t n (fuel_of s) Hwf3 Ht)
      as (b & s4 & t4 & l4 & Hloop & Heff4).
    { pose proof (wf_fuel _ _ Hwf). unfold fuel_of. lia. }
    exists b, s4, (t3 ++ t4), l4.
    split; [done|]. split; [done|]. split.
    { unfold remove_resume. eapply bind_run; [exact Hlocked|]. by rewrite Hn. }
    split; [done|]. rewrite <-Hk. change (heap s2) with (heap s3).
    split; [by eapply effect_model_ret|]. split; [by eapply effect_Inv|].
    by destruct (effect_keys _ _ _ _ _ _ _ Hwf3 Heff4) as (_ & _ & ->).
Qed.

(** ** checkList on any chain *)

(** X17.  checkList decides sortedness.  On every state whose chain from
    the head is finite, whatever the keys and the marks, checkList returns
    without changing the state, and it returns true exactly when the keys
    along the chain, the sentinel's included, are non-decreasing. *)
Theorem checkList_decides_sortedness s l :
  chain (heap s) (Some (head s)) (head s :: l) →
  ∃ b tr,
    checkList s = Returns b s tr ∧
    (b = true ↔ Sorted Z.le (keys (heap s) (head s :: l))).
Proof.
  intros Hch.
  destruct (wp_elim _ _ _
    (wp_checkList s l
       (λ b s2 _, b = ascending (key (heap s) (head s)) (keys (heap s) l) ∧ s2 = s)
       Hch (λ _, conj eq_refl eq_refl)))
    as (b & s2 & tr & Hcheck & -> & ->).
  eexists; exists tr. split; [done|]. apply ascending_Sorted.
Qed.

(** ** Two reclaim passes *)

Lemma kept_kept T (l : list addr) : kept T (kept T l) = kept T l.
Proof.
  unfold kept. induction l as [|a l IH]; [done|].
  rewrite filter_cons. destruct (decide (hazarded a T = true)) as [Ha|Ha]; [|done].
  rewrite filter_cons, decide_True by done. by rewrite IH.
Qed.

Lemma freed_kept T (l : list addr) : freed T (kept T l) = [].
Proof.
  unfold freed, kept. induction l as [|a l IH]; [done|].
  rewrite filter_cons. destruct (decide (hazarded a T = true)) as [Ha|Ha]; [|done].
  rewrite filter_cons, decide_False by (by intros ?). done.
Qed.

Lemma reclaimed_reclaimed s : reclaimed (reclaimed s) = reclaimed s.
Proof.
  unfold reclaimed, set_retireList, set_heap. simpl.
  by rewrite kept_kept, freed_kept.
Qed.

(** X18.  A second reclaim pass frees nothing.  On a well-formed state,
    scanAndReclaim called twice in a row returns twice; the second call
    deletes no node and leaves the state the first call produced. *)
Theorem scanAndReclaim_twice s l :
  wf s l →
  ∃ s1 t1 t2,
    scanAndReclaim s = Returns tt s1 t1 ∧
    scanAndReclaim s1 = Returns tt s1 t2 ∧
    deleted t2 = [] ∧
    wf s1 l.
Proof.
  intros Hwf.
  destruct (scanAndReclaim_effect s l Hwf) as (t1 & Hrun1 & _).
  pose proof (wf_reclaimed _ _ Hwf) as Hwf1.
  destruct (scanAndReclaim_effect _ l Hwf1) as (t2 & Hrun2 & Hd2).
  rewrite reclaimed_reclaimed in Hrun2.
  exists (reclaimed s), t1, t2. split; [done|]. split; [done|]. split; [|done].
  rewrite Hd2. simpl. apply freed_kept.
Qed.

(** ** Two inserts in either order *)

Lemma place_place a b ks :
  StronglySorted Z.le ks → place a (place b ks) = place b (place a ks).
Proof.
  intros Hs. apply (StronglySorted_unique Z.le).
  - by do 2 apply place_sorted.
  - by do 2 apply place_sorted.
  - rewrite !place_perm. apply Permutation_swap.
Qed.

(** X5.  Two inserts commute.  From every state that satisfies the
    invariant, inserting a and then b, or b and then a, makes printList
    print the same list. *)
Theorem inserts_commute s l a b t t' :
  Inv s l → in_range t → in_range t' →
  ∃ log1 s1 tr1 log2 s2 tr2 out tr1' tr2',
    run [Insert a t; Insert b t'] s = Returns log1 s1 tr1 ∧
    run [Insert b t'; Insert a t] s = Returns log2 s2 tr2 ∧
    printList s1 = Returns out s1 tr1' ∧
    printList s2 = Returns out s2 tr2'.
Proof.
  intros HI Ht Ht'.
  destruct (run_model [Insert a t; Insert b t'] s l HI)
    as (log1 & s1 & tr1 & l1 & tr1' & Hrun1 & _ & _ & _ & _ & _ & Hp1).
  { apply Forall_cons_2; [done|]. apply Forall_cons_2; [done|]. apply Forall_nil_2. }
  destruct (run_model [Insert b t'; Insert a t] s l HI)
    as (log2 & s2 & tr2 & l2 & tr2' & Hrun2 & _ & _ & _ & _ & _ & Hp2).
  { apply Forall_cons_2; [done|]. apply Forall_cons_2; [done|]. apply Forall_nil_2. }
  simpl in Hp1, Hp2. rewrite (place_place a b) in Hp2 by apply HI.
  by exists log1, s1, tr1, log2, s2, tr2, (place b (place a (keys (heap s) l))), tr1', tr2'.
Qed.

(** ** The end of main *)

Lemma tally_le f log : (tally f log ≤ Z.of_nat (List.length log))%Z.
Proof. unfold tally. pose proof (List.filter_length_le f log). lia. Qed.

Lemma main_call_legal c : main_call c → legal_call c.
Proof.
  unfold legal_call, valid_call, in_range, MAX_THREADS.
  destruct c as [v t|v t| |]; simpl; try done; intros [? ?]; (split; [lia|]);
    [lia|done].
Qed.

(** X19.  The end of main.  Let the calls of main's worker threads
    (inserts by the workers 0..3, removes by the workers 4..7, keys in 0..200,
    at most 8000 calls) run one after the other in any order.  Then the code
    of main after the joins prints a non-decreasing list that, with the keys
    the successful removes took out, is a permutation of the inserted keys;
    Length is the number of values printed; the answer for 50 says whether
    50 was printed; SORTED is printed; and when main returns no node is left
    allocated. *)
Theorem main_epilogue_after_calls cs :
  Forall main_call cs → (Z.of_nat (List.length cs) ≤ 8000)%Z →
  ∃ log s1 t1 out s2 t2,
    run cs new = Returns log s1 t1 ∧
    main_epilogue s1 =
      Returns (out, Z.of_nat (List.length out), bool_decide (50%Z ∈ out), true)
              s2 t2 ∧
    StronglySorted Z.le out ∧
    out ++ removed_keys log ≡ₚ inserted_keys log ∧
    heap s2 = ∅.
Proof.
  intros Hcs Hbound.
  destruct (run_invariant
    (λ log s l,
       (StronglySorted Z.le (keys (heap s) l) ∧
        keys (heap s) l ++ removed_keys log ≡ₚ inserted_keys log) ∧
       (key (heap s) (head s) = (-1)%Z ∧
        Forall (λ k, (-1 ≤ k)%Z) (keys (heap s) l)) ∧
       all_null (accessedPointers s) ∧
       Z.of_nat (List.length l) = (tally is_insert log - tally is_removal log)%Z ∧
       length s = wrap_int (tally is_insert log - tally is_removal log))
    main_call) with (cs := cs)
    as (log & s1 & t1 & l & Hrun & Hwf & [Hs Hperm] & [Hhd Hlow] & Hnull & Hcount & Hlen);
    try done.
  - intros c Hc. by apply main_call_legal.
  - split; [split; [constructor|done]|]. split; [split; [done|constructor]|].
    split; [apply all_null_new|]. by split.
  - intros log s l c r s' l' tr Hwf ([Hs Hperm] & [Hhd Hlow] & Hnull & Hcount & Hlen) Hc _ Heff.
    split; [by eapply conservation_step|].
    destruct (effect_keys _ _ _ _ _ _ _ Hwf Heff) as (Hh1 & Hh2 & Hk).
    split.
    { rewrite Hh1, Hh2, Hk. split; [done|].
      by apply model_step_lower; [apply main_call_legal|]. }
    split.
    { rewrite (effect_table _ _ _ _ _ _ _ Heff).
      destruct (worker_of c); [by apply all_null_cleared|done]. }
    rewrite !tally_snoc.
    pose proof (delta_tally c r tr) as Hd.
    destruct (effect_count _ _ _ _ _ _ _ Heff) as [[Hl' Hs']|(Hz & Hl' & Hs')].
    + split; [lia|]. rewrite Hs', Hlen, wrap_int_add. f_equal. lia.
    + split; [lia|]. rewrite Hs', Hlen. f_equal. lia.
  - destruct (printList_keys _ _ Hwf) as [tp Hprint].
    assert (Hlen' : length s1 = Z.of_nat (List.length (keys (heap s1) l))).
    { unfold keys. rewrite length_fmap, Hcount, Hlen.
      apply wrap_int_small.
      pose proof (tally_le is_insert log). pose proof (tally_nonneg is_removal log).
      rewrite (run_length _ _ _ _ _ Hrun) in H.
      assert (INT_MAX = 2147483647%Z) by reflexivity.
      assert (INT_MIN = (-2147483648)%Z) by reflexivity. lia. }
    destruct (wp_elim _ _ _ (wp_contains s1 l 50 0 (wf_chain _ _ Hwf)
                (wf_shape _ _ Hwf) in_range_0))
      as (b & s1c & tc & Hcont & -> & -> & _).
    rewrite (holds_stop_node _ _ _ Hwf Hs) in Hcont.
    set (s1c := set_accessedPointers (cleared (accessedPointers s1) 0) s1) in *.
    assert (Hwfc : wf s1c l) by (by apply wf_set_cleared).
    assert (Hall : Sorted Z.le (keys (heap s1c) (head s1c :: l))).
    { simpl. change (key (heap s1) (head s1) :: keys (heap s1) l)
        with ((key (heap s1) (head s1)) :: keys (heap s1) l).
      rewrite Hhd. apply StronglySorted_Sorted. by constructor. }
    destruct (wp_elim _ _ _
      (wp_checkList s1c l (λ b s2 _, b = true ∧ s2 = s1c) (wf_chain _ _ Hwfc)
         (λ _, conj (proj2 (ascending_Sorted _ _) Hall) eq_refl)))
      as (b & s2' & tk & Hcheck & -> & ->).
    destruct (reclaim_then_destroy s1c l Hwfc) as (tr1 & s2 & tr2 & Hscan & Hdel & _ & _ & Hempty).
    exists log, s1, t1, (keys (heap s1) l), s2. eexists.
    split; [done|]. split; [|split; [done|split; [done|]]].
    + unfold main_epilogue.
      eapply bind_run; [exact Hprint|].
      eapply bind_run; [reflexivity|]. rewrite Hlen'.
      eapply bind_run; [exact Hcont|].
      eapply bind_run; [exact Hcheck|].
      eapply bind_run; [exact Hscan|].
      eapply bind_run; [exact Hdel|]. reflexivity.
    + apply Hempty. by apply all_null_cleared.
Qed.

(** ** The scenarios *)

Ltac enum_heap H :=
  simpl in H;
  repeat (apply lookup_insert_Some in H as [[<- H]|[_ H]]);
  try (apply lookup_singleton_Some in H as [<- H]).

Lemma wf_S5 : wf S5 [].
Proof.
  split.
  - econstructor; [reflexivity|constructor].
  - intros a n ->%list_elem_of_singleton. by intros [= <-].
  - intros a Ha. simpl in Ha.
    apply elem_of_cons in Ha as [->|Ha]; [by eexists|].
    apply list_elem_of_singleton in Ha as ->. by eexists.
  - simpl. by repeat constructor; set_solver.
  - intros a [n Hn]. enum_heap Hn; simpl; set_solver.
  - intros a [n Hn]. enum_heap Hn; simpl; lia.
  - split; [done|]. by repeat constructor.
Qed.

Lemma wf_S8 : wf S8 [2%positive; 3%positive].
Proof.
  split.
  - repeat (econstructor; [reflexivity|]). constructor.
  - intros a n Ha Hn. enum_heap Hn; subst; done.
  - by intros a ?%elem_of_nil.
  - constructor.
  - intros a [n Hn]. enum_heap Hn; simpl; set_solver.
  - intros a [n Hn]. enum_heap Hn; simpl; lia.
  - split; [done|]. by repeat constructor.
Qed.

Lemma Inv_S8 : Inv S8 [2%positive; 3%positive].
Proof.
  split; [exact wf_S8|].
  change (keys (heap S8) [2%positive; 3%positive]) with [2; 7]%Z.
  apply SSorted_cons; [apply SSorted_cons; [apply SSorted_nil|apply Forall_nil_2]|].
  apply Forall_cons_2; [lia|apply Forall_nil_2].
Qed.

Lemma S8_reached :
  ∃ log tr, run [Insert 2 0; Insert 7 0] new = Returns log S8 tr.
Proof. eexists _, _. vm_compute. reflexivity. Qed.

Lemma valid_S6 : Forall valid_call S6.
Proof.
  unfold S6.
  repeat (apply Forall_cons_2;
          [first [exact I | unfold valid_call, in_range, MAX_THREADS; lia]|]).
  apply Forall_nil_2.
Qed.

Lemma main_calls_S7 : Forall main_call S7.
Proof.
  unfold S7.
  repeat (apply Forall_cons_2; [unfold main_call; lia|]). apply Forall_nil_2.
Qed.

Lemma S8_window_allocated : is_Some (heap S8 !! 2%positive).
Proof. by eexists. Qed.

Lemma S8_curr_allocated c :
  Some 3%positive = Some c → is_Some (heap S8 !! c).
Proof. intros [= <-]. by eexists. Qed.

Lemma S8_pred_below v :
  (2 < v)%Z → 2%positive = head S8 ∨ (key (heap S8) 2%positive < v)%Z.
Proof. intros Hv. right. change (key (heap S8) 2%positive) with 2%Z. exact Hv. Qed.

Lemma S8_curr_above v c :
  (v ≤ 7)%Z → Some 3%positive = Some c → (v ≤ key (heap S8) c)%Z.
Proof. intros Hv [= <-]. change (key (heap S8) 3%positive) with 7%Z. exact Hv. Qed.

Lemma S8_window_distinct : Some 3%positive ≠ Some 2%positive.
Proof. discriminate. Qed.

Lemma wf_S9 : wf S9 [2%positive; 3%positive].
Proof.
  split.
  - repeat (econstructor; [reflexivity|]). constructor.
  - intros a n Ha Hn. enum_heap Hn; subst; try done.
    simpl in Ha. set_solver.
  - intros a ->%list_elem_of_singleton. by eexists.
  - simpl. by repeat constructor; set_solver.
  - intros a [n Hn]. enum_heap Hn; simpl; set_solver.
  - intros a [n Hn]. enum_heap Hn; simpl; lia.
  - split; [done|]. by repeat constructor.
Qed.

Lemma other_worker : worker_of (Remove 2 1) ≠ Some 0%Z.
Proof. simpl. intros H. discriminate H. Qed.

(** ** The theorems at the scenarios *)

Lemma run_refines_sorted_multiset_witness :
  Forall valid_call S6 ∧
  ∃ log s' tr tr',
    run S6 new = Returns log s' tr ∧
    log.*1.*1 = S6 ∧
    log.*1.*2 = (model_run S6 []).1 ∧
    StronglySorted Z.le (model_run S6 []).2 ∧
    printList s' = Returns (model_run S6 []).2 s' tr'.
Proof. split; [exact valid_S6|]. apply (run_refines_sorted_multiset S6 valid_S6). Defined.

Lemma keys_are_conserved_witness :
  Forall valid_call S6 ∧
  ∃ log s' tr out tr',
    run S6 new = Returns log s' tr ∧
    printList s' = Returns out s' tr' ∧
    StronglySorted Z.le out ∧
    out ++ removed_keys log ≡ₚ inserted_keys log.
Proof. split; [exact valid_S6|]. apply (keys_are_conserved S6 valid_S6). Defined.

Lemma inserts_print_sorted_witness :
  in_range 0 ∧
  ∃ log s' tr tr',
    run (inserts [5; 2; 8; 2; 5; 1]%Z 0) new = Returns log s' tr ∧
    printList s' = Returns (merge_sort Z.le [5; 2; 8; 2; 5; 1]%Z) s' tr'.
Proof.
  split; [exact in_range_0|].
  apply (inserts_print_sorted [5; 2; 8; 2; 5; 1]%Z 0 in_range_0).
Defined.

Lemma insert_then_remove_witness :
  wf S8 [2%positive; 3%positive] ∧ in_range 0 ∧ in_range 1 ∧
  ∃ s1 tr1 s2 tr2,
    insert 5 0 S8 = Returns tt s1 tr1 ∧
    remove 5 1 s1 = Returns true s2 tr2 ∧
    wf s2 [2%positive; 3%positive] ∧
    keys (heap s2) [2%positive; 3%positive] =
      keys (heap S8) [2%positive; 3%positive] ∧
    length s2 = wrap_int (length S8) ∧
    (brk S8 ∈ retireList s2 ∨ heap s2 !! brk S8 = None).
Proof.
  split; [exact wf_S8|]. split; [exact in_range_0|]. split; [exact in_range_1|].
  apply (insert_then_remove S8 [2%positive; 3%positive] 5 0 1
           wf_S8 in_range_0 in_range_1).
Defined.

Lemma inserts_commute_witness :
  Inv S8 [2%positive; 3%positive] ∧ in_range 0 ∧ in_range 1 ∧
  ∃ log1 s1 tr1 log2 s2 tr2 out tr1' tr2',
    run [Insert 5 0; Insert 3 1] S8 = Returns log1 s1 tr1 ∧
    run [Insert 3 1; Insert 5 0] S8 = Returns log2 s2 tr2 ∧
    printList s1 = Returns out s1 tr1' ∧
    printList s2 = Returns out s2 tr2'.
Proof.
  split; [exact Inv_S8|]. split; [exact in_range_0|]. split; [exact in_range_1|].
  apply (inserts_commute S8 [2%positive; 3%positive] 5 3 0 1
           Inv_S8 in_range_0 in_range_1).
Defined.

Lemma insert_locked_validated_witness :
  Inv S8 [2%positive; 3%positive] ∧ in_range 0 ∧
  is_Some (heap S8 !! 2%positive) ∧
  (∀ c, Some 3%positive = Some c → is_Some (heap S8 !! c)) ∧
  (2%positive = head S8 ∨ (key (heap S8) 2%positive < 5)%Z) ∧
  (∀ c, Some 3%positive = Some c → (5 ≤ key (heap S8) c)%Z) ∧
  Some 3%positive ≠ Some 2%positive ∧
  ∃ b s' tr,
    insert_locked 5 0 2%positive (Some 3%positive) S8 = Returns b s' tr ∧
    b = validated (heap S8) 2%positive (Some 3%positive) ∧
    lock_events tr = window_locks (2%positive, Some 3%positive) ∧
    if b then
      ∃ l1 l2,
        [2%positive; 3%positive] = l1 ++ l2 ∧
        2%positive = List.last l1 (head S8) ∧ Some 3%positive = first l2 ∧
        Inv s' (l1 ++ brk S8 :: l2) ∧
        heap s' !! brk S8 = Some (mkNode 5 (Some 3%positive) false) ∧
        keys (heap s') (l1 ++ brk S8 :: l2) =
          place 5 (keys (heap S8) [2%positive; 3%positive])
    else
      s' = set_accessedPointers (cleared (accessedPointers S8) 0) S8.
Proof.
  assert (H2 : 2%positive = head S8 ∨ (key (heap S8) 2%positive < 5)%Z)
    by (apply S8_pred_below; lia).
  assert (H3 : ∀ c, Some 3%positive = Some c → (5 ≤ key (heap S8) c)%Z)
    by (intros c; apply S8_curr_above; lia).
  split; [exact Inv_S8|]. split; [exact in_range_0|].
  split; [exact S8_window_allocated|]. split; [exact S8_curr_allocated|].
  split; [exact H2|]. split; [exact H3|]. split; [exact S8_window_distinct|].
  apply (insert_locked_validated S8 [2%positive; 3%positive] 5 0 2%positive
           (Some 3%positive) Inv_S8 in_range_0 S8_window_allocated
           S8_curr_allocated H2 H3 S8_window_distinct).
Defined.

Lemma remove_locked_validated_witness :
  Inv S8 [2%positive; 3%positive] ∧ in_range 0 ∧
  is_Some (heap S8 !! 2%positive) ∧
  (∀ c, Some 3%positive = Some c → is_Some (heap S8 !! c)) ∧
  (2%positive = head S8 ∨ (key (heap S8) 2%positive < 7)%Z) ∧
  (∀ c, Some 3%positive = Some c → (7 ≤ key (heap S8) c)%Z) ∧
  Some 3%positive ≠ Some 2%positive ∧
  ∃ r s' tr,
    remove_locked 7 0 2%positive (Some 3%positive) S8 = Returns r s' tr ∧
    lock_events tr = window_locks (2%positive, Some 3%positive) ∧
    match r with
    | None =>
        validated (heap S8) 2%positive (Some 3%positive) = false ∧
        s' = set_accessedPointers (cleared (accessedPointers S8) 0) S8
    | Some false =>
        validated (heap S8) 2%positive (Some 3%positive) = true ∧
        (7%Z ∉ keys (heap S8) [2%positive; 3%positive]) ∧
        s' = set_accessedPointers (cleared (accessedPointers S8) 0) S8
    | Some true =>
        validated (heap S8) 2%positive (Some 3%positive) = true ∧
        ∃ l1 c l3,
          [2%positive; 3%positive] = l1 ++ c :: l3 ∧
          2%positive = List.last l1 (head S8) ∧
          Some 3%positive = Some c ∧
          key (heap S8) c = 7%Z ∧
          Inv s' (l1 ++ l3) ∧
          keys (heap s') (l1 ++ l3) = keys (heap S8) l1 ++ keys (heap S8) l3 ∧
          (c ∈ retireList s' ∨ heap s' !! c = None)
    end.
Proof.
  assert (H2 : 2%positive = head S8 ∨ (key (heap S8) 2%positive < 7)%Z)
    by (apply S8_pred_below; lia).
  assert (H3 : ∀ c, Some 3%positive = Some c → (7 ≤ key (heap S8) c)%Z)
    by (intros c; apply S8_curr_above; lia).
  split; [exact Inv_S8|]. split; [exact in_range_0|].
  split; [exact S8_window_allocated|]. split; [exact S8_curr_allocated|].
  split; [exact H2|]. split; [exact H3|]. split; [exact S8_window_distinct|].
  apply (remove_locked_validated S8 [2%positive; 3%positive] 7 0 2%positive
           (Some 3%positive) Inv_S8 in_range_0 S8_window_allocated
           S8_curr_allocated H2 H3 S8_window_distinct).
Defined.

Lemma insert_survives_interference_witness :
  Inv S8 [2%positive; 3%positive] ∧ in_range 0 ∧ valid_call (Remove 2 1) ∧
  worker_of (Remove 2 1) ≠ Some 0%Z ∧
  ∃ pred curr s1 t1 r s2 t2 s3 t3 l3,
    insert_find (fuel_of S8) 5 0 S8 = Returns (pred, curr) s1 t1 ∧
    exec (Remove 2 1) s1 = Returns r s2 t2 ∧
    insert_resume (size (heap S8)) (fuel_of S8) 5 0 pred curr s2 =
      Returns tt s3 t3 ∧
    r = model_ret (Remove 2 1) (keys (heap S8) [2%positive; 3%positive]) ∧
    Inv s3 l3 ∧
    keys (heap s3) l3 =
      place 5 (model_step (Remove 2 1) (keys (heap S8) [2%positive; 3%positive])).
Proof.
  split; [exact Inv_S8|]. split; [exact in_range_0|]. split; [exact in_range_1|].
  split; [exact other_worker|].
  apply (insert_survives_interference S8 [2%positive; 3%positive] 5 0 (Remove 2 1)
           Inv_S8 in_range_0 in_range_1 other_worker).
Defined.

Lemma remove_survives_interference_witness :
  Inv S8 [2%positive; 3%positive] ∧ in_range 0 ∧ valid_call (Remove 2 1) ∧
  worker_of (Remove 2 1) ≠ Some 0%Z ∧
  ∃ pred curr s1 t1 r s2 t2 b s3 t3 l3,
    remove_find (fuel_of S8) 7 0 S8 = Returns (pred, curr) s1 t1 ∧
    exec (Remove 2 1) s1 = Returns r s2 t2 ∧
    remove_resume (size (heap S8)) (fuel_of S8) 7 0 pred curr s2 =
      Returns b s3 t3 ∧
    r = model_ret (Remove 2 1) (keys (heap S8) [2%positive; 3%positive]) ∧
    RBool b =
      model_ret (Remove 7 0)
        (model_step (Remove 2 1) (keys (heap S8) [2%positive; 3%positive])) ∧
    Inv s3 l3 ∧
    keys (heap s3) l3 =
      model_step (Remove 7 0)
        (model_step (Remove 2 1) (keys (heap S8) [2%positive; 3%positive])).
Proof.
  split; [exact Inv_S8|]. split; [exact in_range_0|]. split; [exact in_range_1|].
  split; [exact other_worker|].
  apply (remove_survives_interference S8 [2%positive; 3%positive] 7 0 (Remove 2 1)
           Inv_S8 in_range_0 in_range_1 other_worker).
Defined.

Lemma locks_of_a_call_witness :
  wf S8 [2%positive; 3%positive] ∧ in_range 0 ∧
  (∃ s' tr l1 l2,
     insert 5 0 S8 = Returns tt s' tr ∧
     [2%positive; 3%positive] = l1 ++ l2 ∧
     Forall (λ a, (key (heap S8) a < 5)%Z) l1 ∧
     (∀ c, first l2 = Some c → (5 ≤ key (heap S8) c)%Z) ∧
     lock_events tr = window_locks (List.last l1 (head S8), first l2)) ∧
  (∃ b s' tr l1 l2,
     remove 5 0 S8 = Returns b s' tr ∧
     [2%positive; 3%positive] = l1 ++ l2 ∧
     Forall (λ a, (key (heap S8) a < 5)%Z) l1 ∧
     (∀ c, first l2 = Some c → (5 ≤ key (heap S8) c)%Z) ∧
     lock_events tr = window_locks (List.last l1 (head S8), first l2)) ∧
  (∃ b s' tr, contains 5 0 S8 = Returns b s' tr ∧ Forall (walk_event 0) tr ∧
     lock_events tr = []).
Proof.
  split; [exact wf_S8|]. split; [exact in_range_0|].
  apply (locks_of_a_call S8 [2%positive; 3%positive] 5 0 wf_S8 in_range_0).
Defined.

Lemma hazard_rows_are_private_witness :
  wf S5 [] ∧ valid_call (Insert 5 0) ∧
  ∃ r s' tr,
    exec (Insert 5 0) S5 = Returns r s' tr ∧
    match worker_of (Insert 5 0) with
    | Some t =>
        Forall (own_store t) tr ∧
        accessedPointers s' = cleared (accessedPointers S5) t
    | None =>
        Forall (λ e, ∀ t, own_store t e) tr ∧
        accessedPointers s' = accessedPointers S5
    end.
Proof.
  split; [exact wf_S5|]. split; [exact in_range_0|].
  apply (hazard_rows_are_private S5 [] (Insert 5 0) wf_S5 in_range_0).
Defined.

Lemma destructor_leaves_retired_nodes_witness :
  wf S5 [] ∧
  ∃ s' tr,
    delete_MarkedList S5 = Returns tt s' tr ∧
    deleted tr = head S5 :: [] ∧
    NoDup (deleted tr) ∧
    (∀ a, heap s' !! a = if decide (a ∈ retireList S5) then heap S5 !! a else None) ∧
    (∀ a, a ∈ retireList S5 → is_Some (heap s' !! a)) ∧
    retireList s' = retireList S5.
Proof. split; [exact wf_S5|]. apply (destructor_leaves_retired_nodes S5 [] wf_S5). Defined.

Lemma reclaim_then_destructor_frees_all_witness :
  wf S5 [] ∧
  ∃ s1 t1 s2 t2,
    scanAndReclaim S5 = Returns tt s1 t1 ∧
    delete_MarkedList s1 = Returns tt s2 t2 ∧
    NoDup (deleted (t1 ++ t2)) ∧
    (∀ a, is_Some (heap s2 !! a) ↔
          a ∈ retireList S5 ∧ referenced a (accessedPointers S5)) ∧
    (all_null (accessedPointers S5) → heap s2 = ∅).
Proof. split; [exact wf_S5|]. apply (reclaim_then_destructor_frees_all S5 [] wf_S5). Defined.

Lemma printRetireList_after_calls_witness :
  Forall valid_call S6 ∧
  ∃ log s' tr tr',
    run S6 new = Returns log s' tr ∧
    printRetireList s' = Returns (pending log) s' tr'.
Proof. split; [exact valid_S6|]. apply (printRetireList_after_calls S6 valid_S6). Defined.

Lemma checkList_decides_sortedness_witness :
  chain (heap S3) (Some (head S3)) (head S3 :: [2%positive]) ∧
  ∃ b tr,
    checkList S3 = Returns b S3 tr ∧
    (b = true ↔ Sorted Z.le (keys (heap S3) (head S3 :: [2%positive]))).
Proof.
  split; [exact S3_chain|].
  apply (checkList_decides_sortedness S3 [2%positive] S3_chain).
Defined.

Lemma scanAndReclaim_twice_witness :
  wf S5 [] ∧
  ∃ s1 t1 t2,
    scanAndReclaim S5 = Returns tt s1 t1 ∧
    scanAndReclaim s1 = Returns tt s1 t2 ∧
    deleted t2 = [] ∧
    wf s1 [].
Proof. split; [exact wf_S5|]. apply (scanAndReclaim_twice S5 [] wf_S5). Defined.

Lemma main_epilogue_after_calls_witness :
  Forall main_call S7 ∧ (Z.of_nat (List.length S7) ≤ 8000)%Z ∧
  ∃ log s1 t1 out s2 t2,
    run S7 new = Returns log s1 t1 ∧
    main_epilogue s1 =
      Returns (out, Z.of_nat (List.length out), bool_decide (50%Z ∈ out), true)
              s2 t2 ∧
    StronglySorted Z.le out ∧
    out ++ removed_keys log ≡ₚ inserted_keys log ∧
    heap s2 = ∅.
Proof.
  assert (Hb : (Z.of_nat (List.length S7) ≤ 8000)%Z) by (simpl; lia).
  split; [exact main_calls_S7|]. split; [exact Hb|].
  apply (main_epilogue_after_calls S7 main_calls_S7 Hb).
Defined.

Lemma S5_held : Some 2%positive ∈ row (accessedPointers S5) 1.
Proof. change (row (accessedPointers S5) 1) with [Some 2%positive; @None addr]. left. Qed.

Lemma S5_other_worker : worker_of (Insert 5 0) ≠ Some 1%Z.
Proof. simpl. intros H. discriminate H. Qed.

Lemma published_node_survives_witness :
  wf S5 [] ∧ valid_call (Insert 5 0) ∧ in_range 1 ∧
  worker_of (Insert 5 0) ≠ Some 1%Z ∧
  heap S5 !! 2%positive = Some (mkNode 7 (Some 3%positive) true) ∧
  Some 2%positive ∈ row (accessedPointers S5) 1 ∧
  ∃ r s' tr n',
    exec (Insert 5 0) S5 = Returns r s' tr ∧
    heap s' !! 2%positive = Some n' ∧
    value n' = value (mkNode 7 (Some 3%positive) true) ∧
    Some 2%positive ∈ row (accessedPointers s') 1.
Proof.
  assert (Ha : heap S5 !! 2%positive = Some (mkNode 7 (Some 3%positive) true))
    by reflexivity.
  split; [exact wf_S5|]. split; [exact in_range_0|]. split; [exact in_range_1|].
  split; [exact S5_other_worker|]. split; [exact Ha|]. split; [exact S5_held|].
  apply (published_node_survives S5 [] (Insert 5 0) 1 2%positive _
           wf_S5 in_range_0 in_range_1 S5_other_worker Ha S5_held).
Defined.

Lemma retire_list_invariant_witness :
  wf S9 [2%positive; 3%positive] ∧ valid_call (Remove 7 0) ∧
  ∃ r s' tr l',
    exec (Remove 7 0) S9 = Returns r s' tr ∧ wf s' l' ∧
    retire_invariant s' l' ∧
    (∀ a, a ∈ [2%positive; 3%positive] → a ∉ l' →
       (a ∈ retireList s' ∧ ∃ n, heap s' !! a = Some n ∧ removed n = true) ∨
       heap s' !! a = None) ∧
    r = RBool true ∧ l' = [2%positive] ∧
    retireList S9 = [4%positive] ∧ retireList s' = [3%positive] ∧
    heap s' !! 4%positive = None.
Proof.
  split; [exact wf_S9|]. split; [exact in_range_0|].
  destruct (proj2 retire_list_invariant S9 [2%positive; 3%positive]
              (Remove 7 0) wf_S9 in_range_0)
    as (r & s' & tr & l' & Hrun & Hwf & Hret & Hout).
  exists r, s', tr, l'.
  split; [exact Hrun|]. split; [exact Hwf|]. split; [exact Hret|].
  split; [exact Hout|].
  assert (Hc : chain (heap s') (Some (head s')) (head s' :: l'))
    by exact (wf_chain _ _ Hwf).
  vm_compute in Hrun. injection Hrun as <- <- _.
  split; [reflexivity|]. split; [|by vm_compute].
  eapply (inj (cons _)), chain_det; [exact Hc|].
  repeat (econstructor; [reflexivity|]). constructor.
Defined.

End MarkedList.
